(** * TinySchedule: the macro engine and the scheduler

    A shallow embedding of [TinySchedule.py]: the [Macro] class (recording,
    persistence, playback), the [Scheduler] class (persisted trigger table,
    polling cycle) and, of the class [App], what does not draw: the
    actions on the macro, the months of the calendar and the count of the
    triggers of a day; followed by their properties.  The widgets and the
    media panel are outside the embedding.

    Conventions of the embedding.
    - Python values are the inductive [pyval]; a [dict] is an association
      list in insertion order whose keys are pairwise distinct ([wf_pyval]).
    - A Python [float] is idealised as an exact decimal [dec] (mantissa and
      power of ten); rounding is not modelled.  Quotients computed during
      playback are rationals.
    - A Python [str] is a [string] holding its UTF-8 bytes, a surrogate
      code point being kept as three bytes like any other.
    - Exceptions are the [Raise] branch of [result].
    - [time.time()], the file system and the input device are explicit
      arguments; threads are not modelled: every method runs atomically.
    - A [datetime] carries its offset from UTC, if it has one.
    - The limits the interpreter puts on [json] (depth of nesting, digits
      of an integer) are not modelled. *)

From Stdlib Require Import ZArith QArith Qpower List String Ascii Lia Bool.
From Stdlib Require Import DecimalString DecimalN DecimalFacts.
From Stdlib Require Import Sorting.Sorted Sorting.Permutation.
From stdpp Require Import base gmap strings list.

Open Scope Z_scope.

(* stdpp keeps [String.append] folded; the proofs on JSON text compute
   through it. *)
#[local] Arguments String.append !s1 s2 : simpl nomatch.

(** ** Exceptions and results *)

Inductive exn : Type :=
| OSError            (* open() failed: missing or inaccessible file *)
| JSONDecodeError    (* json.load on text that is not JSON *)
| UnicodeDecodeError (* reading a file that is not UTF-8 text *)
| UnicodeEncodeError (* writing a string that UTF-8 cannot encode *)
| OverflowError
| KeyError
| TypeError
| ValueError
| AttributeError
| DeviceError.       (* a pynput controller call failed *)

Inductive result (A : Type) : Type :=
| Ok (a : A)
| Raise (e : exn).
Arguments Ok {A} a.
Arguments Raise {A} e.

Definition bind {A B} (r : result A) (k : A -> result B) : result B :=
  match r with
  | Ok a => k a
  | Raise e => Raise e
  end.

Notation "x <- r ;; k" := (bind r (fun x => k))
  (at level 100, r at next level, right associativity).

Definition is_ok {A} (r : result A) : bool :=
  match r with Ok _ => true | Raise _ => false end.

(** ** Floats as exact decimals *)

Record dec : Type := Dec { mant : Z; expo : Z }.

Definition dec_to_Q (d : dec) : Q := (inject_Z (mant d) * (10 # 1) ^ expo d)%Q.

Definition dec_of_Z (z : Z) : dec := Dec z 0.

(** [a - b] on a common exponent *)
Definition dec_sub (a b : dec) : dec :=
  let e := Z.min (expo a) (expo b) in
  Dec (mant a * 10 ^ (expo a - e) - mant b * 10 ^ (expo b - e)) e.

(** [bool(x)] of a float: zero is falsy *)
Definition dec_truthy (d : dec) : bool := negb (mant d =? 0).

(** [int(x)] of a float truncates towards zero *)
Definition dec_trunc (d : dec) : Z :=
  if 0 <=? expo d then mant d * 10 ^ expo d
  else Z.quot (mant d) (10 ^ (- expo d)).

(** ** Python values *)

Inductive pyval : Type :=
| PNone
| PBool (b : bool)
| PInt (z : Z)
| PFloat (d : dec)
| PStr (s : string)
| PList (l : list pyval)
| PDict (d : list (string * pyval)).

(** [d.get(k)]: [None] when absent *)
Fixpoint assoc_get (k : string) (d : list (string * pyval)) : option pyval :=
  match d with
  | [] => None
  | (k', v) :: r => if String.eqb k k' then Some v else assoc_get k r
  end.

(** [d[k] = v]: an existing key keeps its position *)
Fixpoint dict_set (k : string) (v : pyval) (d : list (string * pyval))
  : list (string * pyval) :=
  match d with
  | [] => [(k, v)]
  | (k', v') :: r =>
      if String.eqb k k' then (k, v) :: r else (k', v') :: dict_set k v r
  end.

(** [del d[k]] *)
Fixpoint dict_del (k : string) (d : list (string * pyval))
  : list (string * pyval) :=
  match d with
  | [] => []
  | (k', v') :: r =>
      if String.eqb k k' then r else (k', v') :: dict_del k r
  end.

(** [dict(pairs)] *)
Definition py_dict (pairs : list (string * pyval)) : list (string * pyval) :=
  fold_left (fun d kv => dict_set (fst kv) (snd kv) d) pairs [].

(** Dicts have pairwise distinct keys, at every depth. *)
Fixpoint wf_pyval (v : pyval) : Prop :=
  match v with
  | PList l => (fix all (l : list pyval) : Prop :=
                  match l with
                  | [] => True
                  | x :: r => wf_pyval x /\ all r
                  end) l
  | PDict d => NoDup (map fst d) /\
               (fix all (d : list (string * pyval)) : Prop :=
                  match d with
                  | [] => True
                  | kv :: r => wf_pyval (snd kv) /\ all r
                  end) d
  | _ => True
  end.

(** [ev.get(k)] on an arbitrary value: only a dict has [get] *)
Definition py_get (v : pyval) (k : string) : result (option pyval) :=
  match v with
  | PDict d => Ok (assoc_get k d)
  | _ => Raise AttributeError
  end.

(** [ev[k]] for a string key *)
Definition py_index (v : pyval) (k : string) : result pyval :=
  match v with
  | PDict d => match assoc_get k d with
               | Some x => Ok x
               | None => Raise KeyError
               end
  | PStr _ | PList _ => Raise TypeError   (* indices must be integers *)
  | _ => Raise TypeError                  (* not subscriptable *)
  end.

(** Truth value, as tested by [if x] *)
Definition py_truthy (v : pyval) : bool :=
  match v with
  | PNone => false
  | PBool b => b
  | PInt z => negb (z =? 0)
  | PFloat d => dec_truthy d
  | PStr s => negb (String.eqb s EmptyString)
  | PList l => match l with [] => false | _ => true end
  | PDict d => match d with [] => false | _ => true end
  end.

(** ** The calendar of [datetime]

    The proleptic Gregorian calendar as the [datetime] module computes
    it: days are counted from 1 for the first of January of year 1; the
    last day is the 31st of December 9999. *)

Module Dates.

Definition is_leap (y : Z) : bool :=
  (y mod 4 =? 0) && (negb (y mod 100 =? 0) || (y mod 400 =? 0)).

(** The lengths of the months of a common year, and the days before each
    month; the entry 0 is not a month. *)
Definition month_lengths : list Z :=
  [0; 31; 28; 31; 30; 31; 30; 31; 31; 30; 31; 30; 31].

Definition month_starts : list Z :=
  [0; 0; 31; 59; 90; 120; 151; 181; 212; 243; 273; 304; 334].

Definition days_in_month (y m : Z) : Z :=
  if (m =? 2) && is_leap y then 29 else nth (Z.to_nat m) month_lengths 0.

Definition days_before_year (y : Z) : Z :=
  let p := y - 1 in p * 365 + p / 4 - p / 100 + p / 400.

(** The days of the year [y] before the first of the month [m]. *)
Definition days_before_month (y m : Z) : Z :=
  nth (Z.to_nat m) month_starts 0 + (if (2 <? m) && is_leap y then 1 else 0).

(** [date(y, m, d).toordinal()] *)
Definition toordinal (y m d : Z) : Z :=
  days_before_year y + days_before_month y m + d.

Definition max_ordinal : Z := 3652059.

(** [date.fromordinal(n)], by the periods of 400, 100, 4 and 1 years. *)
Definition fromordinal (n : Z) : Z * Z * Z :=
  let n := n - 1 in
  let n400 := n / 146097 in
  let n := n mod 146097 in
  let n100 := n / 36524 in
  let n := n mod 36524 in
  let n4 := n / 1461 in
  let n := n mod 1461 in
  let n1 := n / 365 in
  let n := n mod 365 in
  let y := n400 * 400 + 1 + n100 * 100 + n4 * 4 + n1 in
  if (n1 =? 4) || (n100 =? 4) then (y - 1, 12, 31)
  else
    let leap := (n1 =? 3) && (negb (n4 =? 24) || (n100 =? 3)) in
    let m := Z.shiftr (n + 50) 5 in
    let preceding := nth (Z.to_nat m) month_starts 0
                     + (if (2 <? m) && leap then 1 else 0) in
    if n <? preceding then
      let m := m - 1 in
      let preceding := preceding - (nth (Z.to_nat m) month_lengths 0
                                    + (if (m =? 2) && leap then 1 else 0)) in
      (y, m, n - preceding + 1)
    else (y, m, n - preceding + 1).

(** The month after and the month before, in the calendar. *)
Definition month_after (y m : Z) : Z * Z :=
  if m =? 12 then (y + 1, 1) else (y, m + 1).

Definition month_before (y m : Z) : Z * Z :=
  if m =? 1 then (y - 1, 12) else (y, m - 1).

(** The year and the month of the day [k] days from the 15th of the
    month [m] of the year [y]. *)
Definition month_of_shift (k y m : Z) : Z * Z :=
  let '(y', m', _) := fromordinal (toordinal y m 15 + k) in (y', m').

(** The integers from [lo] on, [n] of them. *)
Fixpoint zrange (lo : Z) (n : nat) : list Z :=
  match n with
  | O => []
  | S k => lo :: zrange (lo + 1) k
  end.

Definition same_month (a b : Z * Z) : bool :=
  (fst a =? fst b) && (snd a =? snd b).

(** What the proof of the navigation checks month by month over one
    period of 400 years: the 15th exists, 31 days later and earlier lie in
    the next and in the previous month, and the day numbers stay within
    the bounds used for the last years of the calendar. *)
Definition shift_checked (y m : Z) : bool :=
  let n := toordinal y m 15 in
  (15 <=? days_in_month y m) &&
  same_month (month_of_shift 31 y m) (month_after y m) &&
  same_month (month_of_shift (-31) y m) (month_before y m) &&
  (n + 31 <=? 146112) && (-16 <=? n - 31) &&
  (if (y =? 1) && (m =? 1) then n - 31 <? 1 else 1 <=? n - 31) &&
  (if y <? 400 then n - 31 + 3506328 <=? max_ordinal else true) &&
  (if (y =? 399) && (m =? 12) then max_ordinal <? n + 31 + 3506328
   else if y <? 400 then n + 31 + 3506328 <=? max_ordinal else true).

(** [datetime(y, m, d)]: [None] stands for [ValueError]. *)
Definition date (y m d : Z) : option (Z * Z * Z) :=
  if (1 <=? y) && (y <=? 9999) && (1 <=? m) && (m <=? 12) &&
     (1 <=? d) && (d <=? days_in_month y m)
  then Some (y, m, d) else None.

(** [d + timedelta(days=k)]: [None] stands for [OverflowError]. *)
Definition add_days (d : Z * Z * Z) (k : Z) : option (Z * Z * Z) :=
  let '(y, m, dd) := d in
  let n := toordinal y m dd + k in
  if (1 <=? n) && (n <=? max_ordinal) then Some (fromordinal n) else None.

End Dates.

(** ** Dates

    A [datetime] object: its fields, its [tzinfo], the order Python gives
    it and the text [isoformat()] returns.  [utcoffset] is [None] for a
    naive date and otherwise the offset from UTC, in microseconds. *)

Record datetime : Type := DateTime {
  year : Z; month : Z; day : Z;
  hour : Z; minute : Z; second : Z; microsecond : Z;
  utcoffset : option Z
}.

Definition naive (d : datetime) : Prop := utcoffset d = None.

Definition dt_valid (d : datetime) : Prop :=
  1 <= year d <= 9999 /\ 1 <= month d <= 12 /\ 1 <= day d <= 31 /\
  0 <= hour d < 24 /\ 0 <= minute d < 60 /\ 0 <= second d < 60 /\
  0 <= microsecond d < 1000000.

(** Comparison of the second when the first says [Eq]. *)
Definition lex (c1 c2 : comparison) : comparison :=
  match c1 with
  | Eq => c2
  | _ => c1
  end.

Definition dt_compare (a b : datetime) : comparison :=
  lex (year a ?= year b)
   (lex (month a ?= month b)
     (lex (day a ?= day b)
       (lex (hour a ?= hour b)
         (lex (minute a ?= minute b)
           (lex (second a ?= second b)
                (microsecond a ?= microsecond b)))))).

(** The order of the fields, offsets left aside. *)
Definition dt_leb (a b : datetime) : bool :=
  match dt_compare a b with
  | Gt => false
  | _ => true
  end.

(** The microseconds from the start of the calendar to the fields of
    [d], less the offset [off]. *)
Definition utc_instant (d : datetime) (off : Z) : Z :=
  (((Dates.toordinal (year d) (month d) (day d) * 24 + hour d) * 60
    + minute d) * 60 + second d) * 1000000 + microsecond d - off.

(** [a <= b] on datetimes: the fields decide when both are naive or have
    the same offset, the instants when both have an offset; a naive date
    and one with an offset cannot be compared. *)
Definition dt_le (a b : datetime) : result bool :=
  match utcoffset a, utcoffset b with
  | None, None => Ok (dt_leb a b)
  | Some oa, Some ob =>
      if oa =? ob then Ok (dt_leb a b)
      else Ok (utc_instant a oa <=? utc_instant b ob)
  | _, _ => Raise TypeError
  end.

Definition digit_char (n : Z) : ascii :=
  ascii_of_N (48 + Z.to_N (n mod 10)).

(** [n] written with [w] digits, zeros in front *)
Fixpoint pad (w : nat) (n : Z) : string :=
  match w with
  | O => EmptyString
  | S w' => String (digit_char (n / 10 ^ Z.of_nat w'))
                   (pad w' (n mod 10 ^ Z.of_nat w'))
  end.

(** The date and the time of [isoformat()]: the microseconds appear only
    when they are not zero. *)
Definition local_text (d : datetime) : string :=
  pad 4 (year d) +:+ String "-" (pad 2 (month d) +:+ String "-"
    (pad 2 (day d) +:+ String "T" (pad 2 (hour d) +:+ String ":"
      (pad 2 (minute d) +:+ String ":" (pad 2 (second d) +:+
        (if microsecond d =? 0 then EmptyString
         else String "." (pad 6 (microsecond d)))))))).

(** The offset of [isoformat()]: nothing for a naive date, else the sign,
    hours and minutes, and the seconds and microseconds when there are
    any. *)
Definition offset_text (o : option Z) : string :=
  match o with
  | None => EmptyString
  | Some off =>
      let a := Z.abs off in
      let ss := (a mod 60000000) / 1000000 in
      let us := a mod 1000000 in
      String (if off <? 0 then "-" else "+")
        (pad 2 (a / 3600000000) +:+ String ":"
          (pad 2 ((a mod 3600000000) / 60000000) +:+
            (if (ss =? 0) && (us =? 0) then EmptyString
             else String ":" (pad 2 ss +:+
                    (if us =? 0 then EmptyString
                     else String "." (pad 6 us))))))
  end.

(** [d.isoformat()] *)
Definition isoformat (d : datetime) : string :=
  local_text d +:+ offset_text (utcoffset d).

(** ** The host: devices and built-in conversions *)

(** What [keyboard.Controller] is asked to press: the value stored under
    ["key"] for a character, a member of [keyboard.Key] otherwise. *)
Inductive keyobj : Type :=
| KChar (v : pyval)
| KSpecial (name : string).

(** The calls that leave the program: the pynput controllers and
    [time.sleep]. *)
Inductive action : Type :=
| SetPosition (x y : Z)
| MousePress (button : string)
| MouseRelease (button : string)
| MouseScroll (dx dy : Z)
| KeyPress (k : keyobj)
| KeyRelease (k : keyobj)
| Sleep (t : Q).

(** What the program takes from outside its own code: the members of the
    pynput enumerations, the controller calls that fail, Python's parsing
    of numbers and of ISO dates. *)
Record host : Type := Host {
  key_member : string -> bool;        (* names of [keyboard.Key] *)
  button_member : string -> bool;     (* names of [mouse.Button] *)
  rejects : action -> bool;           (* controller calls that raise *)
  int_of_str : string -> option Z;    (* [int(s)] *)
  float_of_str : string -> option dec; (* [float(s)] *)
  fromisoformat : string -> option datetime (* [datetime.fromisoformat(s)] *)
}.

(** [int(v)] *)
Definition py_int (H : host) (v : pyval) : result Z :=
  match v with
  | PInt z => Ok z
  | PBool b => Ok (if b then 1 else 0)
  | PFloat d => Ok (dec_trunc d)
  | PStr s => match int_of_str H s with
              | Some z => Ok z
              | None => Raise ValueError
              end
  | PNone | PList _ | PDict _ => Raise TypeError
  end.

(** The integers [float()] converts are those that round to a float:
    below [2 ^ 1024 - 2 ^ 970] in absolute value. *)
Definition float_range (z : Z) : bool :=
  Z.abs z <? 2 ^ 1024 - 2 ^ 970.

(** [float(v)] *)
Definition py_float (H : host) (v : pyval) : result dec :=
  match v with
  | PInt z => if float_range z then Ok (dec_of_Z z) else Raise OverflowError
  | PBool b => Ok (dec_of_Z (if b then 1 else 0))
  | PFloat d => Ok d
  | PStr s => match float_of_str H s with
              | Some d => Ok d
              | None => Raise ValueError
              end
  | PNone | PList _ | PDict _ => Raise TypeError
  end.

(** [ev.get(k, default)] *)
Definition py_get_default (v : pyval) (k : string) (default : pyval)
  : result pyval :=
  o <- py_get v k ;;
  Ok (match o with Some x => x | None => default end).

(** [for x in v]: the elements of a list, the keys of a dict, the
    characters of a string. *)
Definition py_iter (v : pyval) : result (list pyval) :=
  match v with
  | PList l => Ok l
  | PDict d => Ok (map (fun kv => PStr (fst kv)) d)
  | PStr s => Ok (map (fun c => PStr (String c EmptyString))
                      (list_ascii_of_string s))
  | PNone | PBool _ | PInt _ | PFloat _ => Raise TypeError
  end.

(** [v == s] for a string literal [s] *)
Definition py_is_str (v : option pyval) (s : string) : bool :=
  match v with
  | Some (PStr x) => String.eqb x s
  | _ => false
  end.

(** Calls made so far, and how the computation ended. *)
Definition out (A : Type) : Type := (list action * result A)%type.

Definition obind {A B} (m : out A) (k : A -> out B) : out B :=
  match m with
  | (tr, Ok a) => let (tr', r) := k a in (tr ++ tr', r)
  | (tr, Raise e) => (tr, Raise e)
  end.

Notation "x <~ m ;; k" := (obind m (fun x => k))
  (at level 100, m at next level, right associativity).

Definition lift {A} (r : result A) : out A := ([], r).

Definition emit (H : host) (a : action) : out unit :=
  if rejects H a then ([], Raise DeviceError) else ([a], Ok tt).

(** ** Strings and UTF-8

    A [str] may hold a surrogate code point (13 * 4096 + 2048 to 57343),
    which the UTF-8 codec refuses to write; in the bytes kept here it
    shows as the byte 237 followed by a byte from 160 on. *)

Definition surrogate_at (a b : ascii) : bool :=
  ((N_of_ascii a =? 237) && (160 <=? N_of_ascii b))%N.

(** [s.encode("utf-8")] succeeds *)
Fixpoint encodable (s : string) : bool :=
  match s with
  | EmptyString => true
  | String a r =>
      match r with
      | String b _ => negb (surrogate_at a b)
      | EmptyString => true
      end && encodable r
  end.

(** [p in s] on strings: [p] occurs somewhere in [s]. *)
Fixpoint is_infix (p s : string) : bool :=
  String.prefix p s ||
  match s with
  | String _ r => is_infix p r
  | EmptyString => false
  end.

(** The strings of a list put one after the other. *)
Definition joined (l : list string) : string :=
  fold_right String.append EmptyString l.

(** ** The [json] module: [dumps] and [loads]

    The text [json.dump] produces and the value [json.load] builds.
    A float is written by mantissa and exponent ([25e-1] for 2.5), one of
    the spellings [json.load] reads; the literals [NaN] and [Infinity]
    are outside the model. *)

Module Json.

Definition quote : ascii := "034"%char.
Definition backslash : ascii := "092"%char.

(** *** Encoding *)

Definition digits (n : N) : string := NilEmpty.string_of_uint (N.to_uint n).

Definition int_repr (z : Z) : string :=
  match z with
  | Zneg p => String "-" (digits (Npos p))
  | _ => digits (Z.to_N z)
  end.

Definition float_repr (d : dec) : string :=
  int_repr (mant d) +:+ String "e" (int_repr (expo d)).

Definition hex_digit (n : N) : ascii :=
  match n with
  | 0 => "0" | 1 => "1" | 2 => "2" | 3 => "3" | 4 => "4" | 5 => "5"
  | 6 => "6" | 7 => "7" | 8 => "8" | 9 => "9" | 10 => "a" | 11 => "b"
  | 12 => "c" | 13 => "d" | 14 => "e" | _ => "f"
  end%N%char.

(** [ensure_ascii=False]: only the quote, the backslash and the control
    characters are escaped. *)
Definition escape_char (c : ascii) : string :=
  if Ascii.eqb c quote then String backslash (String quote EmptyString)
  else if Ascii.eqb c backslash then String backslash (String backslash EmptyString)
  else if Ascii.eqb c "010" then "\n"
  else if Ascii.eqb c "013" then "\r"
  else if Ascii.eqb c "009" then "\t"
  else if Ascii.eqb c "008" then "\b"
  else if Ascii.eqb c "012" then "\f"
  else if (N_of_ascii c <? 32)%N
       then "\u00" +:+ String (hex_digit (N_of_ascii c / 16))
                         (String (hex_digit (N_of_ascii c mod 16)) EmptyString)
       else String c EmptyString.

Fixpoint escape (s : string) : string :=
  match s with
  | EmptyString => EmptyString
  | String c r => escape_char c +:+ escape r
  end.

Definition str_repr (s : string) : string :=
  String quote (escape s +:+ String quote EmptyString).

(** [json.dumps(v, ensure_ascii=False, separators=(",", ":"))] *)
Fixpoint dumps (v : pyval) : string :=
  match v with
  | PNone => "null"
  | PBool true => "true"
  | PBool false => "false"
  | PInt z => int_repr z
  | PFloat d => float_repr d
  | PStr s => str_repr s
  | PList l =>
      "[" +:+
      (fix items (l : list pyval) : string :=
         match l with
         | [] => "]"
         | x :: r => dumps x +:+ match r with
                                 | [] => "]"
                                 | _ => String "," (items r)
                                 end
         end) l
  | PDict d =>
      "{" +:+
      (fix members (d : list (string * pyval)) : string :=
         match d with
         | [] => "}"
         | (k, x) :: r => str_repr k +:+ String ":" (dumps x +:+
                            match r with
                            | [] => "}"
                            | _ => String "," (members r)
                            end)
         end) d
  end.

(** The elements of a list with their closing bracket. *)
Fixpoint dumps_items (l : list pyval) : string :=
  match l with
  | [] => "]"
  | x :: r => dumps x +:+ match r with
                          | [] => "]"
                          | _ => String "," (dumps_items r)
                          end
  end.

(** The members of a dict with their closing brace. *)
Fixpoint dumps_members (d : list (string * pyval)) : string :=
  match d with
  | [] => "}"
  | (k, x) :: r => str_repr k +:+ String ":" (dumps x +:+
                     match r with
                     | [] => "}"
                     | _ => String "," (dumps_members r)
                     end)
  end.

(** [json.dumps(v, ensure_ascii=False, indent=2)]: one item per line,
    [", "] never appears and the key separator is [": "]. *)
Fixpoint newline (level : nat) : string :=
  match level with
  | O => String "010" EmptyString
  | S k => newline k +:+ "  "
  end.

Fixpoint dumps_indent (level : nat) (v : pyval) : string :=
  match v with
  | PList [] => "[]"
  | PList l =>
      "[" +:+ newline (S level) +:+
      (fix items (l : list pyval) : string :=
         match l with
         | [] => EmptyString
         | x :: r => dumps_indent (S level) x +:+
                     match r with
                     | [] => EmptyString
                     | _ => "," +:+ newline (S level) +:+ items r
                     end
         end) l +:+ newline level +:+ "]"
  | PDict [] => "{}"
  | PDict d =>
      "{" +:+ newline (S level) +:+
      (fix members (d : list (string * pyval)) : string :=
         match d with
         | [] => EmptyString
         | (k, x) :: r => str_repr k +:+ ": " +:+ dumps_indent (S level) x +:+
                          match r with
                          | [] => EmptyString
                          | _ => "," +:+ newline (S level) +:+ members r
                          end
         end) d +:+ newline level +:+ "}"
  | _ => dumps v
  end.

(** The elements of an indented list, each on its line. *)
Definition indent_items (level : nat) : list pyval -> string :=
  fix items (l : list pyval) : string :=
    match l with
    | [] => EmptyString
    | x :: r => dumps_indent level x +:+
                match r with
                | [] => EmptyString
                | _ => "," +:+ newline level +:+ items r
                end
    end.

(** The members of an indented dict, each on its line. *)
Definition indent_members (level : nat) : list (string * pyval) -> string :=
  fix members (d : list (string * pyval)) : string :=
    match d with
    | [] => EmptyString
    | (k, x) :: r => str_repr k +:+ ": " +:+ dumps_indent level x +:+
                     match r with
                     | [] => EmptyString
                     | _ => "," +:+ newline level +:+ members r
                     end
    end.

(** The pieces [json.dump] hands to [write] one after the other, for
    [separators=(",", ":")]: a scalar element of a list comes with the
    bracket or the comma before it, a key, a colon and a scalar member
    each come alone. *)
Fixpoint pieces (v : pyval) : list string :=
  match v with
  | PList [] => ["[]"]
  | PList l =>
      (fix items (buf : string) (l : list pyval) : list string :=
         match l with
         | [] => ["]"]
         | x :: r =>
             match x with
             | PList _ | PDict _ => buf :: pieces x ++ items "," r
             | _ => (buf +:+ dumps x) :: items "," r
             end
         end) "[" l
  | PDict [] => ["{}"]
  | PDict d =>
      "{" ::
      (fix members (sep : list string) (d : list (string * pyval))
         : list string :=
         match d with
         | [] => ["}"]
         | (k, x) :: r =>
             sep ++ str_repr k :: ":" :: pieces x ++ members [","] r
         end) [] d
  | _ => [dumps v]
  end.

(** The same for [indent=2]. *)
Fixpoint pieces_indent (level : nat) (v : pyval) : list string :=
  match v with
  | PList [] => ["[]"]
  | PList l =>
      (fix items (buf : string) (l : list pyval) : list string :=
         match l with
         | [] => [newline level; "]"]
         | x :: r =>
             match x with
             | PList _ | PDict _ =>
                 buf :: pieces_indent (S level) x
                     ++ items ("," +:+ newline (S level)) r
             | _ => (buf +:+ dumps x) :: items ("," +:+ newline (S level)) r
             end
         end) ("[" +:+ newline (S level)) l
  | PDict [] => ["{}"]
  | PDict d =>
      "{" :: newline (S level) ::
      (fix members (sep : list string) (d : list (string * pyval))
         : list string :=
         match d with
         | [] => [newline level; "}"]
         | (k, x) :: r =>
             sep ++ str_repr k :: ": " :: pieces_indent (S level) x
                 ++ members ["," +:+ newline (S level)] r
         end) [] d
  | _ => [dumps v]
  end.

(** The pieces of the elements of a list and of the members of a dict. *)
Definition pieces_items : string -> list pyval -> list string :=
  fix items (buf : string) (l : list pyval) : list string :=
    match l with
    | [] => ["]"]
    | x :: r =>
        match x with
        | PList _ | PDict _ => buf :: pieces x ++ items "," r
        | _ => (buf +:+ dumps x) :: items "," r
        end
    end.

Definition pieces_members
  : list string -> list (string * pyval) -> list string :=
  fix members (sep : list string) (d : list (string * pyval)) : list string :=
    match d with
    | [] => ["}"]
    | (k, x) :: r => sep ++ str_repr k :: ":" :: pieces x ++ members [","] r
    end.

Definition pieces_indent_items (level : nat)
  : string -> list pyval -> list string :=
  fix items (buf : string) (l : list pyval) : list string :=
    match l with
    | [] => [newline level; "]"]
    | x :: r =>
        match x with
        | PList _ | PDict _ =>
            buf :: pieces_indent (S level) x
                ++ items ("," +:+ newline (S level)) r
        | _ => (buf +:+ dumps x) :: items ("," +:+ newline (S level)) r
        end
    end.

Definition pieces_indent_members (level : nat)
  : list string -> list (string * pyval) -> list string :=
  fix members (sep : list string) (d : list (string * pyval)) : list string :=
    match d with
    | [] => [newline level; "}"]
    | (k, x) :: r =>
        sep ++ str_repr k :: ": " :: pieces_indent (S level) x
            ++ members ["," +:+ newline (S level)] r
    end.

(** No string of [v], key or value, holds a surrogate. *)
Fixpoint encodable_value (v : pyval) : bool :=
  match v with
  | PStr s => encodable s
  | PList l => (fix all (l : list pyval) : bool :=
                  match l with
                  | [] => true
                  | x :: r => encodable_value x && all r
                  end) l
  | PDict d => (fix all (d : list (string * pyval)) : bool :=
                  match d with
                  | [] => true
                  | (k, x) :: r => encodable k && encodable_value x && all r
                  end) d
  | _ => true
  end.


(** *** Decoding *)

Definition is_ws (c : ascii) : bool :=
  Ascii.eqb c " " || Ascii.eqb c "009" || Ascii.eqb c "010" || Ascii.eqb c "013".

Fixpoint skip_ws (s : string) : string :=
  match s with
  | String c r => if is_ws c then skip_ws r else s
  | EmptyString => s
  end.

Definition digit_of (c : ascii) : option (Decimal.uint -> Decimal.uint) :=
  match c with
  | "0" => Some Decimal.D0 | "1" => Some Decimal.D1 | "2" => Some Decimal.D2
  | "3" => Some Decimal.D3 | "4" => Some Decimal.D4 | "5" => Some Decimal.D5
  | "6" => Some Decimal.D6 | "7" => Some Decimal.D7 | "8" => Some Decimal.D8
  | "9" => Some Decimal.D9 | _ => None
  end%char.

(** The longest run of digits at the head of [s]. *)
Fixpoint take_digits (s : string) : Decimal.uint * string :=
  match s with
  | String c r =>
      match digit_of c with
      | Some d => let (u, rest) := take_digits r in (d u, rest)
      | None => (Decimal.Nil, s)
      end
  | EmptyString => (Decimal.Nil, s)
  end.

Definition signed (neg : bool) (n : N) : Z :=
  if neg then - Z.of_N n else Z.of_N n.

(** The integer part: [0] alone, or a run that starts with [1]-[9]. *)
Definition take_int (s : string) : option (Decimal.uint * string) :=
  match s with
  | String c r =>
      match digit_of c with
      | None => None
      | Some _ => if Ascii.eqb c "0" then Some (Decimal.D0 Decimal.Nil, r)
                  else Some (take_digits s)
      end
  | EmptyString => None
  end.

(** The fraction: a dot and at least one digit, or nothing. *)
Definition take_frac (s : string) : Decimal.uint * string :=
  match s with
  | String "." r =>
      match take_digits r with
      | (Decimal.Nil, _) => (Decimal.Nil, s)
      | (f, rest) => (f, rest)
      end
  | _ => (Decimal.Nil, s)
  end.

(** The exponent: [e] or [E], a sign, at least one digit, or nothing. *)
Definition take_exp (s : string) : option Z * string :=
  match s with
  | String c r =>
      if Ascii.eqb c "e" || Ascii.eqb c "E" then
        let '(neg, r1) := match r with
                          | String "-" r' => (true, r')
                          | String "+" r' => (false, r')
                          | _ => (false, r)
                          end in
        match take_digits r1 with
        | (Decimal.Nil, _) => (None, s)
        | (e, rest) => (Some (signed neg (N.of_uint e)), rest)
        end
      else (None, s)
  | EmptyString => (None, s)
  end.

(** A number after its sign: an [int] when it has neither fraction nor
    exponent, a [float] otherwise. *)
Definition number_body (neg : bool) (s1 : string) : option (pyval * string) :=
  match take_int s1 with
  | None => None
  | Some (ip, s2) =>
      let '(fr, s3) := take_frac s2 in
      let '(ex, s4) := take_exp s3 in
      match fr, ex with
      | Decimal.Nil, None => Some (PInt (signed neg (N.of_uint ip)), s4)
      | _, _ =>
          let e := match ex with Some e => e | None => 0 end in
          Some (PFloat (Dec (signed neg (N.of_uint (Decimal.app ip fr)))
                            (e - Z.of_nat (Decimal.nb_digits fr))), s4)
      end
  end.

Definition parse_number (s : string) : option (pyval * string) :=
  match s with
  | String "-" r => number_body true r
  | _ => number_body false s
  end.

Definition hex_val (c : ascii) : option N :=
  let n := N_of_ascii c in
  (if (48 <=? n) && (n <=? 57) then Some (n - 48)         (* 0-9 *)
   else if (97 <=? n) && (n <=? 102) then Some (n - 87)   (* a-f *)
   else if (65 <=? n) && (n <=? 70) then Some (n - 55)    (* A-F *)
   else None)%N.

Definition hex4 (a b c d : ascii) : option N :=
  match hex_val a, hex_val b, hex_val c, hex_val d with
  | Some x, Some y, Some z, Some w => Some (((x * 16 + y) * 16 + z) * 16 + w)%N
  | _, _, _, _ => None
  end.

(** The UTF-8 bytes of a code point. *)
Definition utf8 (cp : N) : string :=
  let b (n : N) := ascii_of_N n in
  (if cp <? 128 then String (b cp) EmptyString
   else if cp <? 2048 then
     String (b (192 + cp / 64)) (String (b (128 + cp mod 64)) EmptyString)
   else if cp <? 65536 then
     String (b (224 + cp / 4096))
       (String (b (128 + (cp / 64) mod 64))
          (String (b (128 + cp mod 64)) EmptyString))
   else
     String (b (240 + cp / 262144))
       (String (b (128 + (cp / 4096) mod 64))
          (String (b (128 + (cp / 64) mod 64))
             (String (b (128 + cp mod 64)) EmptyString))))%N.

Definition unescape (e : ascii) : option ascii :=
  if Ascii.eqb e quote then Some quote
  else if Ascii.eqb e backslash then Some backslash
  else match e with
       | "/" => Some "/" | "b" => Some "008" | "f" => Some "012"
       | "n" => Some "010" | "r" => Some "013" | "t" => Some "009"
       | _ => None
       end%char.

Definition push (p : string) (r : option (string * string))
  : option (string * string) :=
  match r with
  | Some (x, rest) => Some (p +:+ x, rest)
  | None => None
  end.

Definition is_high (cp : N) : bool := ((55296 <=? cp) && (cp <=? 56319))%N.
Definition is_low (cp : N) : bool := ((56320 <=? cp) && (cp <=? 57343))%N.

(** The second half of a surrogate pair at the head of [s], if any:
    [Some None] when [s] starts with a broken [\u] escape. *)
Definition low_half (s : string) : option (option (N * string)) :=
  match s with
  | String b (String u r) =>
      if Ascii.eqb b backslash && Ascii.eqb u "u" then
        match r with
        | String g1 (String g2 (String g3 (String g4 r3))) =>
            match hex4 g1 g2 g3 g4 with
            | Some lo => if is_low lo then Some (Some (lo, r3)) else None
            | None => Some None
            end
        | _ => Some None
        end
      else None
  | _ => None
  end.

(** What stands at the head of the body of a string literal: the closing
    quote, one more piece of the string (a character or an escape), or an
    error (strict mode: a raw control character is one). *)
Inductive chunk : Type :=
| Closed (rest : string)
| Piece (p rest : string)
| Broken.

Definition next_chunk (s : string) : chunk :=
  match s with
  | EmptyString => Broken
  | String c r =>
      if Ascii.eqb c quote then Closed r
      else if Ascii.eqb c backslash then
        match r with
        | EmptyString => Broken
        | String e r1 =>
            match unescape e with
            | Some x => Piece (String x EmptyString) r1
            | None =>
                if Ascii.eqb e "u" then
                  match r1 with
                  | String h1 (String h2 (String h3 (String h4 r2))) =>
                      match hex4 h1 h2 h3 h4 with
                      | None => Broken
                      | Some hi =>
                          if is_high hi then
                            match low_half r2 with
                            | Some (Some (lo, r3)) =>
                                Piece (utf8 (65536 + (hi - 55296) * 1024
                                             + (lo - 56320))%N) r3
                            | Some None => Broken
                            | None => Piece (utf8 hi) r2
                            end
                          else Piece (utf8 hi) r2
                      end
                  | _ => Broken
                  end
                else Broken
            end
        end
      else if (N_of_ascii c <? 32)%N then Broken
      else Piece (String c EmptyString) r
  end.

(** The body of a string literal up to its closing quote; every step
    takes at least one character, so the length of the text is fuel
    enough. *)
Fixpoint parse_chars (fuel : nat) (s : string) : option (string * string) :=
  match fuel with
  | O => None
  | S fuel =>
      match next_chunk s with
      | Closed rest => Some (EmptyString, rest)
      | Piece p rest => push p (parse_chars fuel rest)
      | Broken => None
      end
  end.

Fixpoint strip_prefix (p s : string) : option string :=
  match p with
  | EmptyString => Some s
  | String a p' =>
      match s with
      | String b s' => if Ascii.eqb a b then strip_prefix p' s' else None
      | EmptyString => None
      end
  end.

(** Does [s] start with the character [c]?  Then the rest of [s]. *)
Definition eat (c : ascii) (s : string) : option string :=
  match s with
  | String c' r => if Ascii.eqb c' c then Some r else None
  | EmptyString => None
  end.

(** [scan_once], [JSONArray] and [JSONObject]; [fuel] bounds the depth of
    the calls. *)
Fixpoint parse_value (fuel : nat) (s : string) : option (pyval * string) :=
  match fuel with
  | O => None
  | S fuel =>
      match s with
      | EmptyString => None
      | String c r =>
          if Ascii.eqb c quote then
            match parse_chars (String.length r) r with
            | Some (x, rest) => Some (PStr x, rest)
            | None => None
            end
          else if Ascii.eqb c "{" then
            match eat "}" (skip_ws r) with
            | Some rest => Some (PDict [], rest)
            | None => match parse_members fuel (skip_ws r) with
                      | Some (d, rest) => Some (PDict (py_dict d), rest)
                      | None => None
                      end
            end
          else if Ascii.eqb c "[" then
            match eat "]" (skip_ws r) with
            | Some rest => Some (PList [], rest)
            | None => match parse_elems fuel (skip_ws r) with
                      | Some (l, rest) => Some (PList l, rest)
                      | None => None
                      end
            end
          else
            match strip_prefix "null" s, strip_prefix "true" s,
                  strip_prefix "false" s with
            | Some rest, _, _ => Some (PNone, rest)
            | _, Some rest, _ => Some (PBool true, rest)
            | _, _, Some rest => Some (PBool false, rest)
            | _, _, _ => parse_number s
            end
      end
  end
with parse_elems (fuel : nat) (s : string) : option (list pyval * string) :=
  match fuel with
  | O => None
  | S fuel =>
      match parse_value fuel s with
      | None => None
      | Some (x, r) =>
          match eat "," (skip_ws r) with
          | Some r' =>
              match parse_elems fuel (skip_ws r') with
              | Some (l, rest) => Some (x :: l, rest)
              | None => None
              end
          | None =>
              match eat "]" (skip_ws r) with
              | Some rest => Some ([x], rest)
              | None => None
              end
          end
      end
  end
with parse_members (fuel : nat) (s : string)
  : option (list (string * pyval) * string) :=
  match fuel with
  | O => None
  | S fuel =>
      match eat quote s with
      | None => None
      | Some r0 =>
          match parse_chars (String.length r0) r0 with
          | None => None
          | Some (k, r) =>
              match eat ":" (skip_ws r) with
              | None => None
              | Some r1 =>
                  match parse_value fuel (skip_ws r1) with
                  | None => None
                  | Some (x, r2) =>
                      match eat "," (skip_ws r2) with
                      | Some r' =>
                          match parse_members fuel (skip_ws r') with
                          | Some (d, rest) => Some ((k, x) :: d, rest)
                          | None => None
                          end
                      | None =>
                          match eat "}" (skip_ws r2) with
                          | Some rest => Some ([(k, x)], rest)
                          | None => None
                          end
                      end
                  end
              end
          end
      end
  end.

(** [json.loads(s)]: one value between optional white space.  Two units
    of fuel per character cover every nesting the text can hold. *)
Definition loads (s : string) : option pyval :=
  match parse_value (2 * String.length s + 1) (skip_ws s) with
  | Some (v, rest) =>
      match skip_ws rest with
      | EmptyString => Some v
      | _ => None
      end
  | None => None
  end.

(** A bound on the fuel that reading [dumps v] back needs. *)
Fixpoint size (v : pyval) : nat :=
  match v with
  | PList l => S ((fix all (l : list pyval) : nat :=
                     match l with
                     | [] => O
                     | x :: r => S (size x + all r)
                     end) l)
  | PDict d => S ((fix all (d : list (string * pyval)) : nat :=
                     match d with
                     | [] => O
                     | kv :: r => S (size (snd kv) + all r)
                     end) d)
  | _ => 1%nat
  end.

Fixpoint size_items (l : list pyval) : nat :=
  match l with
  | [] => O
  | x :: r => S (size x + size_items r)
  end.

Fixpoint size_members (d : list (string * pyval)) : nat :=
  match d with
  | [] => O
  | kv :: r => S (size (snd kv) + size_members r)
  end.

(** What may follow a value inside the text [dumps] writes. *)
Definition closes (rest : string) : Prop :=
  match rest with
  | EmptyString => True
  | String c _ => c = ","%char \/ c = "]"%char \/ c = "}"%char
  end.

(** A well-formed text: with some fuel the decoder reads one value and
    nothing but white space is left. *)
Definition well_formed (s : string) : Prop :=
  exists f v rest, parse_value f (skip_ws s) = Some (v, rest) /\
                   skip_ws rest = EmptyString.

(** No digit at the head. *)
Definition no_digit (rest : string) : Prop :=
  match rest with
  | EmptyString => True
  | String c _ => digit_of c = None
  end.

(** Nothing that could extend a number: no digit, dot or exponent mark. *)
Definition number_end (rest : string) : Prop :=
  match rest with
  | EmptyString => True
  | String c _ => digit_of c = None /\ c <> "."%char /\
                  c <> "e"%char /\ c <> "E"%char
  end.

(** A character that can start a value: neither white space nor a
    closing bracket. *)
Definition opens (c : ascii) : Prop :=
  is_ws c = false /\ c <> "]"%char /\ c <> "}"%char.

End Json.

(** ** Files

    The part of the file system the program touches: a finite map from
    paths to nodes.  A path that is absent can be created by a write,
    unless its directory is missing. *)

Module Fs.

Inductive node : Type :=
| Regular (content : string)   (* a text file that can be read and written *)
| Undecodable                  (* a file whose bytes are not UTF-8 text *)
| Denied                       (* a file that open() refuses *)
| Directory
| Unreachable.                 (* a path in a directory that does not exist *)

(** [os.path.isfile(path)] *)
Definition isfile (fs : gmap string node) (path : string) : bool :=
  match fs !! path with
  | Some (Regular _) | Some Undecodable | Some Denied => true
  | Some Directory | Some Unreachable | None => false
  end.

(** [open(path, "r", encoding="utf-8")] and reading the whole file *)
Definition read_text (fs : gmap string node) (path : string) : result string :=
  match fs !! path with
  | Some (Regular s) => Ok s
  | Some Undecodable => Raise UnicodeDecodeError
  | Some Denied | Some Directory | Some Unreachable | None => Raise OSError
  end.

(** [open(path, "w", ...)] succeeds *)
Definition writable (fs : gmap string node) (path : string) : bool :=
  match fs !! path with
  | Some Denied | Some Directory | Some Unreachable => false
  | _ => true
  end.

(** What a run of [write] calls leaves in the file, and whether all of
    them went through: the first piece that cannot be encoded raises, and
    the pieces before it are written when the file is closed. *)
Fixpoint accepted (pieces : list string) : string * bool :=
  match pieces with
  | [] => (EmptyString, true)
  | p :: r =>
      if encodable p then let (w, ok) := accepted r in (p +:+ w, ok)
      else (EmptyString, false)
  end.

(** [with open(path, "w", encoding="utf-8") as f:] and one [f.write] for
    each piece: opening empties the file. *)
Definition write_pieces (fs : gmap string node) (path : string)
  (pieces : list string) : gmap string node * result unit :=
  if writable fs path then
    let (w, ok) := accepted pieces in
    (<[path := Regular w]> fs, if ok then Ok tt else Raise UnicodeEncodeError)
  else (fs, Raise OSError).

End Fs.

(** ** The macro engine *)

Module Macro.

(** A key as pynput reports it: a [KeyCode] with an optional character,
    or a member of the [Key] enumeration with its name. *)
Inductive rawkey : Type :=
| KeyCode (char : option string)
| Key (name : string).

Definition rawkey_eqb (a b : rawkey) : bool :=
  match a, b with
  | KeyCode None, KeyCode None => true
  | KeyCode (Some x), KeyCode (Some y) => String.eqb x y
  | Key x, Key y => String.eqb x y
  | _, _ => false
  end.

Record t : Type := Mk {
  events : pyval;
  recording : bool;
  paused : bool;
  _last_ts : option dec;
  _stop_flag : bool;
  _control_keys : list rawkey
}.

(** [Macro()] *)
Definition __init__ : t :=
  Mk (PList []) false false None false [].

Definition set_events (ev : pyval) (m : t) : t :=
  Mk ev (recording m) (paused m) (_last_ts m) (_stop_flag m) (_control_keys m).

Definition set_last_ts (ts : option dec) (m : t) : t :=
  Mk (events m) (recording m) (paused m) ts (_stop_flag m) (_control_keys m).

Definition set_stop_flag (b : bool) (m : t) : t :=
  Mk (events m) (recording m) (paused m) (_last_ts m) b (_control_keys m).

(** [now] is the value [time.time()] returns inside the call. *)
Definition start_recording (now : dec) (m : t) : t :=
  if recording m then m
  else Mk (PList []) true false (Some now) false (_control_keys m).

Definition stop_recording (m : t) : t :=
  if negb (recording m) then m
  else Mk (events m) false (paused m) (_last_ts m) (_stop_flag m)
          (_control_keys m).

Definition pause_toggle (now : dec) (m : t) : t :=
  if recording m
  then Mk (events m) (recording m) (negb (paused m)) (Some now)
          (_stop_flag m) (_control_keys m)
  else m.

(** [dt = now - self._last_ts if self._last_ts else 0]: the fallback is the
    integer [0]; the timestamp is overwritten in every case. *)
Definition _dt (now : dec) (m : t) : pyval * t :=
  let dt := match _last_ts m with
            | Some l => if dec_truthy l then PFloat (dec_sub now l) else PInt 0
            | None => PInt 0
            end in
  (dt, set_last_ts (Some now) m).

(** [self.events.append(item)] needs a list. *)
Definition _rec (item : pyval) (m : t) : result t :=
  if negb (recording m) || paused m then Ok m
  else match events m with
       | PList l => Ok (set_events (PList (l ++ [item])) m)
       | _ => Raise AttributeError
       end.

Definition _on_move (now : dec) (x y : Z) (m : t) : result t :=
  let '(dt, m) := _dt now m in
  _rec (PDict [("t", dt); ("type", PStr "move");
               ("x", PInt x); ("y", PInt y)]%string) m.

Definition _on_click (now : dec) (x y : Z) (button : string) (pressed : bool)
  (m : t) : result t :=
  let '(dt, m) := _dt now m in
  _rec (PDict [("t", dt); ("type", PStr "click");
               ("x", PInt x); ("y", PInt y);
               ("button", PStr button); ("pressed", PBool pressed)]%string) m.

Definition _on_scroll (now : dec) (x y dx dy : Z) (m : t) : result t :=
  let '(dt, m) := _dt now m in
  _rec (PDict [("t", dt); ("type", PStr "scroll");
               ("x", PInt x); ("y", PInt y);
               ("dx", PInt dx); ("dy", PInt dy)]%string) m.

(** [key.char] exists on a [KeyCode] only (and may be [None]); a [Key]
    falls back to its name. *)
Definition key_fields (key : rawkey) : pyval * pyval :=
  match key with
  | KeyCode (Some c) => (PStr "char", PStr c)
  | KeyCode None => (PStr "char", PNone)
  | Key n => (PStr "special", PStr n)
  end.

Definition in_control_keys (key : rawkey) (m : t) : bool :=
  existsb (rawkey_eqb key) (_control_keys m).

Definition on_key (action : string) (now : dec) (key : rawkey) (m : t)
  : result t :=
  if in_control_keys key m then Ok m
  else
    let '(kind, k) := key_fields key in
    let '(dt, m) := _dt now m in
    _rec (PDict [("t", dt); ("type", PStr "key"); ("action", PStr action);
                 ("kind", kind); ("key", k)]%string) m.

Definition _on_press := on_key "press".
Definition _on_release := on_key "release".

(** The calls that reach a [Macro] while it records, each with the clock
    value it reads (if it reads one). *)
Inductive call : Type :=
| CStart (now : dec)
| CStop
| CPauseToggle (now : dec)
| CMove (now : dec) (x y : Z)
| CClick (now : dec) (x y : Z) (button : string) (pressed : bool)
| CScroll (now : dec) (x y dx dy : Z)
| CPress (now : dec) (key : rawkey)
| CRelease (now : dec) (key : rawkey).

Definition step (c : call) (m : t) : result t :=
  match c with
  | CStart now => Ok (start_recording now m)
  | CStop => Ok (stop_recording m)
  | CPauseToggle now => Ok (pause_toggle now m)
  | CMove now x y => _on_move now x y m
  | CClick now x y b p => _on_click now x y b p m
  | CScroll now x y dx dy => _on_scroll now x y dx dy m
  | CPress now k => _on_press now k m
  | CRelease now k => _on_release now k m
  end.

Fixpoint run (cs : list call) (m : t) : result t :=
  match cs with
  | [] => Ok m
  | c :: r => m' <- step c m ;; run r m'
  end.

(** The clock value a call reads ([stop_recording] reads none). *)
Definition clock_of (c : call) : option dec :=
  match c with
  | CStart now | CPauseToggle now | CMove now _ _ | CClick now _ _ _ _
  | CScroll now _ _ _ _ | CPress now _ | CRelease now _ => Some now
  | CStop => None
  end.

(** Successive readings of the clock never decrease. *)
Fixpoint clock_from (lo : Q) (cs : list call) : Prop :=
  match cs with
  | [] => True
  | c :: r =>
      match clock_of c with
      | Some now => (lo <= dec_to_Q now)%Q /\ clock_from (dec_to_Q now) r
      | None => clock_from lo r
      end
  end.

(** The notifications, as opposed to the control calls. *)
Definition is_notification (c : call) : bool :=
  match c with
  | CStart _ | CStop | CPauseToggle _ => false
  | _ => true
  end.

(** A key notification for a control key returns before reading the clock. *)
Definition filtered (c : call) (m : t) : bool :=
  match c with
  | CPress _ k | CRelease _ k => in_control_keys k m
  | _ => false
  end.

(** The delay stored in a recorded event, as a rational. *)
Definition delay_of (item : pyval) : option Q :=
  match item with
  | PDict d => match assoc_get "t" d with
               | Some (PFloat x) => Some (dec_to_Q x)
               | Some (PInt z) => Some (inject_Z z)
               | _ => None
               end
  | _ => None
  end.

(** The timestamp lies between the toggle at [r] and the latest reading
    [lo] of the clock (the invariant behind the bound on delays). *)
Definition ts_between (r : dec) (lo : Q) (m : t) : Prop :=
  exists l, _last_ts m = Some l /\
            (dec_to_Q r <= dec_to_Q l)%Q /\ (dec_to_Q l <= lo)%Q.

(** *** Persistence *)

(** [json.dump(self.events, f, ensure_ascii=False, separators=(",", ":"))] *)
Definition save (path : string) (fs : gmap string Fs.node) (m : t)
  : gmap string Fs.node * result unit :=
  Fs.write_pieces fs path (Json.pieces (events m)).

(** [self.events = json.load(f)]: the assignment happens once [json.load]
    has returned; the macro after the call comes with the outcome. *)
Definition load (path : string) (fs : gmap string Fs.node) (m : t)
  : t * result unit :=
  match Fs.read_text fs path with
  | Raise e => (m, Raise e)
  | Ok text =>
      match Json.loads text with
      | None => (m, Raise JSONDecodeError)
      | Some v => (set_events v m, Ok tt)
      end
  end.

(** *** Playback *)

Definition abort_playback (m : t) : t := set_stop_flag true m.

(** [ev.get("type") in ("move", "click", "scroll")] *)
Definition is_positional (typ : option pyval) : bool :=
  py_is_str typ "move" || py_is_str typ "click" || py_is_str typ "scroll".

Section Playback.
Context (H : host).

Definition int_field (ev : pyval) (k : string) : result Z :=
  v <- py_index ev k ;; py_int H v.

Definition int_field_default (ev : pyval) (k : string) : result Z :=
  v <- py_get_default ev k (PInt 0) ;; py_int H v.

Fixpoint first_xy_in (evs : list pyval) : result (option (Z * Z)) :=
  match evs with
  | [] => Ok None
  | ev :: r =>
      typ <- py_get ev "type" ;;
      if is_positional typ then
        x <- int_field_default ev "x" ;;
        y <- int_field_default ev "y" ;;
        Ok (Some (x, y))
      else first_xy_in r
  end.

Definition _first_xy (m : t) : result (option (Z * Z)) :=
  evs <- py_iter (events m) ;; first_xy_in evs.

(** [max(0.001, s)]: the second argument wins only when it is greater. *)
Definition clamp_speed (s : dec) : dec :=
  if Qle_bool (dec_to_Q s) (1 # 1000) then Dec 1 (-3) else s.

(** [float(ev.get("t", 0)) / max(0.001, float(speed))] *)
Definition scaled_delay (speed ev : pyval) : result Q :=
  vt <- py_get_default ev "t" (PInt 0) ;;
  t <- py_float H vt ;;
  s <- py_float H speed ;;
  Ok (dec_to_Q t / dec_to_Q (clamp_speed s))%Q.

(** [getattr(mouse.Button, ev.get("button", "left"))] *)
Definition button_of (ev : pyval) : result string :=
  v <- py_get_default ev "button" (PStr "left") ;;
  match v with
  | PStr b => if button_member H b then Ok b else Raise AttributeError
  | _ => Raise TypeError
  end.

Definition set_position (ev : pyval) : out unit :=
  x <~ lift (int_field ev "x") ;;
  y <~ lift (int_field ev "y") ;;
  emit H (SetPosition x y).

(** The key to act on; [None] stands for [continue]. *)
Definition key_of (suppress : list string) (ev : pyval)
  : result (option keyobj) :=
  k <- py_get ev "key" ;;
  kind <- py_get ev "kind" ;;
  if py_is_str kind "char"
  then Ok (Some (KChar (match k with Some v => v | None => PNone end)))
  else match k with
       | Some (PStr name) =>
           if key_member H name && negb (existsb (String.eqb name) suppress)
           then Ok (Some (KSpecial name))
           else Ok None
       | _ => Raise TypeError
       end.

(** The body of the inner loop for one event. *)
Definition apply_event (speed : pyval) (suppress : list string) (ev : pyval)
  : out unit :=
  t <~ lift (scaled_delay speed ev) ;;
  _ <~ (if Qle_bool t 0 then lift (Ok tt) else ([Sleep t], Ok tt)) ;;
  typ <~ lift (py_get ev "type") ;;
  if py_is_str typ "move" then set_position ev
  else if py_is_str typ "click" then
    btn <~ lift (button_of ev) ;;
    _ <~ set_position ev ;;
    pressed <~ lift (py_get_default ev "pressed" (PBool true)) ;;
    if py_truthy pressed then emit H (MousePress btn)
    else emit H (MouseRelease btn)
  else if py_is_str typ "scroll" then
    _ <~ set_position ev ;;
    dx <~ lift (int_field_default ev "dx") ;;
    dy <~ lift (int_field_default ev "dy") ;;
    emit H (MouseScroll dx dy)
  else if py_is_str typ "key" then
    key <~ lift (key_of suppress ev) ;;
    match key with
    | None => lift (Ok tt)
    | Some keyobj =>
        action <~ lift (py_get ev "action") ;;
        if py_is_str action "press" then emit H (KeyPress keyobj)
        else emit H (KeyRelease keyobj)
    end
  else lift (Ok tt).

(** Other threads may call [abort_playback] at any time; [abort k] tells
    whether one did between the previous test of the flag and the test
    number [k] of this playback. *)
Context (abort : nat -> bool).

Definition interleave (k : nat) (m : t) : t :=
  if abort k then abort_playback m else m.

(** [for ev in self.events], from the test number [k] on *)
Fixpoint play_events (speed : pyval) (suppress : list string)
  (evs : list pyval) (k : nat) (m : t) : t * nat * out unit :=
  match evs with
  | [] => (m, k, ([], Ok tt))
  | ev :: r =>
      let m := interleave k m in
      if _stop_flag m then (m, S k, ([], Ok tt))
      else
        match apply_event speed suppress ev with
        | (tr, Raise e) => (m, S k, (tr, Raise e))
        | (tr, Ok _) =>
            let '(m', k', (tr', res)) := play_events speed suppress r (S k) m in
            (m', k', (tr ++ tr', res))
        end
  end.

(** [for _ in range(n)] *)
Fixpoint play_loops (speed : pyval) (suppress : list string)
  (n : nat) (k : nat) (m : t) : t * nat * out unit :=
  match n with
  | O => (m, k, ([], Ok tt))
  | S n' =>
      let m := interleave k m in
      if _stop_flag m then (m, S k, ([], Ok tt))
      else
        match py_iter (events m) with
        | Raise e => (m, S k, ([], Raise e))
        | Ok evs =>
            match play_events speed suppress evs (S k) m with
            | (m', k', (tr, Raise e)) => (m', k', (tr, Raise e))
            | (m', k', (tr, Ok _)) =>
                let '(m'', k'', (tr', res)) :=
                  play_loops speed suppress n' k' m' in
                (m'', k'', (tr ++ tr', res))
            end
        end
  end.

(** [play(speed, loops, suppress_hotkeys)]: the macro after the call, the
    calls made and the outcome. *)
Definition play (speed loops : pyval) (suppress : list string) (m : t)
  : t * out unit :=
  if negb (py_truthy (events m)) then (m, ([], Ok tt))
  else
    let m := set_stop_flag false m in
    match _first_xy m with
    | Raise e => (m, ([], Raise e))
    | Ok first =>
        match (match first with
               | Some (x, y) => emit H (SetPosition x y)
               | None => lift (Ok tt)
               end) with
        | (tr0, Raise e) => (m, (tr0, Raise e))
        | (tr0, Ok _) =>
            match py_int H loops with
            | Raise e => (m, (tr0, Raise e))
            | Ok n =>
                let '(m', _, (tr, res)) :=
                  play_loops speed suppress (Z.to_nat (Z.max 1 n)) 0 m in
                (m', (tr0 ++ tr, res))
            end
        end
    end.

(** One uninterrupted pass over the events: what a replay is.  *)
Fixpoint one_pass (speed : pyval) (suppress : list string)
  (evs : list pyval) : out unit :=
  match evs with
  | [] => ([], Ok tt)
  | ev :: r => _ <~ apply_event speed suppress ev ;; one_pass speed suppress r
  end.

End Playback.

(** The pointer move that opens a playback. *)
Definition first_move (first : option (Z * Z)) : list action :=
  match first with
  | Some (x, y) => [SetPosition x y]
  | None => []
  end.

Definition is_set_position (a : action) : bool :=
  match a with
  | SetPosition _ _ => true
  | _ => false
  end.

(** A dict whose type is none of move, click and scroll. *)
Definition non_positional (ev : pyval) : bool :=
  match ev with
  | PDict d => negb (is_positional (assoc_get "type" d))
  | _ => false
  end.

(** A dict whose type is one of move, click and scroll. *)
Definition positional (ev : pyval) : bool :=
  match ev with
  | PDict d => is_positional (assoc_get "type" d)
  | _ => false
  end.

(** What a playback reads of the macro: its events and its flag. *)
Definition same_play (m1 m2 : t) : Prop :=
  events m1 = events m2 /\ _stop_flag m1 = _stop_flag m2.

(** A trace without a call that moves the pointer. *)
Definition quiet_pointer (tr : list action) : Prop :=
  Forall (fun a => is_set_position a = false) tr.

(** No other thread calls [abort_playback] during the playback. *)
Definition quiet (abort : nat -> bool) : Prop := forall k, abort k = false.

(** [n] copies of a trace, one after the other. *)
Fixpoint repeat_trace (n : nat) (tr : list action) : list action :=
  match n with
  | O => []
  | S n' => tr ++ repeat_trace n' tr
  end.

(** What replaying one recorded notification asks of the controllers. *)
Definition replayed_key (H : host) (suppress : list string) (key : rawkey)
  : option keyobj :=
  match key with
  | KeyCode (Some c) => Some (KChar (PStr c))
  | KeyCode None => Some (KChar PNone)
  | Key n => if key_member H n && negb (existsb (String.eqb n) suppress)
             then Some (KSpecial n) else None
  end.

Definition replayed (H : host) (suppress : list string) (c : call)
  : list action :=
  match c with
  | CMove _ x y => [SetPosition x y]
  | CClick _ x y b p =>
      [SetPosition x y; if p then MousePress b else MouseRelease b]
  | CScroll _ x y dx dy => [SetPosition x y; MouseScroll dx dy]
  | CPress _ key => match replayed_key H suppress key with
                    | Some k => [KeyPress k]
                    | None => []
                    end
  | CRelease _ key => match replayed_key H suppress key with
                      | Some k => [KeyRelease k]
                      | None => []
                      end
  | CStart _ | CStop | CPauseToggle _ => []
  end.

(** A click names a member of [mouse.Button]. *)
Definition known_button (H : host) (c : call) : bool :=
  match c with
  | CClick _ _ _ b _ => button_member H b
  | _ => true
  end.

Definition is_sleep (a : action) : bool :=
  match a with
  | Sleep _ => true
  | _ => false
  end.

(** The calls of a trace that reach a controller. *)
Definition inputs (tr : list action) : list action :=
  List.filter (fun a => negb (is_sleep a)) tr.

(** The pointer position a notification carries, if it carries one. *)
Definition pos_of (c : call) : option (Z * Z) :=
  match c with
  | CMove _ x y | CClick _ x y _ _ | CScroll _ x y _ _ => Some (x, y)
  | _ => None
  end.

(** The position of the first notification that carries one. *)
Fixpoint first_pos (cs : list call) : option (Z * Z) :=
  match cs with
  | [] => None
  | c :: r => match pos_of c with
              | Some p => Some p
              | None => first_pos r
              end
  end.

(** The pause before a replayed event: the time between two
    notifications over the speed, slept when it is positive. *)
Definition pause (s now last : dec) : list action :=
  let q := (dec_to_Q (dec_sub now last) / dec_to_Q (clamp_speed s))%Q in
  if Qle_bool q 0 then [] else [Sleep q].

(** A press or a release of the member [n] of [keyboard.Key]. *)
Definition hits_key (n : string) (a : action) : bool :=
  match a with
  | KeyPress (KSpecial k) | KeyRelease (KSpecial k) => String.eqb k n
  | _ => false
  end.

(** A recorded key event of the member [n] of [keyboard.Key]. *)
Definition names_special (n : string) (item : pyval) : bool :=
  match item with
  | PDict d => py_is_str (assoc_get "type" d) "key" &&
               py_is_str (assoc_get "kind" d) "special" &&
               py_is_str (assoc_get "key" d) n
  | _ => false
  end.

End Macro.

(** ** The scheduler *)

Module Scheduler.

Record t : Type := Mk {
  _events : pyval;
  _persist_path : string
}.

Definition set_events (v : pyval) (s : t) : t := Mk v (_persist_path s).

(** [try: body / except Exception: handler] *)
Definition try_except {A} (body : result A) (handler : exn -> result A)
  : result A :=
  match body with
  | Ok a => Ok a
  | Raise e => handler e
  end.

(** The body of the [try] of [save]: the file opened for writing and the
    whole table written with [indent=2]. *)
Definition write_table (s : t) (fs : gmap string Fs.node)
  : gmap string Fs.node * result unit :=
  Fs.write_pieces fs (_persist_path s) (Json.pieces_indent 0 (_events s)).

(** [save]: every failure is passed over. *)
Definition save (s : t) (fs : gmap string Fs.node)
  : result (gmap string Fs.node) :=
  let (fs', r) := write_table s fs in
  try_except (_ <- r ;; Ok fs') (fun _ => Ok fs').

(** [load]: the table read from the file, or the empty table on any
    failure. *)
Definition load (s : t) (fs : gmap string Fs.node) : result t :=
  try_except
    (text <- Fs.read_text fs (_persist_path s) ;;
     match Json.loads text with
     | Some v => Ok (set_events v s)
     | None => Raise JSONDecodeError
     end)
    (fun _ => Ok (set_events (PDict []) s)).

(** [Scheduler(macro_ref, persist_path)]: the empty table, then [load];
    the reference to the macro is stored and never used. *)
Definition __init__ (persist_path : string) (fs : gmap string Fs.node) : result t :=
  load (Mk (PDict []) persist_path) fs.

(** [add]: [uid] is the argument, [fresh] what [uuid.uuid4()] would give. *)
Definition add (H : host) (title : pyval) (when_dt : datetime)
  (macro_path speed loops : pyval) (uid : option string) (fresh : string)
  (s : t) (fs : gmap string Fs.node)
  : result (t * gmap string Fs.node * string) :=
  let uid := match uid with Some u => u | None => fresh end in
  sp <- py_float H speed ;;
  lp <- py_int H loops ;;
  let entry := PDict [("id", PStr uid); ("title", title);
                      ("when", PStr (isoformat when_dt));
                      ("macro", macro_path);
                      ("speed", PFloat sp); ("loops", PInt lp)]%string in
  match _events s with
  | PDict d =>
      let s' := set_events (PDict (dict_set uid entry d)) s in
      fs' <- save s' fs ;;
      Ok (s', fs', uid)
  | _ => Raise TypeError
  end.

(** [e["when"]] as the sort key: a string. *)
Definition when_key (e : pyval) : result string :=
  w <- py_index e "when" ;;
  match w with
  | PStr s => Ok s
  | _ => Raise TypeError
  end.

Fixpoint keyed (vals : list pyval) : result (list (string * pyval)) :=
  match vals with
  | [] => Ok []
  | e :: r => k <- when_key e ;; kr <- keyed r ;; Ok ((k, e) :: kr)
  end.

(** Insertion in front of the first element whose key is not smaller:
    with [sort_keyed] the stable sort of [list.sort(key=...)]. *)
Fixpoint insert_keyed (x : string * pyval) (l : list (string * pyval))
  : list (string * pyval) :=
  match l with
  | [] => [x]
  | y :: r => if String.leb (fst x) (fst y) then x :: y :: r
              else y :: insert_keyed x r
  end.

Fixpoint sort_keyed (l : list (string * pyval)) : list (string * pyval) :=
  match l with
  | [] => []
  | x :: r => insert_keyed x (sort_keyed r)
  end.

(** [list_all]: the values of the table, sorted by their ["when"].  Keys
    that are not strings are outside the model (Python would still order
    keys that are all numbers). *)
Definition list_all (s : t) : result (list pyval) :=
  match _events s with
  | PDict d =>
      kv <- keyed (map snd d) ;;
      Ok (map snd (sort_keyed kv))
  | _ => Raise AttributeError
  end.

(** [datetime.fromisoformat(e["when"])] *)
Definition when_of (H : host) (e : pyval) : result datetime :=
  w <- py_index e "when" ;;
  match w with
  | PStr s => match fromisoformat H s with
              | Some d => Ok d
              | None => Raise ValueError
              end
  | _ => Raise TypeError
  end.

(** [when = datetime.fromisoformat(e["when"])] and the test [when <= now] *)
Definition is_due (H : host) (now : datetime) (e : pyval) : result bool :=
  when <- when_of H e ;; dt_le when now.

(** The scan of [_loop] over [list(self._events.items())]: the due
    triggers in the order met, each deleted from the table; the table on
    the left is the one reached when the scan ends or raises. *)
Fixpoint scan (H : host) (now : datetime) (items : list (string * pyval))
  (tbl : list (string * pyval))
  : list (string * pyval) * result (list pyval) :=
  match items with
  | [] => (tbl, Ok [])
  | (k, e) :: r =>
      match is_due H now e with
      | Raise x => (tbl, Raise x)
      | Ok true =>
          match scan H now r (dict_del k tbl) with
          | (tbl', Ok due) => (tbl', Ok (e :: due))
          | (tbl', Raise x) => (tbl', Raise x)
          end
      | Ok false => scan H now r tbl
      end
  end.

(** The keys handed to [play] as [suppress_hotkeys]. *)
Definition control_keys : list string := ["f8"; "f7"; "f9"; "f10"]%string.

(** [_run_event]: a new macro, loaded from the file if it is there, and
    played; nothing at all when the file is not there.  A path that is
    an integer, which [os.path.isfile] takes for a file descriptor, is
    outside the model. *)
Definition _run_event (H : host) (fs : gmap string Fs.node) (e : pyval)
  : out unit :=
  p <~ lift (py_index e "macro") ;;
  match p with
  | PStr path =>
      if Fs.isfile fs path then
        match Macro.load path fs Macro.__init__ with
        | (_, Raise x) => ([], Raise x)
        | (m, Ok _) =>
            speed <~ lift (py_get_default e "speed" (PFloat (Dec 1 0))) ;;
            loops <~ lift (py_get_default e "loops" (PInt 1)) ;;
            snd (Macro.play H (fun _ => false) speed loops control_keys m)
        end
      else ([], Ok tt)
  | _ => ([], Raise TypeError)
  end.

(** [try: self._run_event(e) / except Exception: pass] *)
Definition guarded {A} (m : out A) : out unit := (fst m, Ok tt).

(** [for e in due: ...] *)
Fixpoint fire_all (H : host) (fs : gmap string Fs.node) (due : list pyval)
  : out unit :=
  match due with
  | [] => ([], Ok tt)
  | e :: r => _ <~ guarded (_run_event H fs e) ;; fire_all H fs r
  end.

(** One turn of the loop of [_loop], [now] being what [self._now()]
    returns: the sleep, the scan, the save when something is due, the
    firing. *)
Definition cycle (H : host) (now : datetime) (s : t)
  (fs : gmap string Fs.node) : t * gmap string Fs.node * out unit :=
  match _events s with
  | PDict d =>
      match scan H now d d with
      | (tbl, Raise x) =>
          (set_events (PDict tbl) s, fs, ([Sleep (1 # 2)], Raise x))
      | (tbl, Ok due) =>
          let s' := set_events (PDict tbl) s in
          let fs' := match due with
                     | [] => fs
                     | _ => match save s' fs with
                            | Ok fs' => fs'
                            | Raise _ => fs
                            end
                     end in
          (s', fs', (_ <~ ([Sleep (1 # 2)], Ok tt) ;; fire_all H fs' due))
      end
  | _ => (s, fs, ([Sleep (1 # 2)], Raise AttributeError))
  end.

(** The loop over the successive values of the clock: it ends with the
    first turn that raises. *)
Fixpoint _loop (H : host) (ticks : list datetime) (s : t)
  (fs : gmap string Fs.node) : t * gmap string Fs.node * out unit :=
  match ticks with
  | [] => (s, fs, ([], Ok tt))
  | now :: r =>
      match cycle H now s fs with
      | (s', fs', (tr, Raise x)) => (s', fs', (tr, Raise x))
      | (s', fs', (tr, Ok _)) =>
          let '(s'', fs'', (tr', res)) := _loop H r s' fs' in
          (s'', fs'', (tr ++ tr', res))
      end
  end.

(** [uid in self._events]: a key of a dict, an element of a list, a piece
    of a string; other values have no [in]. *)
Definition contains (v : pyval) (uid : string) : result bool :=
  match v with
  | PDict d => Ok (match assoc_get uid d with Some _ => true | None => false end)
  | PList l => Ok (existsb (fun x => py_is_str (Some x) uid) l)
  | PStr s => Ok (is_infix uid s)
  | PNone | PBool _ | PInt _ | PFloat _ => Raise TypeError
  end.

(** [remove]: the trigger is deleted and the table saved when the id is
    there; [del] with a string index works on a dict only. *)
Definition remove (uid : string) (s : t) (fs : gmap string Fs.node)
  : result (t * gmap string Fs.node) :=
  present <- contains (_events s) uid ;;
  if present then
    match _events s with
    | PDict d =>
        let s' := set_events (PDict (dict_del uid d)) s in
        fs' <- save s' fs ;;
        Ok (s', fs')
    | _ => Raise TypeError
    end
  else Ok (s, fs).

(** The order of the sort: by key. *)
Definition key_le (a b : string * pyval) : Prop :=
  String.leb (fst a) (fst b) = true.

(** The text a trigger holds under ["when"], read off the trigger. *)
Definition when_text (e : pyval) (k : string) : Prop :=
  exists d, e = PDict d /\ assoc_get "when" d = Some (PStr k).

(** A trigger whose ["when"] is the text of a valid date. *)
Definition when_is (e : pyval) (d : datetime) : Prop :=
  when_text e (isoformat d) /\ dt_valid d.

(** The time at which a trigger fires: the date [fromisoformat] reads
    from its ["when"]. *)
Definition fires_at (H : host) (e : pyval) (t : datetime) : Prop :=
  exists k, when_text e k /\ fromisoformat H k = Some t.

(** A trigger the scan of [_loop] cannot handle, with the error it meets:
    no ["when"], a ["when"] that [fromisoformat] rejects, or one it reads
    as a date with an offset, which is not comparable with the naive date
    of the clock. *)
Definition unreadable (H : host) (e : pyval) (x : exn) : Prop :=
  (exists d, e = PDict d /\ assoc_get "when" d = None /\ x = KeyError) \/
  (exists k, when_text e k /\ fromisoformat H k = None /\ x = ValueError) \/
  (exists w off, fires_at H e w /\ utcoffset w = Some off /\ x = TypeError).

(** Ascending fire times: the first is at or before the second. *)
Definition chronological (H : host) (a b : pyval) : Prop :=
  forall ta tb, fires_at H a ta -> fires_at H b tb -> dt_le ta tb = Ok true.

(** Ascending ["when"] texts. *)
Definition when_le (a b : pyval) : Prop :=
  forall ka kb, when_text a ka -> when_text b kb -> String.leb ka kb = true.

End Scheduler.

(** ** The window: the actions on the macro

    The class [App] without its widgets: the macro, the values the
    controls for speed and loops hold, and the status line.  A dialog box
    or a thread the window starts is an entry of a trace; the path a file
    dialog returns is an argument, empty when the dialog was cancelled. *)

Module App.

Inductive ui : Type :=
| ShowInfo (title message : string)   (* messagebox.showinfo *)
| ShowError (title : string) (e : exn) (* messagebox.showerror(title, str(e)) *)
| StartPlayThread.                    (* Thread(target=self._play_thread).start() *)

(** [self._sched_state] without its cells, which hold widgets. *)
Record sched_state : Type := SchedState {
  cur_year : Z;
  cur_month : Z;
  selected_date : option (Z * Z * Z)
}.

Record t : Type := Mk {
  macro : Macro.t;
  speed : pyval;     (* what [self.speed.get()] returns *)
  loops : pyval;     (* what [self.loops.get()] returns *)
  status : string;
  _sched_state : sched_state;
  scheduler : Scheduler.t
}.

Definition set_macro (m : Macro.t) (a : t) : t :=
  Mk m (speed a) (loops a) (status a) (_sched_state a) (scheduler a).

Definition set_status (s : string) (a : t) : t :=
  Mk (macro a) (speed a) (loops a) s (_sched_state a) (scheduler a).

Definition set_month (y m : Z) (a : t) : t :=
  Mk (macro a) (speed a) (loops a) (status a)
     (SchedState y m (selected_date (_sched_state a))) (scheduler a).

(** The keys of the global hot keys, as [keyboard.Key] members. *)
Definition hotkeys : list string := ["f8"; "f7"; "f9"; "f10"]%string.

(** The names the body of the class binds with [def]. *)
Definition methods : list string :=
  ["__init__"; "_build_macro_ui"; "_build_sched_ui"; "_bind_click_recursive";
   "_render_calendar"; "_select_date"; "_highlight_selected";
   "_count_events_for_date"; "_prev_month"; "_next_month"; "_quick_add";
   "_add_event_dialog"; "_refresh_events_list"; "_hk_record_stop";
   "on_record"; "on_pause"; "on_stop"; "on_play"; "_play_thread"; "on_abort";
   "on_save"; "on_load"]%string.

(** [self.name] where [name] is no attribute the instance was given: the
    method of the class, if the class has one. *)
Definition bound_method (name : string) : result unit :=
  if existsb (String.eqb name) methods then Ok tt else Raise AttributeError.

(** [_build_macro_ui]: the buttons take their commands from the window. *)
Definition _build_macro_ui : result unit :=
  _ <- bound_method "on_record" ;;
  _ <- bound_method "on_pause" ;;
  _ <- bound_method "on_stop" ;;
  _ <- bound_method "on_play" ;;
  _ <- bound_method "on_abort" ;;
  _ <- bound_method "on_save" ;;
  bound_method "on_load".

(** [_build_sched_ui]: the buttons, then the calendar and the list are
    drawn; [draw] stands for
    [self._render_calendar(); self._refresh_events_list()]. *)
Definition _build_sched_ui (draw : t -> t * result unit) (a : t) : result t :=
  _ <- bound_method "_prev_month" ;;
  _ <- bound_method "_next_month" ;;
  _ <- bound_method "_add_event_dialog" ;;
  _ <- bound_method "_remove_selected_event" ;;
  match draw a with
  | (a', Ok _) => Ok a'
  | (_, Raise e) => Raise e
  end.

(** [App(root)]: [now] is what [datetime.now()] returns, [path] the file
    of the schedule in the home directory.  The macro is new, its control
    keys are the hot keys; speed 1.0, one loop, status Ready. *)
Definition __init__ (draw : t -> t * result unit) (now : datetime)
  (path : string) (fs : gmap string Fs.node) : result t :=
  _ <- bound_method "_hk_record_stop" ;;
  _ <- bound_method "on_pause" ;;
  _ <- bound_method "on_play" ;;
  _ <- bound_method "on_abort" ;;
  let m := Macro.Mk (PList []) false false None false (map Macro.Key hotkeys) in
  _ <- _build_macro_ui ;;
  let st := SchedState (year now) (month now) None in
  sch <- Scheduler.__init__ path fs ;;
  _build_sched_ui draw (Mk m (PFloat (Dec 1 0)) (PInt 1) "Ready" st sch).

(** The number of characters of a string held as UTF-8 bytes: the bytes
    that do not continue a character. *)
Fixpoint code_points (s : string) : nat :=
  match s with
  | EmptyString => O
  | String c r =>
      if ((128 <=? N_of_ascii c) && (N_of_ascii c <? 192))%N
      then code_points r else S (code_points r)
  end.

(** [len(v)] *)
Definition py_len (v : pyval) : result nat :=
  match v with
  | PList l => Ok (length l)
  | PDict d => Ok (length d)
  | PStr s => Ok (code_points s)
  | PNone | PBool _ | PInt _ | PFloat _ => Raise TypeError
  end.

(** [f"{word} {n} events"] *)
Definition counted (word : string) (n : nat) : string :=
  word +:+ " " +:+ Json.digits (N.of_nat n) +:+ " events".

Definition on_record (now : dec) (a : t) : t :=
  let a := set_status "Recording…" a in
  set_macro (Macro.start_recording now (macro a)) a.

Definition on_pause (now : dec) (a : t) : t :=
  let a := set_macro (Macro.pause_toggle now (macro a)) a in
  set_status (if Macro.paused (macro a) then "Paused" else "Recording…") a.

(** [on_stop]: [len] is called outside any [try]. *)
Definition on_stop (a : t) : t * result unit :=
  let a := set_macro (Macro.stop_recording (macro a)) a in
  match py_len (Macro.events (macro a)) with
  | Ok n => (set_status (counted "Recorded" n) a, Ok tt)
  | Raise e => (a, Raise e)
  end.

Definition on_play (a : t) : t * list ui :=
  if negb (py_truthy (Macro.events (macro a)))
  then (a, [ShowInfo "TinyTask-Py" "No events recorded"])
  else (set_status "Playing…" a, [StartPlayThread]).

(** [_play_thread]: the status returns to Ready only when [play]
    returns. *)
Definition _play_thread (H : host) (abort : nat -> bool) (a : t)
  : t * out unit :=
  let '(m, o) := Macro.play H abort (speed a) (loops a) hotkeys (macro a) in
  let a := set_macro m a in
  match snd o with
  | Ok _ => (set_status "Ready" a, o)
  | Raise _ => (a, o)
  end.

Definition on_abort (a : t) : t :=
  set_status "Aborted" (set_macro (Macro.abort_playback (macro a)) a).

Definition on_save (path : string) (fs : gmap string Fs.node) (a : t)
  : t * gmap string Fs.node * list ui :=
  match path with
  | EmptyString => (a, fs, [])
  | _ =>
      match Macro.save path fs (macro a) with
      | (fs', Ok _) => (set_status "Saved" a, fs', [])
      | (fs', Raise e) => (a, fs', [ShowError "Save failed" e])
      end
  end.

(** [on_load]: the call of [len], like the load, is inside the [try]. *)
Definition on_load (path : string) (fs : gmap string Fs.node) (a : t)
  : t * list ui :=
  match path with
  | EmptyString => (a, [])
  | _ =>
      match Macro.load path fs (macro a) with
      | (m, Raise e) => (set_macro m a, [ShowError "Load failed" e])
      | (m, Ok _) =>
          let a := set_macro m a in
          match py_len (Macro.events m) with
          | Ok n => (set_status (counted "Loaded" n) a, [])
          | Raise e => (a, [ShowError "Load failed" e])
          end
      end
  end.

Definition _hk_record_stop (now : dec) (a : t) : t * result unit :=
  if Macro.recording (macro a) then on_stop a
  else (on_record now a, Ok tt).

(** How a call of the window ends, [OverflowError] included. *)
Inductive outcome : Type :=
| Returns
| Raises (e : exn)
| RaisesOverflowError.

(** [s] with zeros in front up to the width [w]. *)
Fixpoint zeros (k : nat) (s : string) : string :=
  match k with
  | O => s
  | S k' => String "0" (zeros k' s)
  end.

(** [f"{n:0wd}"]: the sign counts in the width. *)
Definition format_0d (w : nat) (n : Z) : string :=
  match n with
  | Zneg p => let s := Json.digits (Npos p) in
              String "-" (zeros (w - 1 - String.length s) s)
  | _ => let s := Json.digits (Z.to_N n) in zeros (w - String.length s) s
  end.

(** [f"{y:04d}-{m:02d}-{d:02d}"] *)
Definition day_text (y m d : Z) : string :=
  format_0d 4 y +:+ String "-" (format_0d 2 m +:+ String "-" (format_0d 2 d)).

(** [dt.strftime("%Y-%m-%d")]: month and day have two digits; the year
    has four where the C library pads it ([padded]) and as many as it
    needs where it does not. *)
Definition strftime_Ymd (padded : bool) (dt : datetime) : string :=
  format_0d (if padded then 4 else 1) (year dt)
  +:+ String "-" (format_0d 2 (month dt)
  +:+ String "-" (format_0d 2 (day dt))).

(** [sum(1 for e in items if ... == target)] *)
Fixpoint count_on_day (H : host) (padded : bool) (target : string)
  (items : list pyval) : result nat :=
  match items with
  | [] => Ok O
  | e :: r =>
      dt <- Scheduler.when_of H e ;;
      n <- count_on_day H padded target r ;;
      Ok (if String.eqb (strftime_Ymd padded dt) target then S n else n)
  end.

(** [_count_events_for_date]: the number a day of the calendar shows. *)
Definition _count_events_for_date (H : host) (padded : bool) (a : t)
  (y m d : Z) : result nat :=
  items <- Scheduler.list_all (scheduler a) ;;
  count_on_day H padded (day_text y m d) items.

(** The trigger [e] fires on the day [d] of the month [m] of [y]. *)
Definition on_day (H : host) (y m d : Z) (e : pyval) : bool :=
  match Scheduler.when_of H e with
  | Ok dt => (year dt =? y) && (month dt =? m) && (day dt =? d)
  | Raise _ => false
  end.

(** The numbers whose texts the proofs compare by evaluation. *)
Definition texts_checked : bool :=
  forallb (fun n => String.eqb (format_0d 4 n) (pad 4 n))
          (Dates.zrange 0 (Z.to_nat 10000)) &&
  forallb (fun n => String.eqb (format_0d 1 n) (pad 4 n))
          (Dates.zrange 1000 (Z.to_nat 9000)) &&
  forallb (fun n => String.eqb (format_0d 2 n) (pad 2 n))
          (Dates.zrange 0 (Z.to_nat 100)).

Definition drawn (r : t * result unit) : t * outcome :=
  match r with
  | (a, Ok _) => (a, Returns)
  | (a, Raise e) => (a, Raises e)
  end.

(** [_prev_month] and [_next_month]: the month of the day 31 days before
    or after the 15th of the month shown; then the calendar and the list
    are drawn again. *)
Definition shift_month (k : Z) (draw : t -> t * result unit) (a : t)
  : t * outcome :=
  let st := _sched_state a in
  match Dates.date (cur_year st) (cur_month st) 15 with
  | None => (a, Raises ValueError)
  | Some d =>
      match Dates.add_days d k with
      | None => (a, RaisesOverflowError)
      | Some (y, m, _) => drawn (draw (set_month y m a))
      end
  end.

Definition _prev_month := shift_month (-31).
Definition _next_month := shift_month 31.

End App.

(** ** Event records, in the words of the specification

    Sections 3 and 6 of the specification: a record holds a delay (a
    number), a type discriminator and the fields of its kind.  [Macro.load]
    itself performs no such check; these predicates only serve to compare
    the specification with it. *)






(** ** A host for the examples

    A few names of the pynput enumerations, controllers that accept every
    call, no parsing of numbers, and a [fromisoformat] that reads a date,
    any one character, a time with seconds and possibly microseconds,
    and possibly an offset in hours and minutes. *)

Definition iso_field (s : string) (i n : nat) : option Z :=
  match Json.take_digits (substring i n s) with
  | (u, EmptyString) =>
      if Nat.eqb (Decimal.nb_digits u) n then Some (Z.of_N (N.of_uint u))
      else None
  | _ => None
  end.

Definition iso_sep (s : string) (i : nat) (c : ascii) : bool :=
  match get i s with
  | Some x => Ascii.eqb x c
  | None => false
  end.

(** What follows the time: nothing, or a sign, hours and minutes. *)
Definition iso_offset (s : string) : option (option Z) :=
  match s with
  | EmptyString => Some None
  | String c r =>
      if (Ascii.eqb c "+" || Ascii.eqb c "-") &&
         Nat.eqb (String.length r) 5 && iso_sep r 2 ":"
      then match iso_field r 0 2, iso_field r 3 2 with
           | Some h, Some m =>
               if (h <? 24) && (m <? 60)
               then Some (Some ((if Ascii.eqb c "-" then -1 else 1)
                                * ((h * 60 + m) * 60000000)))
               else None
           | _, _ => None
           end
      else None
  end.

Definition example_fromisoformat (s : string) : option datetime :=
  match iso_field s 0 4, iso_field s 5 2, iso_field s 8 2,
        iso_field s 11 2, iso_field s 14 2, iso_field s 17 2 with
  | Some y, Some mo, Some d, Some h, Some mi, Some se =>
      if iso_sep s 4 "-" && iso_sep s 7 "-" &&
         iso_sep s 13 ":" && iso_sep s 16 ":" &&
         (1 <=? y) && (1 <=? mo) && (mo <=? 12) &&
         (1 <=? d) && (d <=? Dates.days_in_month y mo) &&
         (h <? 24) && (mi <? 60) && (se <? 60)
      then
        let '(us, rest) :=
          if iso_sep s 19 "."
          then (iso_field s 20 6, substring 26 (String.length s - 26) s)
          else (Some 0, substring 19 (String.length s - 19) s) in
        match us, iso_offset rest with
        | Some us, Some off => Some (DateTime y mo d h mi se us off)
        | _, _ => None
        end
      else None
  | _, _, _, _, _, _ => None
  end.

Definition example_host : host :=
  Host (fun k => existsb (String.eqb k)
                   ["f7"; "f8"; "f9"; "f10"; "enter"; "shift"; "ctrl"]%string)
       (fun b => existsb (String.eqb b) ["left"; "middle"; "right"]%string)
       (fun _ => false)
       (fun _ => None)
       (fun _ => None)
       example_fromisoformat.

(** ** Data for the examples *)

Definition example_trigger (id when macro : string) : pyval :=
  PDict [("id", PStr id); ("title", PStr "Macro"); ("when", PStr when);
         ("macro", PStr macro); ("speed", PFloat (Dec 1 0));
         ("loops", PInt 1)]%string.

(** Four triggers: a macro file that is not JSON, one that is gone, one
    not yet due, one that can be played. *)
Definition example_table : list (string * pyval) :=
  [("a", example_trigger "a" "2024-05-01T10:00:00" "bad.json");
   ("b", example_trigger "b" "2024-05-01T09:00:00" "gone.json");
   ("c", example_trigger "c" "2030-01-01T00:00:00" "good.json");
   ("d", example_trigger "d" "2024-04-30T23:59:59.500000" "good.json")]%string.

Definition example_files : gmap string Fs.node :=
  <["bad.json"%string := Fs.Regular "[1,"]>
    (<["good.json"%string :=
         Fs.Regular (Json.dumps
           (PList [PDict [("t", PInt 0); ("type", PStr "move");
                          ("x", PInt 7); ("y", PInt 8)]%string]))]> ∅).

(* ================================================================== *)
(** * Properties *)

(** ** Decimal arithmetic *)

Lemma ten_pow_Q (k : Z) : 0 <= k -> (inject_Z (10 ^ k) == (10 # 1) ^ k)%Q.
Proof. intros Hk. now rewrite Zpower_Qpower. Qed.

Lemma inject_Z_sub (x y : Z) : (inject_Z (x - y) == inject_Z x - inject_Z y)%Q.
Proof. unfold Z.sub. now rewrite inject_Z_plus, inject_Z_opp. Qed.

Lemma ten_pow_pos_Q (e : Z) : (0 < (10 # 1) ^ e)%Q.
Proof. apply Qpower_0_lt. reflexivity. Qed.

(** Rescaling the mantissa to a smaller exponent keeps the value. *)
Lemma dec_rescale (m e e' : Z) :
  e' <= e ->
  (inject_Z (m * 10 ^ (e - e')) * (10 # 1) ^ e' == inject_Z m * (10 # 1) ^ e)%Q.
Proof.
  intros Hle.
  rewrite inject_Z_mult, ten_pow_Q by lia.
  rewrite <- Qmult_assoc, <- Qpower_plus by discriminate.
  now replace (e - e' + e') with e by lia.
Qed.

Lemma dec_sub_spec (a b : dec) :
  (dec_to_Q (dec_sub a b) == dec_to_Q a - dec_to_Q b)%Q.
Proof.
  destruct a as [ma ea], b as [mb eb]. unfold dec_to_Q, dec_sub. cbn [mant expo].
  set (e := Z.min ea eb).
  rewrite <- (dec_rescale ma ea e), <- (dec_rescale mb eb e) by (subst e; lia).
  rewrite inject_Z_sub. ring.
Qed.

(** ** Recording: pause and resume *)

Section Recorder.
Import Macro.

Lemma _rec_cases (item : pyval) (m m' : t) :
  _rec item m = Ok m' ->
  (m' = m /\ (recording m = false \/ paused m = true)) \/
  (exists l, events m = PList l /\ recording m = true /\ paused m = false /\
             m' = set_events (PList (l ++ [item])) m).
Proof.
  unfold _rec. destruct (recording m), (paused m); cbn; intros H;
    try (injection H as <-; left; split; auto).
  destruct (events m) eqn:E; try discriminate.
  injection H as <-. right. eauto.
Qed.

(** What a notification does to the state: nothing (control key), a new
    timestamp only (dropped), or a new timestamp and one more event. *)
Lemma step_notification (c : call) (now : dec) (m m' : t) :
  is_notification c = true -> clock_of c = Some now ->
  step c m = Ok m' ->
  (filtered c m = true /\ m' = m) \/
  (filtered c m = false /\ (recording m = false \/ paused m = true) /\
   m' = set_last_ts (Some now) m) \/
  (filtered c m = false /\ recording m = true /\ paused m = false /\
   exists l rest, events m = PList l /\
     m' = set_events (PList (l ++ [PDict (("t", fst (_dt now m)) :: rest)%string]))
            (set_last_ts (Some now) m)).
Proof.
  intros Hn Hc Hs.
  destruct c; try discriminate Hn; cbn in Hc; injection Hc as ->; cbn in Hs;
    try (unfold _on_press, _on_release, on_key in Hs; cbn [filtered];
         destruct (in_control_keys key m) eqn:Ek;
         [ injection Hs as <-; left; auto | destruct (key_fields key) as [kind k] ]);
    unfold _on_move, _on_click, _on_scroll, _dt in Hs;
    apply _rec_cases in Hs; cbn in Hs;
    (destruct Hs as [[-> Hd] | (l & He & Hr & Hp & ->)];
     [ right; left; auto | right; right; repeat split; eauto ]).
Qed.

Lemma clock_from_weaken (lo lo' : Q) (cs : list call) :
  (lo' <= lo)%Q -> clock_from lo cs -> clock_from lo' cs.
Proof.
  revert lo lo'. induction cs as [|c cs IH]; cbn; auto.
  intros lo lo' Hle. destruct (clock_of c).
  - intros [H1 H2]. split; auto. eapply Qle_trans; eauto.
  - eauto.
Qed.

Lemma step_ts_between (r : dec) (lo : Q) (c : call) (m m' : t) :
  ts_between r lo m -> step c m = Ok m' ->
  match clock_of c with
  | Some now => (lo <= dec_to_Q now)%Q -> ts_between r (dec_to_Q now) m'
  | None => ts_between r lo m'
  end.
Proof.
  intros (l & Hl & Hrl & Hlo) Hs.
  assert (Hmono : forall now, (lo <= dec_to_Q now)%Q -> ts_between r (dec_to_Q now) m).
  { intros now Hle. exists l. repeat split; auto. eapply Qle_trans; eauto. }
  assert (Hnew : forall now m0, (lo <= dec_to_Q now)%Q -> _last_ts m0 = Some now ->
                                ts_between r (dec_to_Q now) m0).
  { intros now m0 Hle H0. exists now. repeat split; auto; [|apply Qle_refl].
    eapply Qle_trans; [exact Hrl|]. eapply Qle_trans; eauto. }
  destruct (is_notification c) eqn:Hn.
  - destruct (clock_of c) as [now|] eqn:Hc; [|destruct c; discriminate].
    intros Hle.
    destruct (step_notification c now m m' Hn Hc Hs)
      as [[_ ->] | [(_ & _ & ->) | (_ & _ & _ & l' & rest & _ & ->)]]; auto.
  - destruct c; try discriminate Hn; cbn in Hs; injection Hs as <-; cbn [clock_of].
    + intros Hle. unfold start_recording. destruct (recording m); auto.
    + unfold stop_recording. destruct (recording m); cbn; exists l; auto.
    + intros Hle. unfold pause_toggle. destruct (recording m); auto.
Qed.

Lemma run_ts_between (r : dec) (cs : list call) :
  forall (lo : Q) (m m' : t) (tail : list call),
    ts_between r lo m -> run cs m = Ok m' -> clock_from lo (cs ++ tail) ->
    exists lo', ts_between r lo' m' /\ clock_from lo' tail.
Proof.
  induction cs as [|c cs IH]; intros lo m m' tail Hinv Hrun Hclk.
  - cbn in Hrun. injection Hrun as <-. eauto.
  - cbn in Hrun. destruct (step c m) as [m1|] eqn:Hs; [|discriminate].
    cbn in Hrun, Hclk. pose proof (step_ts_between r lo c m m1 Hinv Hs) as H.
    destruct (clock_of c) as [now|].
    + destruct Hclk as [Hle Hclk]. exact (IH _ m1 m' tail (H Hle) Hrun Hclk).
    + exact (IH _ m1 m' tail H Hrun Hclk).
Qed.

Lemma delay_after_ts (r now : dec) (lo : Q) (m : t) :
  ts_between r lo m -> (lo <= dec_to_Q now)%Q ->
  exists d, delay_of (PDict [("t", fst (_dt now m))]%string) = Some d /\
            (0 <= d)%Q /\ (d <= dec_to_Q now - dec_to_Q r)%Q.
Proof.
  intros (l & Hl & Hrl & Hlo) Hle.
  assert (Hln : (dec_to_Q l <= dec_to_Q now)%Q) by (eapply Qle_trans; eauto).
  assert (Hrn : (dec_to_Q r <= dec_to_Q now)%Q) by (eapply Qle_trans; eauto).
  unfold _dt. rewrite Hl. cbn [fst].
  destruct (dec_truthy l); cbn.
  - eexists; split; [reflexivity|]. rewrite dec_sub_spec. split.
    + now apply (Qplus_le_l _ _ (dec_to_Q l)); ring_simplify.
    + apply (Qplus_le_l _ _ (dec_to_Q l + dec_to_Q r)); ring_simplify.
      now apply Qplus_le_r.
  - eexists; split; [reflexivity|]. split; [apply Qle_refl|].
    now apply (Qplus_le_l _ _ (dec_to_Q r)); ring_simplify.
Qed.

(** C1 (amended). A toggle while recording, like a start, sets the
    timestamp to its own instant.  From a state whose timestamp is [r],
    with a clock that never runs backwards: a notification that arrives
    while paused is dropped, and unless it is a control key it still moves
    the timestamp to its own instant; a notification that is recorded
    carries a delay between [0] and [now - r].  So no delay is negative,
    and a delay recorded after a resume at [r] reaches back no further
    than [r]: it contains no part of the pause. *)
Theorem paused_interval_excluded :
  forall (m0 : t) (r : dec) (cs : list call) (c : call) (now : dec) (m2 : t),
    _last_ts m0 = Some r ->
    run cs m0 = Ok m2 ->
    is_notification c = true -> clock_of c = Some now ->
    clock_from (dec_to_Q r) (cs ++ [c]) ->
    (forall m t', recording m = true ->
        _last_ts (pause_toggle t' m) = Some t' /\
        paused (pause_toggle t' m) = negb (paused m)) /\
    (forall m t', recording m = false ->
        _last_ts (start_recording t' m) = Some t' /\
        paused (start_recording t' m) = false) /\
    (paused m2 = true ->
     exists m3, step c m2 = Ok m3 /\ events m3 = events m2 /\
                (filtered c m2 = false -> _last_ts m3 = Some now)) /\
    (forall m3 l item,
        step c m2 = Ok m3 -> events m2 = PList l ->
        events m3 = PList (l ++ [item]) ->
        exists d, delay_of item = Some d /\
                  (0 <= d)%Q /\ (d <= dec_to_Q now - dec_to_Q r)%Q).
Proof.
  intros m0 r cs c now m2 Hts Hrun Hn Hc Hclk.
  split; [|split; [|split]].
  - intros m t' Hrec. unfold pause_toggle. rewrite Hrec. auto.
  - intros m t' Hrec. unfold start_recording. rewrite Hrec. auto.
  - intros Hp.
    assert (Hs : exists m3, step c m2 = Ok m3).
    { destruct c; try discriminate Hn; cbn;
        unfold _on_move, _on_click, _on_scroll, _on_press, _on_release, on_key;
        try destruct (in_control_keys key m2); try destruct (key_fields key);
        unfold _dt, _rec; cbn [fst snd set_last_ts recording paused events];
        rewrite ?Hp, ?orb_true_r; eauto. }
    destruct Hs as [m3 Hs]. exists m3. split; auto.
    destruct (step_notification c now m2 m3 Hn Hc Hs)
      as [[Hf ->] | [(Hf & _ & ->) | (_ & _ & Hp' & _)]].
    + split; auto. rewrite Hf. discriminate.
    + split; auto.
    + congruence.
  - intros m3 l item Hs He2 He3.
    assert (Hinv : ts_between r (dec_to_Q r) m0).
    { exists r. repeat split; auto; apply Qle_refl. }
    destruct (run_ts_between r cs _ _ _ [c] Hinv Hrun Hclk) as (lo & Hts' & Hlo).
    cbn in Hlo. rewrite Hc in Hlo. destruct Hlo as [Hlo _].
    destruct (step_notification c now m2 m3 Hn Hc Hs)
      as [[_ ->] | [(_ & _ & ->) | (_ & _ & _ & l' & rest & He & ->)]].
    + rewrite He2 in He3. injection He3 as He3.
      apply (f_equal (@List.length _)) in He3. rewrite length_app in He3.
      cbn in He3. lia.
    + cbn in He3. rewrite He2 in He3. injection He3 as He3.
      apply (f_equal (@List.length _)) in He3. rewrite length_app in He3.
      cbn in He3. lia.
    + cbn in He3. rewrite He2 in He. injection He as <-. injection He3 as He3.
      apply app_inj_tail in He3 as [_ <-].
      destruct (delay_after_ts r now lo m2 Hts' Hlo) as (d & Hd & Hb).
      exists d. split; auto.
Qed.

(** A pause at 12 and a resume at 15: the move at 16 is recorded with a
    delay of 1. *)
Lemma paused_interval_excluded_witness :
  let m0 := pause_toggle (Dec 15 0)
              (pause_toggle (Dec 12 0) (start_recording (Dec 10 0) __init__)) in
  _last_ts m0 = Some (Dec 15 0) /\
  exists d, delay_of (PDict [("t", PFloat (Dec 1 0)); ("type", PStr "move");
                             ("x", PInt 3); ("y", PInt 4)]%string) = Some d /\
            (0 <= d)%Q /\ (d <= dec_to_Q (Dec 16 0) - dec_to_Q (Dec 15 0))%Q.
Proof.
  intros m0. split; [reflexivity|].
  refine (proj2 (proj2 (proj2 (paused_interval_excluded m0 (Dec 15 0) []
                          (CMove (Dec 16 0) 3 4) (Dec 16 0) _
                          eq_refl eq_refl eq_refl eq_refl _))) _ [] _
            eq_refl eq_refl eq_refl).
  cbn. split; [|exact I]. unfold Qle; cbn; lia.
Defined.

(** C1 (as stated) fails: paused since 20, the move at 30 is dropped and
    yet leaves the timestamp at 30. *)
Lemma dropped_event_moves_last_ts :
  let m := pause_toggle (Dec 20 0) (start_recording (Dec 10 0) __init__) in
  paused m = true /\ _last_ts m = Some (Dec 20 0) /\
  exists m', step (CMove (Dec 30 0) 5 5) m = Ok m' /\
             events m' = events m /\
             _last_ts m' = Some (Dec 30 0) /\ _last_ts m' <> _last_ts m.
Proof.
  cbn. repeat split. eexists. repeat split. discriminate.
Qed.

End Recorder.

(** ** The JSON text read back *)

Section JsonRoundTrip.
Import Json.

Lemma append_assoc (a b c : string) : (a +:+ b) +:+ c = a +:+ (b +:+ c).
Proof. induction a as [|x a IH]; simpl; [reflexivity | now f_equal]. Qed.

Lemma length_append (a b : string) :
  String.length (a +:+ b) = (String.length a + String.length b)%nat.
Proof. induction a as [|x a IH]; simpl; [reflexivity | now f_equal]. Qed.

(** *** Numbers *)

Lemma closes_number_end (rest : string) : closes rest -> number_end rest.
Proof.
  destruct rest as [|c r]; cbn; [auto|].
  intros [-> | [-> | ->]]; repeat split; (reflexivity || discriminate).
Qed.

Lemma take_digits_app (u : Decimal.uint) (rest : string) :
  no_digit rest ->
  take_digits (NilEmpty.string_of_uint u +:+ rest) = (u, rest).
Proof.
  intros Hr. induction u; cbn; try (rewrite IHu; reflexivity).
  destruct rest as [|c r]; cbn in *; [reflexivity | now rewrite Hr].
Qed.

Lemma to_uint_norm (n : N) : Decimal.unorm (N.to_uint n) = N.to_uint n.
Proof.
  rewrite <- (DecimalN.Unsigned.of_to n) at 2.
  now rewrite DecimalN.Unsigned.to_of.
Qed.

Lemma to_uint_head (n : N) :
  N.to_uint n = Decimal.D0 Decimal.Nil \/
  exists c r, NilEmpty.string_of_uint (N.to_uint n) = String c r /\
              digit_of c <> None /\ c <> "0"%char.
Proof.
  pose proof (to_uint_norm n) as Hn.
  pose proof (unorm_nonnil (N.to_uint n)) as Hnil. rewrite Hn in Hnil.
  destruct (N.to_uint n) as [|u|u|u|u|u|u|u|u|u|u] eqn:E;
    try (right; cbn; eexists _, _; split; [reflexivity|]; split; discriminate).
  - contradiction.
  - left. rewrite unorm_D0 in Hn. unfold Decimal.unorm in Hn.
    destruct (Decimal.nzhead u) eqn:Hz;
      try (exfalso; apply (nzhead_nonzero u u); congruence);
      try (injection Hn as <-; reflexivity);
      try discriminate Hn.
Qed.

Lemma take_int_digits (n : N) (rest : string) :
  no_digit rest ->
  take_int (digits n +:+ rest) = Some (N.to_uint n, rest).
Proof.
  intros Hr. unfold digits.
  destruct (to_uint_head n) as [-> | (c & r & E & Hd & H0)]; [reflexivity|].
  pose proof (take_digits_app (N.to_uint n) rest Hr) as Ht.
  rewrite E in *. cbn in Ht |- *.
  destruct (digit_of c) eqn:Ed; [|contradiction].
  destruct (Ascii.eqb_spec c "0"); [contradiction|].
  now rewrite Ht.
Qed.

Lemma number_end_no_digit (rest : string) : number_end rest -> no_digit rest.
Proof. destruct rest; cbn; tauto. Qed.

Lemma take_frac_end (rest : string) :
  number_end rest -> take_frac rest = (Decimal.Nil, rest).
Proof.
  destruct rest as [|c r]; cbn; [reflexivity|]. intros (_ & Hdot & _).
  destruct c as [[] [] [] [] [] [] [] []]; try reflexivity. contradiction.
Qed.

Lemma take_exp_end (rest : string) :
  number_end rest -> take_exp rest = (None, rest).
Proof.
  destruct rest as [|c r]; cbn; [reflexivity|]. intros (_ & _ & He & HE).
  destruct (Ascii.eqb_spec c "e"); [contradiction|].
  destruct (Ascii.eqb_spec c "E"); [contradiction|]. reflexivity.
Qed.

Lemma to_uint_nonnil (n : N) : N.to_uint n <> Decimal.Nil.
Proof. rewrite <- to_uint_norm. apply unorm_nonnil. Qed.

(** The unsigned part of [int_repr] and the sign it stands for. *)
Lemma int_repr_split (z : Z) :
  exists neg n, signed neg n = z /\
    int_repr z = (if neg then String "-" (digits n) else digits n).
Proof.
  destruct z as [|p|p].
  - exists false, 0%N. split; reflexivity.
  - exists false, (Npos p). split; reflexivity.
  - exists true, (Npos p). split; reflexivity.
Qed.

Lemma digits_head_not_minus (n : N) (rest : string) :
  match digits n +:+ rest with
  | String "-" _ => False
  | _ => True
  end.
Proof.
  unfold digits. pose proof (to_uint_nonnil n).
  destruct (N.to_uint n); cbn; auto. congruence.
Qed.

Lemma parse_number_unsigned (s : string) :
  match s with String "-" _ => False | _ => True end ->
  parse_number s = number_body false s.
Proof.
  destruct s as [|c r]; [reflexivity|].
  destruct c as [[] [] [] [] [] [] [] []]; try reflexivity. contradiction.
Qed.

Lemma parse_number_signed (neg : bool) (n : N) (rest : string) :
  parse_number ((if neg then String "-" (digits n) else digits n) +:+ rest)
  = number_body neg (digits n +:+ rest).
Proof.
  destruct neg; [reflexivity|].
  apply parse_number_unsigned, digits_head_not_minus.
Qed.

Lemma parse_int_repr (z : Z) (rest : string) :
  number_end rest ->
  parse_number (int_repr z +:+ rest) = Some (PInt z, rest).
Proof.
  intros Hr. destruct (int_repr_split z) as (neg & n & <- & ->).
  rewrite parse_number_signed. unfold number_body.
  rewrite take_int_digits by now apply number_end_no_digit.
  rewrite take_frac_end, take_exp_end by assumption.
  now rewrite DecimalN.Unsigned.of_to.
Qed.

Lemma take_exp_repr (e : Z) (rest : string) :
  no_digit rest ->
  take_exp (String "e" (int_repr e +:+ rest)) = (Some e, rest).
Proof.
  intros Hr. destruct (int_repr_split e) as (neg & n & <- & ->).
  cbn [take_exp Ascii.eqb Bool.eqb orb].
  assert (Hd : take_digits (digits n +:+ rest) = (N.to_uint n, rest))
    by now apply take_digits_app.
  destruct neg.
  - cbn. cbn in Hd. rewrite Hd. pose proof (to_uint_nonnil n).
    destruct (N.to_uint n) eqn:E; try contradiction;
      rewrite <- E, DecimalN.Unsigned.of_to; reflexivity.
  - pose proof (digits_head_not_minus n rest) as Hm.
    assert (Hp : match digits n +:+ rest with String "+" _ => False | _ => True end).
    { unfold digits. pose proof (to_uint_nonnil n).
      destruct (N.to_uint n); [congruence|..]; cbn; auto. }
    destruct (digits n +:+ rest) as [|c r] eqn:Es.
    + rewrite Hd. pose proof (to_uint_nonnil n).
      destruct (N.to_uint n) eqn:E; try contradiction;
        rewrite <- E, DecimalN.Unsigned.of_to; reflexivity.
    + replace (match String c r with
               | String "-" r' => (true, r')
               | String "+" r' => (false, r')
               | _ => (false, String c r)
               end) with (false, String c r)
        by (destruct c as [[] [] [] [] [] [] [] []]; try reflexivity; contradiction).
      rewrite Hd. pose proof (to_uint_nonnil n).
      destruct (N.to_uint n) eqn:E; try contradiction;
        rewrite <- E, DecimalN.Unsigned.of_to; reflexivity.
Qed.

Lemma parse_float_repr (d : dec) (rest : string) :
  number_end rest ->
  parse_number (float_repr d +:+ rest) = Some (PFloat d, rest).
Proof.
  intros Hr. destruct d as [m e]. unfold float_repr. cbn [mant expo].
  destruct (int_repr_split m) as (neg & n & <- & ->).
  rewrite append_assoc, parse_number_signed. unfold number_body.
  rewrite take_int_digits by reflexivity.
  change (String "e" (int_repr e) +:+ rest) with (String "e" (int_repr e +:+ rest)).
  cbn [take_frac].
  rewrite take_exp_repr by now apply number_end_no_digit.
  rewrite DecimalFacts.app_nil_r, DecimalN.Unsigned.of_to. cbn [Decimal.nb_digits].
  change (Z.of_nat 0) with 0. now rewrite Z.sub_0_r.
Qed.

(** *** Strings *)

Lemma escape_char_parse (c : ascii) (fuel : nat) (tail : string) :
  parse_chars (S fuel) (escape_char c +:+ tail)
  = push (String c EmptyString) (parse_chars fuel tail).
Proof. destruct c as [[] [] [] [] [] [] [] []]; reflexivity. Qed.

Lemma parse_escape (s : string) :
  forall (fuel : nat) (rest : string),
    (String.length s < fuel)%nat ->
    parse_chars fuel (escape s +:+ String quote rest) = Some (s, rest).
Proof.
  induction s as [|c s IH]; intros fuel rest Hf;
    (destruct fuel as [|fuel]; [cbn in Hf; lia|]).
  - reflexivity.
  - cbn [escape]. rewrite append_assoc, escape_char_parse.
    rewrite IH by (cbn in Hf; lia). reflexivity.
Qed.

Lemma escape_char_length (c : ascii) : (1 <= String.length (escape_char c))%nat.
Proof. destruct c as [[] [] [] [] [] [] [] []]; vm_compute; lia. Qed.

Lemma escape_length (s : string) :
  (String.length s <= String.length (escape s))%nat.
Proof.
  induction s as [|c s IH]; cbn [escape String.length]; [lia|].
  rewrite length_append. pose proof (escape_char_length c). lia.
Qed.

Lemma parse_str_repr (s rest : string) :
  let r := escape s +:+ String quote rest in
  parse_chars (String.length r) r = Some (s, rest).
Proof.
  cbn zeta. apply parse_escape. rewrite length_append. cbn [String.length].
  pose proof (escape_length s). lia.
Qed.

(** *** Heads of the text *)

Lemma skip_ws_head (c : ascii) (r : string) :
  is_ws c = false -> skip_ws (String c r) = String c r.
Proof. intros H. cbn. now rewrite H. Qed.

Lemma digit_opens (c : ascii) : digit_of c <> None -> opens c.
Proof.
  intros H. destruct c as [[] [] [] [] [] [] [] []];
    try (exfalso; apply H; reflexivity);
    repeat split; discriminate.
Qed.

Lemma int_repr_head (z : Z) (rest : string) :
  exists c r, int_repr z +:+ rest = String c r /\
              (c = "-"%char \/ digit_of c <> None).
Proof.
  destruct (int_repr_split z) as (neg & n & _ & ->).
  destruct neg; [cbn; eauto|].
  unfold digits.
  destruct (to_uint_head n) as [-> | (c & r & E & Hd & _)].
  - cbn. eexists _, _. split; [reflexivity|]. right. discriminate.
  - rewrite E. cbn. eauto.
Qed.

Lemma numeric_opens (c : ascii) :
  c = "-"%char \/ digit_of c <> None -> opens c.
Proof.
  intros [-> | H]; [repeat split; discriminate | now apply digit_opens].
Qed.

Lemma dumps_head (v : pyval) (rest : string) :
  exists c r, dumps v +:+ rest = String c r /\ opens c.
Proof.
  destruct v as [|[]|z|[m e]|s|l|d];
    try (cbn; eexists _, _; split; [reflexivity|]; repeat split; discriminate).
  - destruct (int_repr_head z rest) as (c & r & E & H).
    exists c, r. split; [exact E | now apply numeric_opens].
  - unfold dumps, float_repr. cbn [mant expo]. rewrite append_assoc.
    destruct (int_repr_head m (String "e" (int_repr e) +:+ rest)) as (c & r & E & H).
    exists c, r. split; [exact E | now apply numeric_opens].
Qed.

Lemma parse_value_numeric (f : nat) (c : ascii) (r : string) :
  c = "-"%char \/ digit_of c <> None ->
  parse_value (S f) (String c r) = parse_number (String c r).
Proof.
  intros [-> | H]; [reflexivity|].
  destruct c as [[] [] [] [] [] [] [] []];
    try (exfalso; apply H; reflexivity); reflexivity.
Qed.

Lemma eat_other (c c' : ascii) (r : string) :
  c' <> c -> eat c (String c' r) = None.
Proof. intros H. cbn. now destruct (Ascii.eqb_spec c' c). Qed.

(** *** Lists and dicts *)

Lemma dumps_list (l : list pyval) :
  dumps (PList l) = String "[" (dumps_items l).
Proof.
  destruct l; reflexivity.
Qed.

Lemma dumps_dict (d : list (string * pyval)) :
  dumps (PDict d) = String "{" (dumps_members d).
Proof.
  destruct d; reflexivity.
Qed.

Lemma size_list (l : list pyval) : size (PList l) = S (size_items l).
Proof.
  destruct l; reflexivity.
Qed.

Lemma size_dict (d : list (string * pyval)) : size (PDict d) = S (size_members d).
Proof.
  destruct d; reflexivity.
Qed.

Lemma wf_list (l : list pyval) : wf_pyval (PList l) <-> Forall wf_pyval l.
Proof.
  cbn [wf_pyval]. induction l as [|x l IH]; [split; auto|].
  rewrite Forall_cons_iff, <- IH. reflexivity.
Qed.

Lemma wf_dict (d : list (string * pyval)) :
  wf_pyval (PDict d) <->
  NoDup (map fst d) /\ Forall (fun kv => wf_pyval (snd kv)) d.
Proof.
  cbn [wf_pyval]. apply and_iff_compat_l.
  induction d as [|kv d IH]; [split; auto|].
  rewrite Forall_cons_iff, <- IH. reflexivity.
Qed.

Lemma dict_set_fresh (k : string) (v : pyval) (d : list (string * pyval)) :
  k ∉ map fst d -> dict_set k v d = d ++ [(k, v)].
Proof.
  induction d as [|[k' v'] d IH]; cbn; [reflexivity|]. intros H.
  apply not_elem_of_cons in H as [Hne H].
  destruct (String.eqb_spec k k') as [-> | _]; [contradiction|].
  now rewrite IH.
Qed.

Lemma py_dict_acc (l acc : list (string * pyval)) :
  NoDup (map fst (acc ++ l)) ->
  fold_left (fun d kv => dict_set (fst kv) (snd kv) d) l acc = acc ++ l.
Proof.
  revert acc. induction l as [|[k v] l IH]; intros acc H; cbn.
  - now rewrite app_nil_r.
  - rewrite dict_set_fresh.
    + rewrite IH; rewrite <- app_assoc; [reflexivity | exact H].
    + rewrite map_app in H. cbn in H.
      apply NoDup_app in H as (_ & H & _).
      intros Hin. apply (H k Hin). left.
Qed.

(** On pairwise distinct keys [dict(pairs)] keeps the pairs as they are. *)
Lemma py_dict_nodup (d : list (string * pyval)) :
  NoDup (map fst d) -> py_dict d = d.
Proof. intros H. unfold py_dict. now rewrite py_dict_acc. Qed.

Lemma items_head (l : list pyval) (rest : string) :
  l <> [] -> exists c r, dumps_items l +:+ rest = String c r /\ opens c.
Proof.
  destruct l as [|x l]; [contradiction|]. intros _.
  cbn [dumps_items]. rewrite append_assoc. apply dumps_head.
Qed.

Lemma members_head (d : list (string * pyval)) (rest : string) :
  d <> [] -> exists r, dumps_members d +:+ rest = String quote r.
Proof. destruct d as [|[k x] d]; [contradiction|]. intros _. cbn. eauto. Qed.

Lemma size_pos (v : pyval) : (1 <= size v)%nat.
Proof. destruct v; cbn; lia. Qed.

Lemma skip_ws_items (l : list pyval) (rest : string) :
  l <> [] ->
  skip_ws (dumps_items l +:+ rest) = dumps_items l +:+ rest /\
  eat "]" (dumps_items l +:+ rest) = None.
Proof.
  intros Hl. destruct (items_head l rest Hl) as (c & r & -> & Hws & Hb & _).
  split; [now apply skip_ws_head | now apply eat_other].
Qed.

Lemma skip_ws_members (d : list (string * pyval)) (rest : string) :
  d <> [] ->
  skip_ws (dumps_members d +:+ rest) = dumps_members d +:+ rest /\
  eat "}" (dumps_members d +:+ rest) = None.
Proof.
  intros Hd. destruct (members_head d rest Hd) as (r & ->).
  split; reflexivity.
Qed.

Lemma skip_ws_value (v : pyval) (rest : string) :
  skip_ws (dumps v +:+ rest) = dumps v +:+ rest.
Proof.
  destruct (dumps_head v rest) as (c & r & -> & Hws & _).
  now apply skip_ws_head.
Qed.

(** Reading back what [dumps] wrote, for values, for the elements of a
    list and for the members of a dict, with fuel for their size. *)
Lemma parse_dumps_fuel (fuel : nat) :
  (forall v rest, wf_pyval v -> (size v <= fuel)%nat -> closes rest ->
     parse_value fuel (dumps v +:+ rest) = Some (v, rest)) /\
  (forall l rest, l <> [] -> Forall wf_pyval l -> (size_items l <= fuel)%nat ->
     parse_elems fuel (dumps_items l +:+ rest) = Some (l, rest)) /\
  (forall d rest, d <> [] -> Forall (fun kv => wf_pyval (snd kv)) d ->
     (size_members d <= fuel)%nat ->
     parse_members fuel (dumps_members d +:+ rest) = Some (d, rest)).
Proof.
  induction fuel as [|f (IHv & IHl & IHd)].
  { split; [|split].
    - intros v rest _ Hs. pose proof (size_pos v). lia.
    - intros [|x l] rest Hl _ Hs; [contradiction | cbn in Hs; lia].
    - intros [|x l] rest Hl _ Hs; [contradiction | cbn in Hs; lia]. }
  split; [|split].
  - intros v rest Hwf Hs Hc. destruct v as [|[]|z|d|s|l|d]; try reflexivity.
    + destruct (int_repr_head z rest) as (c & r & E & H).
      cbn [dumps]. rewrite E, parse_value_numeric by assumption. rewrite <- E.
      now apply parse_int_repr, closes_number_end.
    + pose proof (parse_float_repr d rest (closes_number_end _ Hc)) as Hp.
      cbn [dumps]. unfold float_repr in *. rewrite append_assoc in *.
      destruct (int_repr_head (mant d) (String "e" (int_repr (expo d)) +:+ rest))
        as (c & r & E & H).
      rewrite E in *. now rewrite parse_value_numeric.
    + cbn [dumps]. unfold str_repr.
      change (String quote (escape s +:+ String quote EmptyString) +:+ rest)
        with (String quote ((escape s +:+ String quote EmptyString) +:+ rest)).
      rewrite append_assoc.
      change (String quote EmptyString +:+ rest) with (String quote rest).
      cbn [parse_value]. rewrite Ascii.eqb_refl.
      now rewrite parse_str_repr.
    + rewrite dumps_list. rewrite size_list in Hs. apply wf_list in Hwf.
      destruct l as [|x l]; [reflexivity|].
      change (String "[" (dumps_items (x :: l)) +:+ rest)
        with (String "[" (dumps_items (x :: l) +:+ rest)).
      assert (Hne : x :: l <> []) by discriminate.
      destruct (skip_ws_items (x :: l) rest Hne) as [Hsk Heat].
      cbn [parse_value]. change (Ascii.eqb "[" quote) with false.
      change (Ascii.eqb "[" "{") with false. change (Ascii.eqb "[" "[") with true.
      cbv iota. rewrite Hsk, Heat, IHl by (auto; lia). reflexivity.
    + rewrite dumps_dict. rewrite size_dict in Hs. apply wf_dict in Hwf as [Hnd Hwf].
      destruct d as [|kv d]; [reflexivity|].
      change (String "{" (dumps_members (kv :: d)) +:+ rest)
        with (String "{" (dumps_members (kv :: d) +:+ rest)).
      assert (Hne : kv :: d <> []) by discriminate.
      destruct (skip_ws_members (kv :: d) rest Hne) as [Hsk Heat].
      cbn [parse_value]. change (Ascii.eqb "{" quote) with false.
      change (Ascii.eqb "{" "{") with true.
      cbv iota. rewrite Hsk, Heat, IHd by (auto; lia).
      now rewrite py_dict_nodup.
  - intros [|x l] rest Hne Hwf Hs; [contradiction|].
    apply Forall_cons in Hwf as [Hx Hl]. cbn [size_items] in Hs.
    cbn [dumps_items parse_elems]. rewrite append_assoc.
    destruct l as [|y l].
    + change ("]" +:+ rest) with (String "]" rest).
      rewrite IHv by (auto; cbn; auto; lia). reflexivity.
    + change (String "," (dumps_items (y :: l)) +:+ rest)
        with (String "," (dumps_items (y :: l) +:+ rest)).
      rewrite IHv by (auto; cbn; auto; lia).
      assert (Hne' : y :: l <> []) by discriminate.
      destruct (skip_ws_items (y :: l) rest Hne') as [Hsk _].
      cbn [skip_ws is_ws Ascii.eqb Bool.eqb orb eat]. cbv iota.
      rewrite Hsk, IHl by (auto; lia). reflexivity.
  - intros [|[k x] d] rest Hne Hwf Hs; [contradiction|].
    apply Forall_cons in Hwf as [Hx Hd]. cbn [size_members snd] in Hs.
    cbn [dumps_members parse_members]. unfold str_repr.
    rewrite !append_assoc.
    change (String quote (escape k +:+ String quote EmptyString) +:+ ?t)
      with (String quote ((escape k +:+ String quote EmptyString) +:+ t)).
    cbn [eat]. rewrite Ascii.eqb_refl.
    rewrite !append_assoc.
    change (String quote EmptyString +:+ ?t) with (String quote t).
    rewrite parse_str_repr.
    change (String ":" ?a +:+ rest) with (String ":" (a +:+ rest)).
    cbn [skip_ws is_ws Ascii.eqb Bool.eqb orb eat]. cbv iota.
    rewrite append_assoc, skip_ws_value.
    destruct d as [|kv d].
    + change ("}" +:+ rest) with (String "}" rest).
      rewrite IHv by (auto; cbn; auto; lia). reflexivity.
    + change (String "," (dumps_members (kv :: d)) +:+ rest)
        with (String "," (dumps_members (kv :: d) +:+ rest)).
      rewrite IHv by (auto; cbn; auto; lia).
      assert (Hne' : kv :: d <> []) by discriminate.
      destruct (skip_ws_members (kv :: d) rest Hne') as [Hsk _].
      cbn [skip_ws is_ws Ascii.eqb Bool.eqb orb eat]. cbv iota.
      rewrite Hsk, IHd by (auto; lia). reflexivity.
Qed.

End JsonRoundTrip.

(** ** The fuel of the decoder is enough

    The decoder consumes its text: what it leaves is shorter than what it
    was given.  So more fuel never changes a result, and the fuel [loads]
    provides covers every text: [loads] fails on a text only when no
    amount of fuel would read it. *)

Section JsonFuel.
Import Json.

Lemma skip_ws_length (s : string) : (String.length (skip_ws s) <= String.length s)%nat.
Proof.
  induction s as [|c s IH]; cbn [skip_ws]; [lia|].
  destruct (is_ws c); cbn [String.length] in *; lia.
Qed.

Lemma eat_length (c : ascii) (s r : string) :
  eat c s = Some r -> String.length s = S (String.length r).
Proof.
  destruct s as [|c' s]; cbn; [discriminate|].
  destruct (Ascii.eqb c' c); [|discriminate]. now intros [= ->].
Qed.

Lemma low_half_length (s : string) (lo : N) (r : string) :
  low_half s = Some (Some (lo, r)) -> (String.length r < String.length s)%nat.
Proof.
  unfold low_half.
  repeat match goal with
         | |- context [match ?x with _ => _ end] => destruct x
         end; try discriminate.
  intros [= _ <-]. cbn. lia.
Qed.

Lemma next_chunk_length (s : string) :
  match next_chunk s with
  | Closed rest | Piece _ rest => (String.length rest < String.length s)%nat
  | Broken => True
  end.
Proof.
  destruct s as [|c r]; cbn [next_chunk]; [exact I|].
  destruct (Ascii.eqb c quote); [cbn; lia|].
  destruct (Ascii.eqb c backslash).
  2: { destruct (N_of_ascii c <? 32)%N; cbn; [exact I | lia]. }
  destruct r as [|e r1]; [exact I|].
  destruct (unescape e); [cbn; lia|].
  destruct (Ascii.eqb e "u"); [|exact I].
  destruct r1 as [|h1 [|h2 [|h3 [|h4 r2]]]]; try exact I.
  destruct (hex4 h1 h2 h3 h4) as [hi|]; [|exact I].
  destruct (is_high hi); [|cbn; lia].
  destruct (low_half r2) as [[[lo r3]|]|] eqn:E;
    [apply low_half_length in E; cbn; lia | exact I | cbn; lia].
Qed.

Lemma push_rest (p : string) (r : option (string * string)) (x rest : string) :
  push p r = Some (x, rest) -> exists y, r = Some (y, rest).
Proof. destruct r as [[y r']|]; cbn; [|discriminate]. intros [= _ <-]. eauto. Qed.

Lemma parse_chars_length (f : nat) :
  forall s x rest, parse_chars f s = Some (x, rest) -> (String.length rest < String.length s)%nat.
Proof.
  induction f as [|f IH]; intros s x rest; cbn [parse_chars]; [discriminate|].
  pose proof (next_chunk_length s) as Hn.
  destruct (next_chunk s) as [r | p r |]; [| |discriminate].
  - now intros [= _ <-].
  - intros Hp. apply push_rest in Hp as [y Hy]. apply IH in Hy. lia.
Qed.

Lemma parse_chars_mono (f : nat) :
  forall f' s r, parse_chars f s = Some r -> (f <= f')%nat ->
                 parse_chars f' s = Some r.
Proof.
  induction f as [|f IH]; intros f' s r; cbn [parse_chars]; [discriminate|].
  intros Hp Hle. destruct f' as [|f']; [lia|]. cbn [parse_chars].
  destruct (next_chunk s) as [r0 | p r0 |]; [exact Hp | | discriminate].
  destruct (parse_chars f r0) as [y|] eqn:E; [|discriminate].
  now rewrite (IH f' r0 y E) by lia.
Qed.

(** The length of the text is fuel enough for a string literal. *)
Lemma parse_chars_enough (f : nat) :
  forall s r, parse_chars f s = Some r -> parse_chars (String.length s) s = Some r.
Proof.
  induction f as [|f IH]; intros s r; cbn [parse_chars]; [discriminate|].
  pose proof (next_chunk_length s) as Hn.
  destruct s as [|c s]; [discriminate|]. cbn [String.length parse_chars].
  destruct (next_chunk (String c s)) as [r0 | p r0 |]; [auto | | discriminate].
  destruct (parse_chars f r0) as [y|] eqn:E; [|discriminate].
  intros Hp. apply IH in E.
  rewrite (parse_chars_mono _ (String.length s) r0 y E) by (cbn [String.length] in Hn; lia).
  exact Hp.
Qed.

Lemma strip_prefix_length (p : string) :
  forall s rest, strip_prefix p s = Some rest -> String.length s = (String.length p + String.length rest)%nat.
Proof.
  induction p as [|a p IH]; intros s rest; cbn [strip_prefix].
  - now intros [= ->].
  - destruct s as [|b s]; [discriminate|].
    destruct (Ascii.eqb a b); [|discriminate].
    intros Hs. apply IH in Hs. cbn [String.length]. lia.
Qed.

Lemma take_digits_length (s : string) :
  forall u rest, take_digits s = (u, rest) -> (String.length rest <= String.length s)%nat.
Proof.
  induction s as [|c s IH]; intros u rest; cbn [take_digits].
  - intros [= _ <-]. lia.
  - destruct (digit_of c).
    + destruct (take_digits s) as [u' r'] eqn:E. intros [= _ <-].
      specialize (IH u' r' eq_refl). cbn [String.length]. lia.
    + intros [= _ <-]. lia.
Qed.

Lemma take_int_length (s : string) (u : Decimal.uint) (rest : string) :
  take_int s = Some (u, rest) -> (String.length rest < String.length s)%nat.
Proof.
  destruct s as [|c s]; cbn [take_int]; [discriminate|].
  destruct (digit_of c) eqn:Ed; [|discriminate].
  destruct (Ascii.eqb c "0").
  - intros [= _ <-]. cbn. lia.
  - cbn [take_digits]. rewrite Ed.
    destruct (take_digits s) as [u' r'] eqn:E. intros [= _ <-].
    apply take_digits_length in E. cbn [String.length]. lia.
Qed.

Lemma take_frac_length (s : string) (u : Decimal.uint) (rest : string) :
  take_frac s = (u, rest) -> (String.length rest <= String.length s)%nat.
Proof.
  unfold take_frac. destruct s as [|c s]; [intros [= _ <-]; lia|].
  destruct (Ascii.eqb_spec c ".") as [-> | Hne].
  - destruct (take_digits s) as [f r] eqn:E. apply take_digits_length in E.
    destruct f; intros [= _ <-]; cbn [String.length]; lia.
  - assert (Hd : match c with "."%char => (Decimal.Nil, String c s) | _ => (Decimal.Nil, String c s) end
                 = (u, rest) -> (String.length rest <= String.length (String c s))%nat).
    { destruct c as [[] [] [] [] [] [] [] []]; intros [= _ <-]; lia. }
    destruct c as [[] [] [] [] [] [] [] []]; try (intros [= _ <-]; lia).
    contradiction.
Qed.

Lemma take_exp_length (s : string) (e : option Z) (rest : string) :
  take_exp s = (e, rest) -> (String.length rest <= String.length s)%nat.
Proof.
  unfold take_exp. destruct s as [|c s]; [intros [= _ <-]; lia|].
  destruct (Ascii.eqb c "e" || Ascii.eqb c "E"); [|intros [= _ <-]; lia].
  assert (Hs : forall neg r1, (String.length r1 <= String.length s)%nat ->
            match take_digits r1 with
            | (Decimal.Nil, _) => (None, String c s)
            | (e0, rest0) => (Some (signed neg (N.of_uint e0)), rest0)
            end = (e, rest) -> (String.length rest <= String.length (String c s))%nat).
  { intros neg r1 Hr. destruct (take_digits r1) as [u r'] eqn:E.
    apply take_digits_length in E.
    destruct u; intros [= _ <-]; cbn [String.length]; lia. }
  destruct s as [|c' s']; [apply (Hs false); lia|].
  destruct c' as [[] [] [] [] [] [] [] []];
    try (apply (Hs false); lia);
    apply Hs; cbn [String.length]; lia.
Qed.

Lemma number_body_length (neg : bool) (s : string) (v : pyval) (rest : string) :
  number_body neg s = Some (v, rest) -> (String.length rest < String.length s)%nat.
Proof.
  unfold number_body.
  destruct (take_int s) as [[ip s2]|] eqn:Ei; [|discriminate].
  apply take_int_length in Ei.
  destruct (take_frac s2) as [fr s3] eqn:Ef. apply take_frac_length in Ef.
  destruct (take_exp s3) as [ex s4] eqn:Ee. apply take_exp_length in Ee.
  destruct fr, ex; intros [= _ <-]; lia.
Qed.

Lemma parse_number_length (s : string) (v : pyval) (rest : string) :
  parse_number s = Some (v, rest) -> (String.length rest < String.length s)%nat.
Proof.
  unfold parse_number. destruct s as [|c s].
  - apply number_body_length.
  - destruct c as [[] [] [] [] [] [] [] []];
      intros Hn; apply number_body_length in Hn; cbn [String.length] in *; lia.
Qed.

(** What the decoder leaves is shorter than what it was given. *)
Lemma parse_length (f : nat) :
  (forall s v rest, parse_value f s = Some (v, rest) ->
                    (String.length rest < String.length s)%nat) /\
  (forall s l rest, parse_elems f s = Some (l, rest) ->
                    (String.length rest < String.length s)%nat) /\
  (forall s d rest, parse_members f s = Some (d, rest) ->
                    (String.length rest < String.length s)%nat).
Proof.
  induction f as [|f (IHv & IHl & IHd)];
    [repeat split; intros; discriminate|].
  split; [|split].
  - intros s v rest. destruct s as [|c r]; cbn [parse_value]; [discriminate|].
    pose proof (skip_ws_length r) as Hws.
    destruct (Ascii.eqb c quote).
    { destruct (parse_chars (String.length r) r) as [[x r']|] eqn:E; [|discriminate].
      apply parse_chars_length in E. intros [= _ <-]. cbn [String.length]. lia. }
    destruct (Ascii.eqb c "{").
    { destruct (eat "}" (skip_ws r)) as [r'|] eqn:E.
      - apply eat_length in E. intros [= _ <-]. cbn [String.length]. lia.
      - destruct (parse_members f (skip_ws r)) as [[d r']|] eqn:E'; [|discriminate].
        apply IHd in E'. intros [= _ <-]. cbn [String.length]. lia. }
    destruct (Ascii.eqb c "[").
    { destruct (eat "]" (skip_ws r)) as [r'|] eqn:E.
      - apply eat_length in E. intros [= _ <-]. cbn [String.length]. lia.
      - destruct (parse_elems f (skip_ws r)) as [[l r']|] eqn:E'; [|discriminate].
        apply IHl in E'. intros [= _ <-]. cbn [String.length]. lia. }
    destruct (strip_prefix "null" (String c r)) as [r1|] eqn:E1.
    { apply strip_prefix_length in E1. intros [= _ <-]. cbn [String.length] in *. lia. }
    destruct (strip_prefix "true" (String c r)) as [r2|] eqn:E2.
    { apply strip_prefix_length in E2. intros [= _ <-]. cbn [String.length] in *. lia. }
    destruct (strip_prefix "false" (String c r)) as [r3|] eqn:E3.
    { apply strip_prefix_length in E3. intros [= _ <-]. cbn [String.length] in *. lia. }
    apply parse_number_length.
  - intros s l rest. cbn [parse_elems].
    destruct (parse_value f s) as [[x r]|] eqn:E; [|discriminate].
    apply IHv in E. pose proof (skip_ws_length r) as Hws.
    destruct (eat "," (skip_ws r)) as [r'|] eqn:Ec.
    + apply eat_length in Ec. pose proof (skip_ws_length r') as Hws'.
      destruct (parse_elems f (skip_ws r')) as [[l' r'']|] eqn:E'; [|discriminate].
      apply IHl in E'. intros [= _ <-]. lia.
    + destruct (eat "]" (skip_ws r)) as [r'|] eqn:Eb; [|discriminate].
      apply eat_length in Eb. intros [= _ <-]. lia.
  - intros s d rest. cbn [parse_members].
    destruct (eat quote s) as [r0|] eqn:Eq; [|discriminate].
    apply eat_length in Eq.
    destruct (parse_chars (String.length r0) r0) as [[k r]|] eqn:Ek; [|discriminate].
    apply parse_chars_length in Ek. pose proof (skip_ws_length r) as Hws.
    destruct (eat ":" (skip_ws r)) as [r1|] eqn:Ec; [|discriminate].
    apply eat_length in Ec. pose proof (skip_ws_length r1) as Hws1.
    destruct (parse_value f (skip_ws r1)) as [[x r2]|] eqn:Ev; [|discriminate].
    apply IHv in Ev. pose proof (skip_ws_length r2) as Hws2.
    destruct (eat "," (skip_ws r2)) as [r'|] eqn:Em.
    + apply eat_length in Em. pose proof (skip_ws_length r') as Hws'.
      destruct (parse_members f (skip_ws r')) as [[d' r'']|] eqn:E'; [|discriminate].
      apply IHd in E'. intros [= _ <-]. lia.
    + destruct (eat "}" (skip_ws r2)) as [r'|] eqn:Eb; [|discriminate].
      apply eat_length in Eb. intros [= _ <-]. lia.
Qed.

(** A result obtained with some fuel is obtained with any larger fuel,
    and with any fuel above twice the length of the text. *)
Lemma parse_fuel (f : nat) :
  (forall f' s r, parse_value f s = Some r ->
     (f <= f' \/ 2 * String.length s + 1 <= f')%nat ->
     parse_value f' s = Some r) /\
  (forall f' s r, parse_elems f s = Some r ->
     (f <= f' \/ 2 * String.length s + 2 <= f')%nat ->
     parse_elems f' s = Some r) /\
  (forall f' s r, parse_members f s = Some r ->
     (f <= f' \/ 2 * String.length s + 2 <= f')%nat ->
     parse_members f' s = Some r).
Proof.
  induction f as [|f (IHv & IHl & IHd)];
    [repeat split; intros; discriminate|].
  destruct (parse_length f) as (Lv & Ll & Ld).
  split; [|split].
  - intros f' s r Hp Hf. destruct f' as [|f']; [lia|].
    destruct s as [|c s]; cbn [parse_value] in *; [discriminate|].
    pose proof (skip_ws_length s) as Hws. cbn [String.length] in Hf.
    destruct (Ascii.eqb c quote); [exact Hp|].
    destruct (Ascii.eqb c "{").
    { destruct (eat "}" (skip_ws s)); [exact Hp|].
      destruct (parse_members f (skip_ws s)) as [y|] eqn:E; [|discriminate].
      rewrite (IHd f' _ _ E) by lia. exact Hp. }
    destruct (Ascii.eqb c "[").
    { destruct (eat "]" (skip_ws s)); [exact Hp|].
      destruct (parse_elems f (skip_ws s)) as [y|] eqn:E; [|discriminate].
      rewrite (IHl f' _ _ E) by lia. exact Hp. }
    exact Hp.
  - intros f' s r Hp Hf. destruct f' as [|f']; [lia|].
    cbn [parse_elems] in *.
    destruct (parse_value f s) as [[x r1]|] eqn:E; [|discriminate].
    rewrite (IHv f' _ _ E) by lia. apply Lv in E.
    pose proof (skip_ws_length r1) as Hws.
    destruct (eat "," (skip_ws r1)) as [r'|] eqn:Ec; [|exact Hp].
    apply eat_length in Ec. pose proof (skip_ws_length r') as Hws'.
    destruct (parse_elems f (skip_ws r')) as [y|] eqn:E'; [|discriminate].
    rewrite (IHl f' _ _ E') by lia. exact Hp.
  - intros f' s r Hp Hf. destruct f' as [|f']; [lia|].
    cbn [parse_members] in *.
    destruct (eat quote s) as [r0|] eqn:Eq; [|discriminate].
    apply eat_length in Eq.
    destruct (parse_chars (String.length r0) r0) as [[k r1]|] eqn:Ek; [|discriminate].
    apply parse_chars_length in Ek. pose proof (skip_ws_length r1) as Hws.
    destruct (eat ":" (skip_ws r1)) as [r2|] eqn:Ec; [|discriminate].
    apply eat_length in Ec. pose proof (skip_ws_length r2) as Hws2.
    destruct (parse_value f (skip_ws r2)) as [[x r3]|] eqn:Ev; [|discriminate].
    rewrite (IHv f' _ _ Ev) by lia. apply Lv in Ev.
    pose proof (skip_ws_length r3) as Hws3.
    destruct (eat "," (skip_ws r3)) as [r'|] eqn:Em; [|exact Hp].
    apply eat_length in Em. pose proof (skip_ws_length r') as Hws'.
    destruct (parse_members f (skip_ws r')) as [y|] eqn:E'; [|discriminate].
    rewrite (IHd f' _ _ E') by lia. exact Hp.
Qed.

(** [loads] succeeds on every text that some fuel reads to its end. *)
Lemma loads_fuel_enough (s : string) (f : nat) (v : pyval) (rest : string) :
  parse_value f (skip_ws s) = Some (v, rest) ->
  skip_ws rest = EmptyString ->
  loads s = Some v.
Proof.
  intros Hp Hr. unfold loads.
  pose proof (skip_ws_length s) as Hws.
  rewrite (proj1 (parse_fuel f) _ _ _ Hp) by lia.
  now rewrite Hr.
Qed.

(** The fuel the decoder gives the body of a string literal is enough as
    well. *)
Lemma parse_chars_fuel_enough (f : nat) (s : string) (r : string * string) :
  parse_chars f s = Some r -> parse_chars (String.length s) s = Some r.
Proof. apply parse_chars_enough. Qed.

(** [loads] reads exactly the well-formed texts. *)
Lemma loads_well_formed (s : string) :
  well_formed s <-> exists v, loads s = Some v.
Proof.
  split.
  - intros (f & v & rest & Hp & Hr). exists v. eapply loads_fuel_enough; eauto.
  - intros [v Hl]. unfold loads in Hl.
    destruct (parse_value _ (skip_ws s)) as [[v' rest]|] eqn:E; [|discriminate].
    destruct (skip_ws rest) eqn:Er; [|discriminate].
    exists (2 * String.length s + 1)%nat, v', rest. auto.
Qed.

Lemma loads_none (s : string) : loads s = None <-> ~ well_formed s.
Proof.
  rewrite loads_well_formed. split.
  - intros Hn [v Hv]. congruence.
  - intros Hn. destruct (loads s) as [v|]; [|reflexivity].
    exfalso. apply Hn. eauto.
Qed.

End JsonFuel.

(** ** Persistence of macros *)

Section MacroStore.
Import Json.

Lemma append_nil_r (a : string) : a +:+ EmptyString = a.
Proof. induction a as [|x a IH]; simpl; [reflexivity | now f_equal]. Qed.

(** An induction principle that reaches below lists and dicts. *)
Lemma pyval_induction (P : pyval -> Prop) :
  P PNone -> (forall b, P (PBool b)) -> (forall z, P (PInt z)) ->
  (forall d, P (PFloat d)) -> (forall s, P (PStr s)) ->
  (forall l, Forall P l -> P (PList l)) ->
  (forall d, Forall (fun kv => P (snd kv)) d -> P (PDict d)) ->
  forall v, P v.
Proof.
  intros Hn Hb Hi Hf Hs Hl Hd. fix IH 1.
  intros [|b|z|x|s|l|d];
    [exact Hn | apply Hb | apply Hi | apply Hf | apply Hs | |].
  - apply Hl. revert l. fix IHl 1.
    intros [|x l]; constructor; [apply IH | apply IHl].
  - apply Hd. revert d. fix IHd 1.
    intros [|[k x] d]; constructor; [apply IH | apply IHd].
Qed.

Lemma int_repr_length (z : Z) : (1 <= String.length (int_repr z))%nat.
Proof.
  destruct (int_repr_head z EmptyString) as (c & r & E & _).
  rewrite append_nil_r in E. rewrite E. cbn. lia.
Qed.

Lemma size_le_length (v : pyval) : (size v <= String.length (dumps v))%nat.
Proof.
  induction v as [|b|z|d|s|l IH|d IH] using pyval_induction.
  - cbn. lia.
  - destruct b; cbn; lia.
  - cbn. apply int_repr_length.
  - cbn [size dumps]. unfold float_repr. rewrite length_append.
    pose proof (int_repr_length (mant d)). lia.
  - cbn. lia.
  - rewrite size_list, dumps_list. cbn [String.length]. apply le_n_S.
    induction IH as [|x l Hx _ IHl]; [cbn; lia|].
    cbn [size_items dumps_items]. rewrite length_append.
    destruct l; cbn [String.length size_items] in *; lia.
  - rewrite size_dict, dumps_dict. cbn [String.length]. apply le_n_S.
    induction IH as [|[k x] d Hx _ IHd]; [cbn; lia|].
    cbn [size_members dumps_members snd] in *.
    rewrite length_append. cbn [String.length]. rewrite length_append.
    destruct d; cbn [String.length size_members] in *; lia.
Qed.

(** [json.loads(json.dumps(v)) == v] *)
Lemma loads_dumps (v : pyval) : wf_pyval v -> loads (dumps v) = Some v.
Proof.
  intros Hwf. unfold loads.
  pose proof (skip_ws_value v EmptyString) as Hsk.
  rewrite append_nil_r in Hsk. rewrite Hsk.
  pose proof (proj1 (parse_dumps_fuel (2 * String.length (dumps v) + 1)) v
                EmptyString Hwf) as Hp.
  rewrite append_nil_r in Hp. rewrite Hp; [reflexivity | | exact I].
  pose proof (size_le_length v). lia.
Qed.

(** *** The pieces of a text and their encoding *)

Lemma joined_app (a b : list string) : joined (a ++ b) = joined a +:+ joined b.
Proof.
  induction a as [|x a IH]; cbn [joined fold_right app]; [reflexivity|].
  fold (joined (a ++ b)). fold (joined a). now rewrite IH, append_assoc.
Qed.

Lemma pieces_list (x : pyval) (l : list pyval) :
  pieces (PList (x :: l)) = pieces_items "[" (x :: l).
Proof. reflexivity. Qed.

Lemma pieces_dict (kv : string * pyval) (d : list (string * pyval)) :
  pieces (PDict (kv :: d)) = "{"%string :: pieces_members [] (kv :: d).
Proof. reflexivity. Qed.

Lemma pieces_scalar (x : pyval) :
  match x with PList _ | PDict _ => False | _ => True end ->
  pieces x = [dumps x].
Proof. destruct x; cbn; tauto. Qed.

Lemma joined_pieces_items (l : list pyval) :
  Forall (fun x => joined (pieces x) = dumps x) l ->
  forall buf, l <> [] -> joined (pieces_items buf l) = buf +:+ dumps_items l.
Proof.
  induction 1 as [|x l Hx Hl IH]; intros buf Hne; [contradiction|].
  assert (Hr : joined (pieces_items "," l)
               = match l with [] => "]" | _ => String "," (dumps_items l) end).
  { destruct l as [|y l']; [reflexivity|]. now rewrite IH. }
  cbn [dumps_items].
  destruct x; cbn [pieces_items joined fold_right];
    fold (joined (pieces_items "," l));
    rewrite ?Hr, ?append_assoc; try reflexivity.
  - change (fold_right String.append EmptyString ?a) with (joined a).
    rewrite joined_app, Hx, Hr. reflexivity.
  - change (fold_right String.append EmptyString ?a) with (joined a).
    rewrite joined_app, Hx, Hr. reflexivity.
Qed.


Lemma joined_pieces_members (d : list (string * pyval)) :
  Forall (fun kv => joined (pieces (snd kv)) = dumps (snd kv)) d ->
  forall sep, d <> [] ->
    joined (pieces_members sep d) = joined sep +:+ dumps_members d.
Proof.
  induction 1 as [|[k x] d Hx Hd IH]; intros sep Hne; [contradiction|].
  assert (Hr : joined (pieces_members [","%string] d)
               = match d with [] => "}" | _ => String "," (dumps_members d) end).
  { destruct d as [|y d']; [reflexivity|]. rewrite IH by discriminate.
    reflexivity. }
  cbn [dumps_members pieces_members snd] in *.
  rewrite joined_app. f_equal.
  cbn [joined fold_right]. f_equal.
  change (fold_right String.append EmptyString ?a) with (joined a).
  rewrite joined_app, Hx, Hr. reflexivity.
Qed.

(** The pieces written one after the other are the text of [dumps]. *)
Lemma joined_pieces (v : pyval) : joined (pieces v) = dumps v.
Proof.
  induction v as [|b|z|d|s|l IH|d IH] using pyval_induction;
    try reflexivity; try (cbn; now rewrite append_nil_r).
  - destruct l as [|x l]; [reflexivity|].
    rewrite pieces_list, dumps_list, joined_pieces_items by (auto; discriminate).
    reflexivity.
  - destruct d as [|kv d]; [reflexivity|].
    rewrite pieces_dict, dumps_dict. cbn [joined fold_right].
    change (fold_right String.append EmptyString ?a) with (joined a).
    rewrite joined_pieces_members by (auto; discriminate). reflexivity.
Qed.

Lemma accepted_ok (ps : list string) (w : string) :
  Fs.accepted ps = (w, true) -> w = joined ps.
Proof.
  revert w. induction ps as [|p ps IH]; cbn [Fs.accepted]; intros w.
  - now intros [= <-].
  - destruct (encodable p); [|discriminate].
    destruct (Fs.accepted ps) as [w' ok]. intros [= <- ->].
    cbn [joined fold_right]. f_equal. now apply IH.
Qed.

Lemma macro_save_inv (path : string) (fs fs' : gmap string Fs.node)
  (m : Macro.t) :
  Macro.save path fs m = (fs', Ok tt) ->
  fs' = <[path := Fs.Regular (dumps (Macro.events m))]> fs.
Proof.
  unfold Macro.save, Fs.write_pieces.
  destruct (Fs.writable fs path); [|discriminate].
  destruct (Fs.accepted _) as [w [|]] eqn:E; [|discriminate].
  intros [= <-]. apply accepted_ok in E. now rewrite E, joined_pieces.
Qed.

(** *** Strings that cannot be written *)

Lemma encodable_suffix (a b : string) :
  encodable b = false -> encodable (a +:+ b) = false.
Proof.
  intros Hb. induction a as [|x a IH]; [exact Hb|].
  cbn [String.append encodable]. rewrite IH. apply andb_false_r.
Qed.

Lemma escape_char_high (c : ascii) :
  (128 <=? N_of_ascii c)%N = true -> escape_char c = String c EmptyString.
Proof.
  destruct c as [[] [] [] [] [] [] [] []]; intros E;
    try discriminate E; reflexivity.
Qed.

Lemma surrogate_at_high (a b : ascii) :
  surrogate_at a b = true ->
  (128 <=? N_of_ascii a)%N = true /\ (128 <=? N_of_ascii b)%N = true.
Proof.
  unfold surrogate_at. intros [Ha Hb]%andb_true_iff.
  apply N.eqb_eq in Ha. apply N.leb_le in Hb.
  split; apply N.leb_le; lia.
Qed.

Lemma encodable_escape_false (s : string) :
  encodable s = false -> forall rest, encodable (escape s +:+ rest) = false.
Proof.
  induction s as [|a r IH]; [discriminate|]. intros Hs rest.
  cbn [escape]. rewrite append_assoc.
  cbn [encodable] in Hs. apply andb_false_iff in Hs as [Hab | Hr].
  - destruct r as [|b r']; [discriminate|].
    apply negb_false_iff in Hab.
    destruct (surrogate_at_high a b Hab) as [Ha Hb].
    cbn [escape]. rewrite (escape_char_high a Ha), (escape_char_high b Hb).
    cbn [String.append encodable]. now rewrite Hab.
  - apply encodable_suffix. now apply IH.
Qed.

Lemma encodable_str_repr_false (s : string) :
  encodable s = false -> encodable (str_repr s) = false.
Proof.
  intros Hs. unfold str_repr.
  change (String quote ?r) with (String quote EmptyString +:+ r).
  apply encodable_suffix. now apply encodable_escape_false.
Qed.

Lemma accepted_torn (ps : list string) (w : string) :
  Fs.accepted ps = (w, false) ->
  exists rest, w +:+ rest = joined ps /\ rest <> EmptyString.
Proof.
  revert w. induction ps as [|p ps IH]; cbn [Fs.accepted]; intros w;
    [discriminate|].
  destruct (encodable p) eqn:Ep.
  - destruct (Fs.accepted ps) as [w' ok]. intros [= <- ->].
    destruct (IH w' eq_refl) as (rest & E & Hne).
    exists rest. split; [|exact Hne].
    cbn [joined fold_right]. fold (joined ps). now rewrite append_assoc, E.
  - intros [= <-]. exists (joined (p :: ps)). split; [reflexivity|].
    cbn [joined fold_right]. destruct p; [discriminate Ep | discriminate].
Qed.

Lemma accepted_bad (ps : list string) :
  Exists (fun p => encodable p = false) ps -> snd (Fs.accepted ps) = false.
Proof.
  induction 1 as [p ps Hp | p ps _ IH]; cbn [Fs.accepted].
  - now rewrite Hp.
  - destruct (encodable p); [|reflexivity].
    destruct (Fs.accepted ps) as [w ok]. exact IH.
Qed.

Lemma encodable_value_list (x : pyval) (l : list pyval) :
  encodable_value (PList (x :: l))
  = encodable_value x && encodable_value (PList l).
Proof. reflexivity. Qed.

Lemma encodable_value_dict (k : string) (x : pyval) (d : list (string * pyval)) :
  encodable_value (PDict ((k, x) :: d))
  = encodable k && encodable_value x && encodable_value (PDict d).
Proof. reflexivity. Qed.

Lemma bad_pieces_items (l : list pyval) :
  Forall (fun x => encodable_value x = false ->
                   Exists (fun p => encodable p = false) (pieces x)) l ->
  forall buf, encodable_value (PList l) = false ->
    Exists (fun p => encodable p = false) (pieces_items buf l).
Proof.
  induction 1 as [|x l Hx _ IH]; intros buf He; [discriminate|].
  rewrite encodable_value_list in He. apply andb_false_iff in He as [Ex | El].
  - destruct x; try discriminate Ex; cbn [pieces_items].
    + apply Exists_cons_hd. apply encodable_suffix.
      now apply encodable_str_repr_false.
    + apply Exists_cons_tl, Exists_app. left. auto.
    + apply Exists_cons_tl, Exists_app. left. auto.
  - specialize (IH ","%string El).
    destruct x; cbn [pieces_items];
      try (now apply Exists_cons_tl);
      apply Exists_cons_tl, Exists_app; now right.
Qed.

Lemma bad_pieces_members (d : list (string * pyval)) :
  Forall (fun kv => encodable_value (snd kv) = false ->
                    Exists (fun p => encodable p = false) (pieces (snd kv))) d ->
  forall sep, encodable_value (PDict d) = false ->
    Exists (fun p => encodable p = false) (pieces_members sep d).
Proof.
  induction 1 as [|[k x] d Hx _ IH]; intros sep He; [discriminate|].
  rewrite encodable_value_dict in He.
  cbn [pieces_members snd] in *. apply Exists_app. right.
  apply andb_false_iff in He as [[Ek | Ex]%andb_false_iff | Ed].
  - apply Exists_cons_hd. now apply encodable_str_repr_false.
  - do 2 apply Exists_cons_tl. apply Exists_app. left. auto.
  - do 2 apply Exists_cons_tl. apply Exists_app. right. now apply IH.
Qed.

(** A value that holds a surrogate has a piece that cannot be written. *)
Lemma bad_pieces (v : pyval) :
  encodable_value v = false -> Exists (fun p => encodable p = false) (pieces v).
Proof.
  induction v as [|b|z|d|s|l IH|d IH] using pyval_induction; intros He;
    try discriminate He.
  - apply Exists_cons_hd. now apply encodable_str_repr_false.
  - destruct l as [|x l]; [discriminate|].
    rewrite pieces_list. now apply bad_pieces_items.
  - destruct d as [|kv d]; [discriminate|].
    rewrite pieces_dict. apply Exists_cons_tl. now apply bad_pieces_members.
Qed.

(** Events that hold a surrogate are not saved: on a path that can be
    written the file is emptied, part of the text is written and the
    call raises. *)
Lemma macro_save_torn (path : string) (fs : gmap string Fs.node) (m : Macro.t) :
  Fs.writable fs path = true -> encodable_value (Macro.events m) = false ->
  exists w rest,
    Macro.save path fs m
    = (<[path := Fs.Regular w]> fs, Raise UnicodeEncodeError) /\
    w +:+ rest = dumps (Macro.events m) /\ rest <> EmptyString.
Proof.
  intros Hw He. unfold Macro.save, Fs.write_pieces. rewrite Hw.
  pose proof (accepted_bad _ (bad_pieces _ He)) as Hb.
  destruct (Fs.accepted (pieces (Macro.events m))) as [w ok] eqn:E.
  cbn [snd] in Hb. subst ok.
  destruct (accepted_torn _ _ E) as (rest & Er & Hne).
  exists w, rest. rewrite <- joined_pieces. auto.
Qed.

Lemma load_cases (path : string) (fs : gmap string Fs.node) (m : Macro.t) :
  Macro.load path fs m =
  match fs !! path with
  | Some (Fs.Regular text) =>
      match loads text with
      | Some v => (Macro.set_events v m, Ok tt)
      | None => (m, Raise JSONDecodeError)
      end
  | Some Fs.Undecodable => (m, Raise UnicodeDecodeError)
  | Some Fs.Denied | Some Fs.Directory | Some Fs.Unreachable | None =>
      (m, Raise OSError)
  end.
Proof.
  unfold Macro.load, Fs.read_text.
  destruct (fs !! path) as [[text| | | |]|]; reflexivity.
Qed.




(** C10. A [load] that raises leaves the macro, and so its events, as it
    was; the macro changes only when the file was read and decoded, and
    then its events are the decoded value. *)
Theorem load_atomic :
  forall (path : string) (fs : gmap string Fs.node) (m : Macro.t),
    (forall e, snd (Macro.load path fs m) = Raise e ->
               fst (Macro.load path fs m) = m /\
               Macro.events (fst (Macro.load path fs m)) = Macro.events m) /\
    (fst (Macro.load path fs m) <> m ->
     exists text v, Fs.read_text fs path = Ok text /\ loads text = Some v /\
                    Macro.load path fs m = (Macro.set_events v m, Ok tt)).
Proof.
  intros path fs m. rewrite load_cases. unfold Fs.read_text.
  destruct (fs !! path) as [[text| | | |]|];
    [destruct (loads text) as [v|] eqn:El|..]; cbn [fst snd];
    (split; [intros e H; try discriminate H; auto | intros H; try contradiction]).
  eauto.
Qed.

(** A file that is not JSON: the events recorded before stay. *)
Lemma load_atomic_witness :
  let fs : gmap string Fs.node := {[ "macro.json"%string := Fs.Regular "[1," ]} in
  let m := Macro.set_events (PList [PInt 1]) Macro.__init__ in
  snd (Macro.load "macro.json" fs m) = Raise JSONDecodeError /\
  Macro.events (fst (Macro.load "macro.json" fs m)) = PList [PInt 1].
Proof.
  intros fs m. split; [reflexivity|].
  exact (proj2 (proj1 (load_atomic "macro.json" fs m) JSONDecodeError eq_refl)).
Defined.

End MacroStore.

(** ** Playback *)

Section Player.
Import Macro.
Context (H : host).

Lemma interleave_quiet (abort : nat -> bool) (k : nat) (m : t) :
  quiet abort -> interleave abort k m = m.
Proof. intros Hq. unfold interleave. now rewrite Hq. Qed.

(** Without an abort the inner loop is one pass over the events. *)
Lemma play_events_quiet (abort : nat -> bool) (speed : pyval)
  (suppress : list string) (evs : list pyval) :
  quiet abort ->
  forall (k : nat) (m : t), _stop_flag m = false ->
    exists k', play_events H abort speed suppress evs k m
               = (m, k', one_pass H speed suppress evs).
Proof.
  intros Hq. induction evs as [|ev evs IH]; intros k m Hf;
    cbn [play_events one_pass].
  - eauto.
  - rewrite interleave_quiet, Hf by assumption. unfold obind.
    destruct (apply_event H speed suppress ev) as [tr [[]|e]]; [|eauto].
    destruct (IH (S k) m Hf) as [k' ->].
    destruct (one_pass H speed suppress evs) as [tr' res]. eauto.
Qed.

(** Without an abort the outer loop repeats the pass [n] times. *)
Lemma play_loops_quiet (abort : nat -> bool) (speed : pyval)
  (suppress : list string) (evs : list pyval) (tr : list action) (n : nat) :
  quiet abort ->
  one_pass H speed suppress evs = (tr, Ok tt) ->
  forall (k : nat) (m : t),
    _stop_flag m = false -> py_iter (events m) = Ok evs ->
    exists k', play_loops H abort speed suppress n k m
               = (m, k', (repeat_trace n tr, Ok tt)).
Proof.
  intros Hq Hp. induction n as [|n IH]; intros k m Hf Hi;
    cbn [play_loops repeat_trace].
  - eauto.
  - rewrite interleave_quiet, Hf, Hi by assumption.
    destruct (play_events_quiet abort speed suppress evs Hq (S k) m Hf) as [k1 ->].
    rewrite Hp. destruct (IH k1 m Hf Hi) as [k2 ->]. eauto.
Qed.

(** A playback nobody aborts: the opening move, then the pass repeated
    [max(1, loops)] times. *)
Lemma play_quiet (abort : nat -> bool) (speed loops : pyval)
  (suppress : list string) (m : t) (evs : list pyval)
  (first : option (Z * Z)) (n : Z) (tr : list action) :
  quiet abort ->
  py_truthy (events m) = true ->
  py_iter (events m) = Ok evs ->
  _first_xy H m = Ok first ->
  Forall (fun a => rejects H a = false) (first_move first) ->
  py_int H loops = Ok n ->
  one_pass H speed suppress evs = (tr, Ok tt) ->
  play H abort speed loops suppress m
  = (set_stop_flag false m,
     (first_move first ++ repeat_trace (Z.to_nat (Z.max 1 n)) tr, Ok tt)).
Proof.
  intros Hq Ht Hi Hfx Hrej Hn Hp. unfold play. rewrite Ht. cbn [negb].
  replace (_first_xy H (set_stop_flag false m)) with (_first_xy H m) by reflexivity.
  rewrite Hfx.
  assert (Hemit : (match first with
                   | Some (x, y) => emit H (SetPosition x y)
                   | None => lift (Ok tt)
                   end) = (first_move first, Ok tt)).
  { destruct first as [[x y]|]; [|reflexivity]. cbn in Hrej.
    apply Forall_cons in Hrej as [Hr _]. unfold emit. now rewrite Hr. }
  rewrite Hemit, Hn.
  destruct (play_loops_quiet abort speed suppress evs tr (Z.to_nat (Z.max 1 n))
              Hq Hp 0%nat (set_stop_flag false m) eq_refl Hi) as [k' ->].
  reflexivity.
Qed.

Lemma clamp_speed_floor (s : dec) :
  (1 # 1000 <= dec_to_Q (clamp_speed s))%Q /\ (0 < dec_to_Q (clamp_speed s))%Q.
Proof.
  assert (Hf : (1 # 1000 <= dec_to_Q (clamp_speed s))%Q).
  { unfold clamp_speed.
    destruct (Qle_bool (dec_to_Q s) (1 # 1000)) eqn:E.
    - vm_compute. discriminate.
    - apply Qlt_le_weak, Qnot_le_lt. intros Hle.
      apply Qle_bool_iff in Hle. congruence. }
  split; [exact Hf|]. eapply Qlt_le_trans; [|exact Hf]. reflexivity.
Qed.

Lemma scaled_delay_divisor (speed ev : pyval) (q : Q) :
  scaled_delay H speed ev = Ok q ->
  exists t s, py_float H speed = Ok s /\
              q = (dec_to_Q t / dec_to_Q (clamp_speed s))%Q.
Proof.
  unfold scaled_delay, bind.
  destruct (py_get_default ev "t" (PInt 0)) as [vt|]; [|discriminate].
  destruct (py_float H vt) as [t|]; [|discriminate].
  destruct (py_float H speed) as [s|]; [|discriminate].
  intros [= <-]. eauto.
Qed.

(** C4. The divisor of every delay is [max(0.001, speed)], at least
    0.001 and so positive, whatever the speed; and a playback nobody
    aborts, whose events all apply, makes its opening move and then
    replays the events [max(1, loops)] times: once when [loops < 1]. *)
Theorem play_clamps_speed_and_loops :
  forall (abort : nat -> bool) (speed loops : pyval) (suppress : list string)
         (m : t) (evs : list pyval) (first : option (Z * Z)) (n : Z)
         (tr : list action),
    quiet abort ->
    py_truthy (events m) = true ->
    py_iter (events m) = Ok evs ->
    _first_xy H m = Ok first ->
    Forall (fun a => rejects H a = false) (first_move first) ->
    py_int H loops = Ok n ->
    one_pass H speed suppress evs = (tr, Ok tt) ->
    (forall s, (1 # 1000 <= dec_to_Q (clamp_speed s))%Q /\
               (0 < dec_to_Q (clamp_speed s))%Q) /\
    (forall ev q, scaled_delay H speed ev = Ok q ->
       exists t s, py_float H speed = Ok s /\
                   q = (dec_to_Q t / dec_to_Q (clamp_speed s))%Q) /\
    play H abort speed loops suppress m
    = (set_stop_flag false m,
       (first_move first ++ repeat_trace (Z.to_nat (Z.max 1 n)) tr, Ok tt)) /\
    (n < 1 -> Z.to_nat (Z.max 1 n) = 1%nat).
Proof.
  intros abort speed loops suppress m evs first n tr Hq Ht Hi Hfx Hrej Hn Hp.
  split; [apply clamp_speed_floor|].
  split; [apply scaled_delay_divisor|].
  split; [now apply play_quiet with (evs := evs)|].
  intros Hlt. now rewrite Z.max_l by lia.
Qed.

End Player.

(** Speed 0 and [loops = -3]: the two moves are replayed once, each delay
    divided by 0.001. *)
Lemma play_clamps_speed_and_loops_witness :
  let m := Macro.set_events
             (PList [PDict [("t", PInt 0); ("type", PStr "move");
                            ("x", PInt 1); ("y", PInt 2)];
                     PDict [("t", PFloat (Dec 5 (-1))); ("type", PStr "move");
                            ("x", PInt 3); ("y", PInt 4)]]%string)
             Macro.__init__ in
  Macro.play example_host (fun _ => false) (PInt 0) (PInt (-3)) [] m
  = (Macro.set_stop_flag false m,
     ([SetPosition 1 2] ++
      Macro.repeat_trace 1 [SetPosition 1 2; Sleep (5000 # 10); SetPosition 3 4],
      Ok tt)).
Proof.
  intros m.
  refine (proj1 (proj2 (proj2
    (play_clamps_speed_and_loops example_host (fun _ => false) (PInt 0)
       (PInt (-3)) [] m _ (Some (1, 2)) (-3) _ _ eq_refl eq_refl eq_refl _
       eq_refl _)))).
  - intros k. reflexivity.
  - repeat constructor.
  - reflexivity.
Defined.

(** ** The flag at the start of a playback, and the opening move *)

Section PlayerStart.
Import Macro.
Context (H : host).

Lemma play_after_abort (abort : nat -> bool) (speed loops : pyval)
  (suppress : list string) (m : t) :
  py_truthy (events m) = true ->
  play H abort speed loops suppress (abort_playback m)
  = play H abort speed loops suppress m.
Proof. intros Ht. unfold play. cbn [abort_playback set_stop_flag events]. now rewrite Ht. Qed.

(** C9. On events that are not empty, a flag set before the call, once
    or several times, changes nothing: the playback is the one of the
    macro with the flag down.  If no abort comes after the start, that
    playback is complete; if one comes before the first test of the flag,
    the playback stops there, after its opening move. *)
Theorem stale_abort_discarded :
  forall (abort : nat -> bool) (speed loops : pyval) (suppress : list string)
         (m : t),
    py_truthy (events m) = true ->
    play H abort speed loops suppress (abort_playback m)
    = play H abort speed loops suppress m /\
    play H abort speed loops suppress (abort_playback (abort_playback m))
    = play H abort speed loops suppress m /\
    (quiet abort ->
     forall evs first n tr,
       py_iter (events m) = Ok evs ->
       _first_xy H m = Ok first ->
       Forall (fun a => rejects H a = false) (first_move first) ->
       py_int H loops = Ok n ->
       one_pass H speed suppress evs = (tr, Ok tt) ->
       play H abort speed loops suppress (abort_playback m)
       = (set_stop_flag false m,
          (first_move first ++ repeat_trace (Z.to_nat (Z.max 1 n)) tr, Ok tt))) /\
    (abort 0%nat = true ->
     forall first n,
       _first_xy H m = Ok first ->
       Forall (fun a => rejects H a = false) (first_move first) ->
       py_int H loops = Ok n ->
       play H abort speed loops suppress m
       = (abort_playback (set_stop_flag false m), (first_move first, Ok tt))).
Proof.
  intros abort speed loops suppress m Ht.
  split; [now apply play_after_abort|].
  split; [now rewrite !play_after_abort|].
  split.
  - intros Hq evs first n tr Hi Hfx Hrej Hn Hp.
    rewrite play_after_abort by assumption.
    now apply play_quiet with (evs := evs).
  - intros Ha first n Hfx Hrej Hn. unfold play. rewrite Ht. cbn [negb].
    replace (_first_xy H (set_stop_flag false m)) with (_first_xy H m) by reflexivity.
    rewrite Hfx.
    assert (Hemit : (match first with
                     | Some (x, y) => emit H (SetPosition x y)
                     | None => lift (Ok tt)
                     end) = (first_move first, Ok tt)).
    { destruct first as [[x y]|]; [|reflexivity]. cbn in Hrej.
      apply Forall_cons in Hrej as [Hr _]. unfold emit. now rewrite Hr. }
    rewrite Hemit, Hn.
    destruct (Z.to_nat (Z.max 1 n)) as [|k] eqn:Ek; [lia|].
    cbn [play_loops]. unfold interleave. rewrite Ha. cbn.
    now rewrite app_nil_r.
Qed.

End PlayerStart.

(** An abort before the call and none during it: both moves are
    replayed, twice. *)
Lemma stale_abort_discarded_witness :
  let m := Macro.set_events
             (PList [PDict [("t", PInt 0); ("type", PStr "move");
                            ("x", PInt 1); ("y", PInt 2)];
                     PDict [("t", PInt 0); ("type", PStr "move");
                            ("x", PInt 3); ("y", PInt 4)]]%string)
             Macro.__init__ in
  Macro.play example_host (fun _ => false) (PInt 1) (PInt 2) []
    (Macro.abort_playback m)
  = (Macro.set_stop_flag false m,
     ([SetPosition 1 2] ++
      Macro.repeat_trace 2 [SetPosition 1 2; SetPosition 3 4], Ok tt)).
Proof.
  intros m.
  refine (proj1 (proj2 (proj2
    (stale_abort_discarded example_host (fun _ => false) (PInt 1) (PInt 2)
       [] m eq_refl))) _ _ (Some (1, 2)) 2 _ eq_refl eq_refl _ eq_refl eq_refl).
  - intros k. reflexivity.
  - repeat constructor.
Defined.

Section OpeningMove.
Import Macro.
Context (H : host).

Lemma first_xy_in_skip (pre rest : list pyval) :
  Forall (fun e => non_positional e = true) pre ->
  first_xy_in H (pre ++ rest) = first_xy_in H rest.
Proof.
  induction 1 as [|ev pre Hev _ IH]; [reflexivity|].
  destruct ev as [| | | | | |d]; try discriminate Hev.
  cbn in Hev |- *. apply negb_true_iff in Hev. now rewrite Hev.
Qed.

Lemma first_xy_in_hit (ev : pyval) (post : list pyval) (x y : Z) :
  positional ev = true ->
  int_field_default H ev "x" = Ok x ->
  int_field_default H ev "y" = Ok y ->
  first_xy_in H (ev :: post) = Ok (Some (x, y)).
Proof.
  intros Hev Hx Hy. destruct ev as [| | | | | |d]; try discriminate Hev.
  cbn [first_xy_in py_get bind]. cbn in Hev. rewrite Hev, Hx, Hy. reflexivity.
Qed.

Lemma first_xy_in_none (l : list pyval) :
  Forall (fun e => non_positional e = true) l -> first_xy_in H l = Ok None.
Proof.
  intros Hl. rewrite <- (app_nil_r l). now rewrite first_xy_in_skip.
Qed.

Lemma emit_quiet (a : action) :
  is_set_position a = false -> quiet_pointer (fst (emit H a)).
Proof.
  intros Ha. unfold emit. destruct (rejects H a); cbn; repeat constructor; auto.
Qed.

Lemma obind_quiet {A B} (m : out A) (k : A -> out B) :
  quiet_pointer (fst m) ->
  (forall a, snd m = Ok a -> quiet_pointer (fst (k a))) ->
  quiet_pointer (fst (obind m k)).
Proof.
  intros Hm Hk. destruct m as [tr [a|e]]; cbn in *; [|exact Hm].
  specialize (Hk a eq_refl). destruct (k a) as [tr' r]. cbn in *.
  apply Forall_app. split; assumption.
Qed.

Lemma lift_quiet {A} (r : result A) : quiet_pointer (fst (lift r)).
Proof. constructor. Qed.

(** An event that is not positional moves no pointer. *)
Lemma apply_event_quiet (speed : pyval) (suppress : list string) (ev : pyval) :
  non_positional ev = true ->
  quiet_pointer (fst (apply_event H speed suppress ev)).
Proof.
  intros Hev. destruct ev as [| | | | | |d]; try discriminate Hev.
  cbn in Hev. apply negb_true_iff in Hev. unfold is_positional in Hev.
  apply orb_false_iff in Hev as [Hev Hs]. apply orb_false_iff in Hev as [Hm Hc].
  unfold apply_event.
  apply obind_quiet; [apply lift_quiet|]. intros t _.
  apply obind_quiet.
  { destruct (Qle_bool t 0); [apply lift_quiet | repeat constructor]. }
  intros _ _. apply obind_quiet; [apply lift_quiet|]. intros typ Htyp.
  cbn in Htyp. injection Htyp as <-. rewrite Hm, Hc, Hs.
  destruct (py_is_str (assoc_get "type" d) "key"); [|apply lift_quiet].
  apply obind_quiet; [apply lift_quiet|]. intros [keyobj|] _; [|apply lift_quiet].
  apply obind_quiet; [apply lift_quiet|]. intros action _.
  destruct (py_is_str action "press"); now apply emit_quiet.
Qed.

Lemma play_events_quiet_pointer (abort : nat -> bool) (speed : pyval)
  (suppress : list string) (evs : list pyval) :
  Forall (fun e => non_positional e = true) evs ->
  forall (k : nat) (m : t),
    quiet_pointer (fst (snd (play_events H abort speed suppress evs k m))).
Proof.
  induction 1 as [|ev evs Hev _ IH]; intros k m; cbn [play_events].
  - constructor.
  - destruct (_stop_flag (interleave abort k m)); [constructor|].
    pose proof (apply_event_quiet speed suppress ev Hev) as Hq.
    destruct (apply_event H speed suppress ev) as [tr [[]|e]]; [|exact Hq].
    specialize (IH (S k) (interleave abort k m)).
    destruct (play_events H abort speed suppress evs (S k) (interleave abort k m))
      as [[m' k'] [tr' res]].
    cbn in *. apply Forall_app. split; assumption.
Qed.

(** Playback changes nothing in the macro but the flag. *)
Lemma play_events_events (abort : nat -> bool) (speed : pyval)
  (suppress : list string) (evs : list pyval) :
  forall (k : nat) (m : t),
    events (fst (fst (play_events H abort speed suppress evs k m))) = events m.
Proof.
  induction evs as [|ev evs IH]; intros k m; cbn [play_events]; [reflexivity|].
  assert (He : events (interleave abort k m) = events m).
  { unfold interleave. destruct (abort k); reflexivity. }
  destruct (_stop_flag (interleave abort k m)); [exact He|].
  destruct (apply_event H speed suppress ev) as [tr [[]|e]]; [|exact He].
  specialize (IH (S k) (interleave abort k m)).
  destruct (play_events H abort speed suppress evs (S k) (interleave abort k m))
    as [[m' k'] [tr' res]].
  cbn in *. congruence.
Qed.

Lemma play_loops_quiet_pointer (abort : nat -> bool) (speed : pyval)
  (suppress : list string) (l : list pyval) (n : nat) :
  Forall (fun e => non_positional e = true) l ->
  forall (k : nat) (m : t),
    events m = PList l ->
    quiet_pointer (fst (snd (play_loops H abort speed suppress n k m))).
Proof.
  intros Hl. induction n as [|n IH]; intros k m He; cbn [play_loops].
  - constructor.
  - assert (He' : events (interleave abort k m) = PList l).
    { unfold interleave. destruct (abort k); exact He. }
    destruct (_stop_flag (interleave abort k m)); [constructor|].
    rewrite He'. cbn [py_iter].
    pose proof (play_events_quiet_pointer abort speed suppress l Hl (S k)
                  (interleave abort k m)) as Hq.
    assert (Hm : events (fst (fst (play_events H abort speed suppress l (S k)
                                     (interleave abort k m)))) = PList l).
    { now rewrite play_events_events. }
    destruct (play_events H abort speed suppress l (S k) (interleave abort k m))
      as [[m' k'] [tr [[]|e]]]; [|exact Hq].
    specialize (IH k' m' Hm).
    destruct (play_loops H abort speed suppress n k' m') as [[m'' k''] [tr' res]].
    cbn in *. apply Forall_app. split; assumption.
Qed.

(** C8. When the events hold a positional event (after events that are
    not positional), the first call a playback makes, before any sleep and
    before any event, moves the pointer to the coordinates of that event;
    when they hold none, the playback never moves the pointer. *)
Theorem opening_pointer_move :
  forall (abort : nat -> bool) (speed loops : pyval) (suppress : list string)
         (m : t),
    (forall pre ev post x y,
        events m = PList (pre ++ ev :: post) ->
        Forall (fun e => non_positional e = true) pre ->
        positional ev = true ->
        int_field_default H ev "x" = Ok x ->
        int_field_default H ev "y" = Ok y ->
        rejects H (SetPosition x y) = false ->
        exists m' tr res,
          play H abort speed loops suppress m
          = (m', (SetPosition x y :: tr, res))) /\
    (forall l,
        events m = PList l ->
        Forall (fun e => non_positional e = true) l ->
        Forall (fun a => is_set_position a = false)
               (fst (snd (play H abort speed loops suppress m)))).
Proof.
  intros abort speed loops suppress m. split.
  - intros pre ev post x y He Hpre Hev Hx Hy Hrej. unfold play.
    assert (Ht : py_truthy (events m) = true)
      by (rewrite He; destruct pre; reflexivity).
    rewrite Ht. cbn [negb].
    replace (_first_xy H (set_stop_flag false m)) with (_first_xy H m) by reflexivity.
    unfold _first_xy. rewrite He. cbn [py_iter bind].
    rewrite first_xy_in_skip by assumption.
    rewrite (first_xy_in_hit ev post x y) by assumption.
    unfold emit. rewrite Hrej.
    destruct (py_int H loops) as [n|e]; [|eauto].
    destruct (play_loops H abort speed suppress (Z.to_nat (Z.max 1 n)) 0
                (set_stop_flag false m)) as [[m' k'] [tr res]].
    cbn. eauto.
  - intros l He Hl. unfold play.
    destruct (py_truthy (events m)); cbn [negb]; [|constructor].
    replace (_first_xy H (set_stop_flag false m)) with (_first_xy H m) by reflexivity.
    unfold _first_xy. rewrite He. cbn [py_iter bind].
    rewrite first_xy_in_none by assumption. cbn [lift].
    destruct (py_int H loops) as [n|e]; [|constructor].
    pose proof (play_loops_quiet_pointer abort speed suppress l
                  (Z.to_nat (Z.max 1 n)) Hl 0%nat (set_stop_flag false m) He) as Hq.
    destruct (play_loops H abort speed suppress (Z.to_nat (Z.max 1 n)) 0
                (set_stop_flag false m)) as [[m' k'] [tr res]].
    exact Hq.
Qed.

End OpeningMove.

(** A key press, then a click at (30, 40): the playback opens with a
    move to (30, 40). *)
Lemma opening_pointer_move_witness :
  let m := Macro.set_events
             (PList [PDict [("t", PInt 0); ("type", PStr "key");
                            ("action", PStr "press"); ("kind", PStr "char");
                            ("key", PStr "a")];
                     PDict [("t", PInt 0); ("type", PStr "click");
                            ("x", PInt 30); ("y", PInt 40);
                            ("button", PStr "left"); ("pressed", PBool true)]]%string)
             Macro.__init__ in
  exists m' tr res,
    Macro.play example_host (fun _ => false) (PInt 1) (PInt 1) [] m
    = (m', (SetPosition 30 40 :: tr, res)).
Proof.
  intros m.
  refine (proj1 (opening_pointer_move example_host (fun _ => false) (PInt 1)
                   (PInt 1) [] m) [_] _ [] 30 40 eq_refl _ eq_refl eq_refl
                   eq_refl eq_refl).
  repeat constructor.
Defined.

(** ** Replaying a macro that was saved and loaded *)

Section RoundTripReplay.
Import Macro.

Lemma interleave_same (abort : nat -> bool) (k : nat) (m1 m2 : t) :
  same_play m1 m2 -> same_play (interleave abort k m1) (interleave abort k m2).
Proof.
  intros [He Hf]. unfold interleave. destruct (abort k); split; cbn; auto.
Qed.

Lemma play_events_same (H : host) (abort : nat -> bool) (speed : pyval)
  (suppress : list string) (evs : list pyval) :
  forall (k : nat) (m1 m2 : t),
    same_play m1 m2 ->
    same_play (fst (fst (play_events H abort speed suppress evs k m1)))
              (fst (fst (play_events H abort speed suppress evs k m2))) /\
    snd (fst (play_events H abort speed suppress evs k m1))
    = snd (fst (play_events H abort speed suppress evs k m2)) /\
    snd (play_events H abort speed suppress evs k m1)
    = snd (play_events H abort speed suppress evs k m2).
Proof.
  induction evs as [|ev evs IH]; intros k m1 m2 Hs; cbn [play_events].
  - auto.
  - pose proof (interleave_same abort k m1 m2 Hs) as Hi.
    set (i1 := interleave abort k m1) in *.
    set (i2 := interleave abort k m2) in *.
    assert (Hf : _stop_flag i2 = _stop_flag i1) by (symmetry; apply Hi).
    rewrite Hf. destruct (_stop_flag i1); [cbn; auto|].
    destruct (apply_event H speed suppress ev) as [tr [[]|e]]; [|cbn; auto].
    destruct (IH (S k) i1 i2 Hi) as (Hs' & Hk & Ho).
    destruct (play_events H abort speed suppress evs (S k) i1)
      as [[m1' k1] [tr1 r1]].
    destruct (play_events H abort speed suppress evs (S k) i2)
      as [[m2' k2] [tr2 r2]].
    destruct Hs' as [? ?]. cbn in *. repeat split; congruence.
Qed.

Lemma play_loops_same (H : host) (abort : nat -> bool) (speed : pyval)
  (suppress : list string) (n : nat) :
  forall (k : nat) (m1 m2 : t),
    same_play m1 m2 ->
    same_play (fst (fst (play_loops H abort speed suppress n k m1)))
              (fst (fst (play_loops H abort speed suppress n k m2))) /\
    snd (fst (play_loops H abort speed suppress n k m1))
    = snd (fst (play_loops H abort speed suppress n k m2)) /\
    snd (play_loops H abort speed suppress n k m1)
    = snd (play_loops H abort speed suppress n k m2).
Proof.
  induction n as [|n IH]; intros k m1 m2 Hs; cbn [play_loops].
  - auto.
  - pose proof (interleave_same abort k m1 m2 Hs) as Hi.
    set (i1 := interleave abort k m1) in *.
    set (i2 := interleave abort k m2) in *.
    assert (Hf : _stop_flag i2 = _stop_flag i1) by (symmetry; apply Hi).
    assert (He : events i2 = events i1) by (symmetry; apply Hi).
    rewrite Hf, He. destruct (_stop_flag i1); [cbn; auto|].
    destruct (py_iter (events i1)) as [evs|e]; [|cbn; auto].
    destruct (play_events_same H abort speed suppress evs (S k) i1 i2 Hi)
      as (Hs' & Hk & Ho).
    destruct (play_events H abort speed suppress evs (S k) i1)
      as [[m1' k1] [tr1 r1]].
    destruct (play_events H abort speed suppress evs (S k) i2)
      as [[m2' k2] [tr2 r2]].
    cbn in Hs', Hk, Ho. injection Ho as <- <-. subst k2.
    destruct r1 as [[]|e]; [|cbn; destruct Hs'; repeat split; auto].
    destruct (IH k1 m1' m2' Hs') as (Hs'' & Hk' & Ho').
    destruct (play_loops H abort speed suppress n k1 m1') as [[m1'' k1'] [tr1' r1']].
    destruct (play_loops H abort speed suppress n k1 m2') as [[m2'' k2'] [tr2' r2']].
    destruct Hs'' as [? ?]. cbn in *. repeat split; congruence.
Qed.

(** Two macros with the same events are played alike. *)
Lemma play_same_events (H : host) (abort : nat -> bool) (speed loops : pyval)
  (suppress : list string) (m1 m2 : t) :
  events m1 = events m2 ->
  snd (play H abort speed loops suppress m1)
  = snd (play H abort speed loops suppress m2).
Proof.
  intros He. unfold play. rewrite He.
  destruct (py_truthy (events m2)); cbn [negb]; [|reflexivity].
  unfold _first_xy. cbn [set_stop_flag events]. rewrite He.
  destruct (evs <- py_iter (events m2) ;; first_xy_in H evs) as [first|e];
    [|reflexivity].
  destruct (match first with
            | Some (x, y) => emit H (SetPosition x y)
            | None => lift (Ok tt)
            end) as [tr0 [[]|e]]; [|reflexivity].
  destruct (py_int H loops) as [n|e]; [|reflexivity].
  destruct (play_loops_same H abort speed suppress (Z.to_nat (Z.max 1 n)) 0
              (set_stop_flag false m1) (set_stop_flag false m2))
    as (_ & _ & Ho); [split; [exact He | reflexivity]|].
  destruct (play_loops H abort speed suppress (Z.to_nat (Z.max 1 n)) 0
              (set_stop_flag false m1)) as [[m1' k1] [tr1 r1]].
  destruct (play_loops H abort speed suppress (Z.to_nat (Z.max 1 n)) 0
              (set_stop_flag false m2)) as [[m2' k2] [tr2 r2]].
  cbn in *. congruence.
Qed.

(** C3. Whatever the events are, once [save] has written them to a path,
    [load] from that path succeeds and stores events equal to the ones
    saved (the keys of a dict being pairwise distinct, as in Python); so
    the macro loaded is played exactly as the macro saved: same calls,
    same outcome. *)
Theorem save_load_roundtrip :
  forall (path : string) (fs fs' : gmap string Fs.node) (m m0 : t),
    wf_pyval (events m) ->
    save path fs m = (fs', Ok tt) ->
    load path fs' m0 = (set_events (events m) m0, Ok tt) /\
    events (fst (load path fs' m0)) = events m /\
    (forall H abort speed loops suppress,
        snd (play H abort speed loops suppress (fst (load path fs' m0)))
        = snd (play H abort speed loops suppress m)).
Proof.
  intros path fs fs' m m0 Hwf Hsave.
  assert (Hfs : fs' !! path = Some (Fs.Regular (Json.dumps (events m)))).
  { rewrite (macro_save_inv _ _ _ _ Hsave). apply lookup_insert_eq. }
  assert (Hl : load path fs' m0 = (set_events (events m) m0, Ok tt)).
  { rewrite load_cases, Hfs. now rewrite loads_dumps. }
  rewrite Hl. cbn [fst]. repeat split.
  intros H abort speed loops suppress. now apply play_same_events.
Qed.

End RoundTripReplay.

(** Two recorded events, saved to a fresh path and loaded into a new
    macro. *)
Lemma save_load_roundtrip_witness :
  let evs := PList [PDict [("t", PInt 0); ("type", PStr "move");
                           ("x", PInt 10); ("y", PInt (-4))];
                    PDict [("t", PFloat (Dec 125 (-3))); ("type", PStr "key");
                           ("action", PStr "press"); ("kind", PStr "char");
                           ("key", PStr "a")]]%string in
  let m := Macro.set_events evs Macro.__init__ in
  exists fs', Macro.save "macro.json" ∅ m = (fs', Ok tt) /\
              Macro.load "macro.json" fs' Macro.__init__
              = (Macro.set_events evs Macro.__init__, Ok tt).
Proof.
  intros evs m. eexists. split; [reflexivity|].
  apply (save_load_roundtrip "macro.json" ∅ _ m Macro.__init__); [|reflexivity].
  cbn. repeat split; apply (bool_decide_unpack _); vm_compute; reflexivity.
Defined.

(** ** The scheduler: start and firing *)

Section SchedulerFailures.
Import Scheduler.

(** C6. Building a scheduler never raises.  When the file of the table
    is missing, cannot be opened or reached, is not text or is not JSON, the
    scheduler starts with the empty table; otherwise its table is the
    decoded value. *)
Theorem scheduler_starts_empty_on_failure :
  forall (path : string) (fs : gmap string Fs.node),
    exists s, __init__ path fs = Ok s /\ _persist_path s = path /\
      (fs !! path = None \/ fs !! path = Some Fs.Denied \/
       fs !! path = Some Fs.Directory \/ fs !! path = Some Fs.Unreachable \/
       fs !! path = Some Fs.Undecodable \/
       (exists text, fs !! path = Some (Fs.Regular text) /\
                     ~ Json.well_formed text) ->
       _events s = PDict []) /\
      (forall text v, fs !! path = Some (Fs.Regular text) ->
                      Json.loads text = Some v -> _events s = v).
Proof.
  intros path fs. unfold __init__, load, try_except, Fs.read_text, bind.
  cbn [_persist_path].
  destruct (fs !! path) as [[text| | | |]|] eqn:E;
    [destruct (Json.loads text) as [v|] eqn:El|..];
    eexists; (split; [reflexivity|]); (split; [reflexivity|]); cbn [_events set_events];
    (split; [intros [?|[?|[?|[?|[?|(? & ? & Hn)]]]]];
                try apply loads_none in Hn; congruence
            | intros ? ? ? ?; congruence]).
Qed.

Context (H : host).

Lemma fire_all_spec (fs : gmap string Fs.node) (due : list pyval) :
  fire_all H fs due
  = (concat (map (fun e => fst (_run_event H fs e)) due), Ok tt).
Proof.
  induction due as [|e due IH]; [reflexivity|].
  cbn [fire_all map concat]. unfold guarded, obind. now rewrite IH.
Qed.



End SchedulerFailures.

(** ** Dates and their text *)

Section IsoOrder.

Lemma lex_Eq_r (c : comparison) : lex c Eq = c.
Proof. now destruct c. Qed.

Lemma compare_cons_same (c : ascii) (x y : string) :
  String.compare (String c x) (String c y) = String.compare x y.
Proof.
  cbn [String.compare]. unfold Ascii.compare. now rewrite N.compare_refl.
Qed.

Lemma digit_char_compare (a b : Z) :
  0 <= a <= 9 -> 0 <= b <= 9 ->
  Ascii.compare (digit_char a) (digit_char b) = (a ?= b).
Proof.
  intros Ha Hb.
  assert (Ea : a = 0 \/ a = 1 \/ a = 2 \/ a = 3 \/ a = 4 \/ a = 5 \/
               a = 6 \/ a = 7 \/ a = 8 \/ a = 9) by lia.
  assert (Eb : b = 0 \/ b = 1 \/ b = 2 \/ b = 3 \/ b = 4 \/ b = 5 \/
               b = 6 \/ b = 7 \/ b = 8 \/ b = 9) by lia.
  clear Ha Hb.
  repeat (destruct Ea as [-> | Ea]); try subst a;
    repeat (destruct Eb as [-> | Eb]); try subst b; reflexivity.
Qed.

(** Comparing two numbers is comparing their quotients, then their
    remainders. *)
Lemma compare_div_mod (a b p : Z) :
  0 < p -> (a ?= b) = lex (a / p ?= b / p) (a mod p ?= b mod p).
Proof.
  intros Hp.
  pose proof (Z.div_mod a p ltac:(lia)) as Ea.
  pose proof (Z.div_mod b p ltac:(lia)) as Eb.
  pose proof (Z.mod_pos_bound a p Hp) as Ba.
  pose proof (Z.mod_pos_bound b p Hp) as Bb.
  destruct (Z.compare_spec (a / p) (b / p)) as [E | L | G]; cbn [lex].
  - destruct (Z.compare_spec (a mod p) (b mod p)) as [E' | L' | G'].
    + apply Z.compare_eq_iff. congruence.
    + apply Z.compare_lt_iff. rewrite Ea, Eb, E. lia.
    + apply Z.compare_gt_iff. rewrite Ea, Eb, E. lia.
  - apply Z.compare_lt_iff. nia.
  - apply Z.compare_gt_iff. nia.
Qed.

(** Numbers written with the same count of digits compare as their
    texts do: digit by digit, then by what follows. *)
Lemma pad_compare (w : nat) :
  forall (a b : Z) (x y : string),
    0 <= a < 10 ^ Z.of_nat w -> 0 <= b < 10 ^ Z.of_nat w ->
    String.compare (pad w a +:+ x) (pad w b +:+ y)
    = lex (a ?= b) (String.compare x y).
Proof.
  induction w as [|w IH]; intros a b x y Ha Hb.
  - cbn in Ha, Hb. assert (a = 0) as -> by lia. assert (b = 0) as -> by lia.
    reflexivity.
  - rewrite Nat2Z.inj_succ, Z.pow_succ_r in Ha, Hb by lia.
    set (p := 10 ^ Z.of_nat w) in *.
    assert (Hp : 0 < p) by (subst p; apply Z.pow_pos_nonneg; lia).
    cbn [pad]. fold p.
    change (String ?c ?s +:+ ?t) with (String c (s +:+ t)).
    cbn [String.compare].
    pose proof (Z.mod_pos_bound a p Hp). pose proof (Z.mod_pos_bound b p Hp).
    assert (0 <= a / p <= 9).
    { split; [apply Z.div_pos; lia|].
      apply Z.lt_succ_r. apply Z.div_lt_upper_bound; lia. }
    assert (0 <= b / p <= 9).
    { split; [apply Z.div_pos; lia|].
      apply Z.lt_succ_r. apply Z.div_lt_upper_bound; lia. }
    rewrite digit_char_compare, IH by assumption.
    rewrite (compare_div_mod a b p Hp).
    destruct (a / p ?= b / p); reflexivity.
Qed.

Lemma suffix_compare (ua ub : Z) :
  0 <= ua < 1000000 -> 0 <= ub < 1000000 ->
  String.compare
    (if ua =? 0 then EmptyString else String "." (pad 6 ua))
    (if ub =? 0 then EmptyString else String "." (pad 6 ub))
  = (ua ?= ub).
Proof.
  intros Ha Hb.
  destruct (Z.eqb_spec ua 0) as [-> | Na], (Z.eqb_spec ub 0) as [-> | Nb].
  - reflexivity.
  - cbn [String.compare]. symmetry. apply Z.compare_lt_iff. lia.
  - cbn [String.compare]. symmetry. apply Z.compare_gt_iff. lia.
  - rewrite compare_cons_same.
    rewrite <- (append_nil_r (pad 6 ua)), <- (append_nil_r (pad 6 ub)).
    rewrite pad_compare by (cbn; lia). apply lex_Eq_r.
Qed.

(** The texts of two valid dates compare as the dates do. *)
Lemma isoformat_compare (a b : datetime) :
  dt_valid a -> dt_valid b -> naive a -> naive b ->
  String.compare (isoformat a) (isoformat b) = dt_compare a b.
Proof.
  intros (Hy & Hm & Hd & Hh & Hmi & Hs & Hu) (Hy' & Hm' & Hd' & Hh' & Hmi' & Hs' & Hu')
    Na Nb.
  unfold isoformat. rewrite Na, Nb. cbn [offset_text].
  rewrite !append_nil_r. unfold local_text, dt_compare.
  rewrite pad_compare, compare_cons_same by (cbn; lia).
  rewrite pad_compare, compare_cons_same by (cbn; lia).
  rewrite pad_compare, compare_cons_same by (cbn; lia).
  rewrite pad_compare, compare_cons_same by (cbn; lia).
  rewrite pad_compare, compare_cons_same by (cbn; lia).
  rewrite pad_compare by (cbn; lia).
  now rewrite suffix_compare.
Qed.

Lemma isoformat_leb (a b : datetime) :
  dt_valid a -> dt_valid b -> naive a -> naive b ->
  String.leb (isoformat a) (isoformat b) = dt_leb a b.
Proof.
  intros Ha Hb Na Nb. unfold String.leb, dt_leb. now rewrite isoformat_compare.
Qed.

End IsoOrder.

(** ** The scheduler: listing *)

Section Listing.
Import Scheduler.

Lemma insert_keyed_perm (x : string * pyval) (l : list (string * pyval)) :
  Permutation (insert_keyed x l) (x :: l).
Proof.
  induction l as [|y l IH]; cbn [insert_keyed]; [reflexivity|].
  destruct (String.leb (fst x) (fst y)); [reflexivity|].
  rewrite IH. apply perm_swap.
Qed.

Lemma sort_keyed_perm (l : list (string * pyval)) :
  Permutation (sort_keyed l) l.
Proof.
  induction l as [|x l IH]; cbn [sort_keyed]; [reflexivity|].
  rewrite insert_keyed_perm. now constructor.
Qed.

Lemma insert_keyed_hd (x a : string * pyval) (l : list (string * pyval)) :
  key_le a x -> HdRel key_le a l -> HdRel key_le a (insert_keyed x l).
Proof.
  intros Hax Hl. destruct l as [|y l]; cbn [insert_keyed]; [now constructor|].
  destruct (String.leb (fst x) (fst y)); constructor; auto.
  now inversion Hl.
Qed.

Lemma insert_keyed_sorted (x : string * pyval) (l : list (string * pyval)) :
  Sorted key_le l -> Sorted key_le (insert_keyed x l).
Proof.
  induction 1 as [|y l Hs IH Hhd]; cbn [insert_keyed]; [repeat constructor|].
  destruct (String.leb (fst x) (fst y)) eqn:E.
  - constructor; [now constructor | now constructor].
  - constructor; [exact IH|]. apply insert_keyed_hd; [|exact Hhd].
    unfold key_le. destruct (String.leb_total (fst x) (fst y)); congruence.
Qed.

Lemma sort_keyed_sorted (l : list (string * pyval)) :
  Sorted key_le (sort_keyed l).
Proof.
  induction l as [|x l IH]; cbn [sort_keyed]; [constructor|].
  now apply insert_keyed_sorted.
Qed.

Lemma when_text_key (e : pyval) (k : string) :
  when_text e k -> when_key e = Ok k.
Proof. intros (d & -> & E). unfold when_key, py_index, bind. now rewrite E. Qed.

(** Every trigger with a text under ["when"]: the keys are found. *)
Lemma keyed_ok (vals : list pyval) :
  (forall e, In e vals -> exists k, when_text e k) ->
  exists kv, keyed vals = Ok kv /\ map snd kv = vals /\
             Forall (fun p => when_text (snd p) (fst p)) kv.
Proof.
  induction vals as [|e vals IH]; intros Hk.
  - exists []. repeat split; constructor.
  - destruct (Hk e (or_introl eq_refl)) as [k Ek].
    destruct IH as (kv & E & Hm & Hf); [intros; apply Hk; now right|].
    exists ((k, e) :: kv). cbn [keyed bind].
    rewrite (when_text_key _ _ Ek), E. cbn.
    repeat split; [now f_equal | now constructor].
Qed.

Lemma when_text_fun (e : pyval) (k k' : string) :
  when_text e k -> when_text e k' -> k = k'.
Proof. intros (d & -> & E) (d' & [= <-] & E'). congruence. Qed.

Lemma string_leb_trans (a b c : string) :
  String.leb a b = true -> String.leb b c = true -> String.leb a c = true.
Proof.
  unfold String.leb.
  assert (Hc : (a ?= b)%string <> Gt -> (b ?= c)%string <> Gt ->
               (a ?= c)%string <> Gt).
  { revert b c. induction a as [|x a IH]; intros [|y b] [|z c];
      cbn [String.compare]; try congruence.
    unfold Ascii.compare.
    destruct (N.compare_spec (N_of_ascii x) (N_of_ascii y)),
             (N.compare_spec (N_of_ascii y) (N_of_ascii z)),
             (N.compare_spec (N_of_ascii x) (N_of_ascii z));
      try lia; try congruence; eauto. }
  destruct (a ?= b)%string, (b ?= c)%string, (a ?= c)%string;
    try congruence; intros; exfalso; apply Hc; congruence.
Qed.

Lemma key_le_trans (a b c : string * pyval) :
  key_le a b -> key_le b c -> key_le a c.
Proof. unfold key_le. apply string_leb_trans. Qed.

Lemma sort_keyed_strongly_sorted (l : list (string * pyval)) :
  StronglySorted key_le (sort_keyed l).
Proof.
  apply Sorted_StronglySorted; [|apply sort_keyed_sorted].
  intros a b c. apply key_le_trans.
Qed.

Lemma sorted_values (R : pyval -> pyval -> Prop) (kv : list (string * pyval)) :
  (forall a b, In a kv -> In b kv -> key_le a b -> R (snd a) (snd b)) ->
  StronglySorted key_le kv -> StronglySorted R (map snd kv).
Proof.
  intros HR Hs. induction Hs as [|a l Hs IH Hall]; [constructor|].
  cbn [map]. constructor.
  - apply IH. intros x y Hx Hy. apply HR; now right.
  - rewrite List.Forall_forall in Hall. apply List.Forall_forall.
    intros y Hy. apply in_map_iff in Hy as (b & <- & Hb).
    apply HR; [now left | now right | now apply Hall].
Qed.

(** C7. On a table whose triggers all carry a text under ["when"],
    [list_all] returns the triggers of the table, each once, in ascending
    order of that text: each trigger comes before all those with a greater
    text.  Where every text is the [isoformat] of a valid naive date and
    is read back as that date (what [add] stores for such a date),
    ascending text is ascending time. *)
Theorem list_all_sorted :
  forall (H : host) (s : t) (d : list (string * pyval)),
    _events s = PDict d ->
    (forall e, In e (map snd d) -> exists k, when_text e k) ->
    exists l, list_all s = Ok l /\
              Permutation l (map snd d) /\
              StronglySorted when_le l /\
              ((forall e k, In e (map snd d) -> when_text e k ->
                  exists t, k = isoformat t /\ dt_valid t /\ naive t /\
                            fromisoformat H k = Some t) ->
               StronglySorted (chronological H) l).
Proof.
  intros H s d He Hk. unfold list_all. rewrite He.
  destruct (keyed_ok (map snd d) Hk) as (kv & -> & Hm & Hf).
  cbn [bind]. eexists. split; [reflexivity|].
  assert (Hf' : Forall (fun p => when_text (snd p) (fst p)) (sort_keyed kv)).
  { rewrite List.Forall_forall in Hf |- *. intros p Hp. apply Hf.
    apply (Permutation_in _ (sort_keyed_perm kv)). exact Hp. }
  rewrite List.Forall_forall in Hf'.
  split; [|split].
  - rewrite <- Hm. apply Permutation_map, sort_keyed_perm.
  - apply sorted_values; [|apply sort_keyed_strongly_sorted].
    intros a b Ha Hb Hab ka kb Eka Ekb.
    rewrite (when_text_fun _ _ _ Eka (Hf' a Ha)).
    rewrite (when_text_fun _ _ _ Ekb (Hf' b Hb)). exact Hab.
  - intros Hiso. apply sorted_values; [|apply sort_keyed_strongly_sorted].
    assert (Hin : forall p, In p (sort_keyed kv) -> In (snd p) (map snd d)).
    { intros p Hp. rewrite <- Hm. apply in_map.
      apply (Permutation_in _ (sort_keyed_perm kv)). exact Hp. }
    intros a b Ha Hb Hab ta tb (ka & Eka & Fa) (kb & Ekb & Fb).
    destruct (Hiso _ _ (Hin a Ha) Eka) as (ta' & -> & Va & Na & Fa').
    destruct (Hiso _ _ (Hin b Hb) Ekb) as (tb' & -> & Vb & Nb & Fb').
    assert (ta' = ta) as -> by congruence.
    assert (tb' = tb) as -> by congruence.
    unfold key_le in Hab.
    rewrite <- (when_text_fun _ _ _ Eka (Hf' a Ha)) in Hab.
    rewrite <- (when_text_fun _ _ _ Ekb (Hf' b Hb)) in Hab.
    unfold dt_le. rewrite Na, Nb. f_equal.
    now rewrite <- isoformat_leb.
Qed.

End Listing.

(** ** The scheduler on an example *)

(** The four triggers listed: the one of April first, the one of 2030
    last. *)
Lemma list_all_sorted_witness :
  exists l,
    Scheduler.list_all (Scheduler.Mk (PDict example_table) "sched.json") = Ok l /\
    Permutation l (map snd example_table) /\
    StronglySorted Scheduler.when_le l /\
    ((forall e k, In e (map snd example_table) -> Scheduler.when_text e k ->
        exists t, k = isoformat t /\ dt_valid t /\ naive t /\
                  fromisoformat example_host k = Some t) ->
     StronglySorted (Scheduler.chronological example_host) l).
Proof.
  apply (list_all_sorted example_host
           (Scheduler.Mk (PDict example_table) "sched.json")
           example_table eq_refl).
  intros e [<- | [<- | [<- | [<- | []]]]]; eexists; eexists; split; reflexivity.
Defined.

(** Two triggers of the same day, one written with a space between date
    and time: both texts are read as dates, the one of ten o'clock is
    listed before the one of nine. *)
Lemma list_all_not_chronological :
  let late := example_trigger "a" "2024-05-01 10:00:00" "good.json" in
  let early := example_trigger "b" "2024-05-01T09:00:00" "good.json" in
  let s := Scheduler.Mk (PDict [("a", late); ("b", early)]%string) "sched.json" in
  Scheduler.list_all s = Ok [late; early] /\
  Scheduler.fires_at example_host late (DateTime 2024 5 1 10 0 0 0 None) /\
  Scheduler.fires_at example_host early (DateTime 2024 5 1 9 0 0 0 None) /\
  ~ StronglySorted (Scheduler.chronological example_host) [late; early].
Proof.
  intros late early s.
  assert (Fl : Scheduler.fires_at example_host late
                 (DateTime 2024 5 1 10 0 0 0 None)).
  { exists "2024-05-01 10:00:00"%string. split; [|reflexivity].
    eexists. split; reflexivity. }
  assert (Fe : Scheduler.fires_at example_host early
                 (DateTime 2024 5 1 9 0 0 0 None)).
  { exists "2024-05-01T09:00:00"%string. split; [|reflexivity].
    eexists. split; reflexivity. }
  repeat split; try assumption.
  intros Hs. inversion Hs as [|? ? _ Hall]; subst.
  inversion Hall as [|? ? Hc _]; subst.
  specialize (Hc _ _ Fl Fe). discriminate Hc.
Qed.

Example list_all_example :
  Scheduler.list_all (Scheduler.Mk (PDict example_table) "sched.json")
  = Ok [example_trigger "d" "2024-04-30T23:59:59.500000" "good.json";
        example_trigger "b" "2024-05-01T09:00:00" "gone.json";
        example_trigger "a" "2024-05-01T10:00:00" "bad.json";
        example_trigger "c" "2030-01-01T00:00:00" "good.json"].
Proof. reflexivity. Qed.

Lemma assoc_get_dict_set (k : string) (v : pyval) (d : list (string * pyval)) :
  assoc_get k (dict_set k v d) = Some v.
Proof.
  induction d as [|[k' v'] d IH]; cbn.
  - now rewrite String.eqb_refl.
  - destruct (String.eqb_spec k k') as [-> | Hne]; cbn.
    + now rewrite String.eqb_refl.
    + destruct (String.eqb_spec k k'); [contradiction | exact IH].
Qed.

(** What [add] stores under ["when"] is the text of the date given. *)
Lemma add_when_is (H : host) (title : pyval) (when_dt : datetime)
  (macro_path speed loops : pyval) (uid : option string) (fresh : string)
  (s s' : Scheduler.t) (fs fs' : gmap string Fs.node) (id : string)
  (d : list (string * pyval)) :
  dt_valid when_dt ->
  Scheduler._events s = PDict d ->
  Scheduler.add H title when_dt macro_path speed loops uid fresh s fs
  = Ok (s', fs', id) ->
  exists d' e, Scheduler._events s' = PDict d' /\ assoc_get id d' = Some e /\
               Scheduler.when_is e when_dt.
Proof.
  intros Hv He. unfold Scheduler.add, bind. rewrite He.
  destruct (py_float H speed) as [sp|]; [|discriminate].
  destruct (py_int H loops) as [lp|]; [|discriminate].
  destruct (Scheduler.save _ fs) as [fs1|]; [|discriminate].
  intros [= <- <- <-]. cbn [Scheduler._events Scheduler.set_events].
  eexists _, _. split; [reflexivity|]. split; [apply assoc_get_dict_set|].
  split; [eexists; split; reflexivity | exact Hv].
Qed.


Example cycle_example :
  let s := Scheduler.Mk (PDict example_table) "sched.json" in
  let r := Scheduler.cycle example_host (DateTime 2024 5 1 12 0 0 0 None) s
             example_files in
  Scheduler._events (fst (fst r))
  = PDict [("c", example_trigger "c" "2030-01-01T00:00:00" "good.json")]%string /\
  snd r = ([Sleep (1 # 2); SetPosition 7 8; SetPosition 7 8], Ok tt).
Proof. split; reflexivity. Qed.

(** ** Further properties of the macro engine *)

Section MacroFurther.
Import Macro.
Context (H : host).

(** Starting twice is starting once, and so is stopping: a start while
    recording and a stop while idle change nothing. *)
Theorem start_stop_idempotent :
  forall (t1 t2 : dec) (m : t),
    start_recording t2 (start_recording t1 m) = start_recording t1 m /\
    stop_recording (stop_recording m) = stop_recording m /\
    (if recording m then start_recording t1 m = m else stop_recording m = m).
Proof.
  intros t1 t2 m. unfold start_recording, stop_recording.
  destruct (recording m) eqn:E; cbn; rewrite ?E; cbn; auto.
Qed.

(** An abort seen at a test of the flag ends the inner loop there: the
    events before it have been applied, the others are not. *)
Theorem abort_stops_events :
  forall (abort : nat -> bool) (speed : pyval) (suppress : list string)
         (pre : list pyval) (ev : pyval) (post : list pyval) (k : nat) (m : t)
         (tr : list action),
    _stop_flag m = false ->
    (forall i, (i < length pre)%nat -> abort (k + i)%nat = false) ->
    abort (k + length pre)%nat = true ->
    one_pass H speed suppress pre = (tr, Ok tt) ->
    play_events H abort speed suppress (pre ++ ev :: post) k m
    = (abort_playback m, S (k + length pre), (tr, Ok tt)).
Proof.
  intros abort speed suppress pre. induction pre as [|e pre IH];
    intros ev post k m tr Hf Hq Ha Hp.
  - cbn in Hp. injection Hp as <-. cbn [app play_events length] in *.
    rewrite Nat.add_0_r in *. unfold interleave. rewrite Ha. reflexivity.
  - cbn [app play_events one_pass length] in *.
    assert (Hk : abort k = false).
    { specialize (Hq 0%nat). rewrite Nat.add_0_r in Hq. apply Hq. lia. }
    unfold interleave. rewrite Hk, Hf.
    unfold obind in Hp.
    destruct (apply_event H speed suppress e) as [tr0 [[]|x]]; [|discriminate].
    specialize (IH ev post (S k) m).
    destruct (one_pass H speed suppress pre) as [tr1 r1].
    injection Hp as <- ->.
    rewrite (IH tr1 Hf); try reflexivity.
    + now rewrite Nat.add_succ_r.
    + intros i Hi. replace (S k + i)%nat with (k + S i)%nat by lia.
      apply Hq. lia.
    + now replace (S k + length pre)%nat with (k + S (length pre))%nat by lia.
Qed.

End MacroFurther.

(** Two moves, an abort before the second: only the first is applied. *)
Lemma abort_stops_events_witness :
  let mv (x : Z) := PDict [("t", PInt 0); ("type", PStr "move");
                           ("x", PInt x); ("y", PInt 0)]%string in
  Macro.play_events example_host (fun k => Nat.eqb k 1) (PInt 1) []
    ([mv 1] ++ mv 2 :: [mv 3]) 0 Macro.__init__
  = (Macro.abort_playback Macro.__init__, 2%nat, ([SetPosition 1 0], Ok tt)).
Proof.
  intros mv.
  refine (abort_stops_events example_host (fun k => Nat.eqb k 1) (PInt 1) []
            [mv 1] (mv 2) [mv 3] 0%nat Macro.__init__ _ eq_refl _ eq_refl eq_refl).
  intros i Hi. cbn in Hi. assert (i = 0%nat) as -> by lia. reflexivity.
Defined.

(** ** Further properties of the scheduler *)

Section SchedulerFurther.
Import Scheduler.
Context (H : host).

(** [add] returns the id given, or the fresh one when none is given; the
    table it leaves is the one written to the file, and holds under that
    id a trigger that carries, under ["when"], the text of the date
    given. *)
Theorem add_stores_isoformat :
  forall (title : pyval) (when_dt : datetime) (macro_path speed loops : pyval)
         (uid : option string) (fresh : string) (s s' : t)
         (fs fs' : gmap string Fs.node) (id : string)
         (d : list (string * pyval)),
    dt_valid when_dt ->
    _events s = PDict d ->
    add H title when_dt macro_path speed loops uid fresh s fs
    = Ok (s', fs', id) ->
    id = match uid with Some u => u | None => fresh end /\
    save s' fs = Ok fs' /\
    exists d' e, _events s' = PDict d' /\ assoc_get id d' = Some e /\
                 when_is e when_dt.
Proof.
  intros title when_dt macro_path speed loops uid fresh s s' fs fs' id d Hv He.
  unfold add, bind. rewrite He.
  destruct (py_float H speed) as [sp|]; [|discriminate].
  destruct (py_int H loops) as [lp|]; [|discriminate].
  destruct (save _ fs) as [fs1|] eqn:Es; [|discriminate].
  intros [= <- <- <-]. split; [reflexivity|]. split; [exact Es|].
  cbn [_events set_events].
  eexists _, _. split; [reflexivity|]. split; [apply assoc_get_dict_set|].
  split; [eexists; split; reflexivity | exact Hv].
Qed.

End SchedulerFurther.

(** A trigger added to the empty table under the id [u1]. *)
Lemma add_stores_isoformat_witness :
  let s := Scheduler.Mk (PDict []) "sched.json" in
  let when_dt := DateTime 2024 5 1 10 0 0 0 None in
  exists s' fs',
    Scheduler.add example_host (PStr "Macro") when_dt (PStr "good.json")
      (PInt 1) (PInt 1) (Some "u1"%string) "fresh" s ∅
    = Ok (s', fs', "u1"%string) /\
    Scheduler.save s' ∅ = Ok fs' /\
    exists d' e, Scheduler._events s' = PDict d' /\
                 assoc_get "u1" d' = Some e /\ Scheduler.when_is e when_dt.
Proof.
  intros s when_dt. eexists _, _. split; [reflexivity|].
  refine (proj2 (add_stores_isoformat example_host (PStr "Macro") when_dt
                   (PStr "good.json") (PInt 1) (PInt 1) (Some "u1"%string)
                   "fresh" s _ ∅ _ "u1" [] _ eq_refl eq_refl)).
  unfold dt_valid. cbn. lia.
Defined.

(** ** Further properties of the recorder and the player *)

Section RecorderFurther.
Import Macro.

(** While recording and not paused, a notification that is not for a
    control key appends exactly one event, whose delay is the one [_dt]
    computes, and moves the timestamp to its instant. *)
Theorem notification_appends_one :
  forall (c : call) (now : dec) (m : t) (l : list pyval),
    recording m = true -> paused m = false -> events m = PList l ->
    is_notification c = true -> filtered c m = false ->
    clock_of c = Some now ->
    exists d,
      step c m = Ok (set_events (PList (l ++ [PDict d]))
                       (set_last_ts (Some now) m)) /\
      assoc_get "t" d = Some (fst (_dt now m)).
Proof.
  intros c now m l Hr Hp He Hn Hf Hc.
  destruct c; try discriminate Hn; cbn in Hc, Hf; injection Hc as ->; cbn;
    unfold _on_move, _on_click, _on_scroll, _on_press, _on_release, on_key;
    rewrite ?Hf; try destruct (key_fields key);
    unfold _dt, _rec; cbn [fst snd set_last_ts recording paused events];
    rewrite Hr, Hp, He; cbn [negb orb];
    eexists; (split; [reflexivity|reflexivity]).
Qed.

End RecorderFurther.

(** The first move of a recording started at 10: its delay is 2.5. *)
Lemma notification_appends_one_witness :
  let m := Macro.start_recording (Dec 10 0) Macro.__init__ in
  exists d,
    Macro.step (Macro.CMove (Dec 125 (-1)) 3 4) m
    = Ok (Macro.set_events (PList ([] ++ [PDict d]))
            (Macro.set_last_ts (Some (Dec 125 (-1))) m)) /\
    assoc_get "t" d = Some (fst (Macro._dt (Dec 125 (-1)) m)).
Proof.
  intros m.
  exact (notification_appends_one (Macro.CMove (Dec 125 (-1)) 3 4)
           (Dec 125 (-1)) m [] eq_refl eq_refl eq_refl eq_refl eq_refl eq_refl).
Defined.

Section PlayerFurther.
Import Macro.
Context (H : host).

(** A key event that is not a character and whose key is among the
    suppressed ones, or is no member of the key enumeration, is skipped:
    its delay is slept and no key call is made. *)
Theorem suppressed_key_only_waits :
  forall (speed : pyval) (suppress : list string) (d : list (string * pyval))
         (name : string) (t : Q),
    assoc_get "type" d = Some (PStr "key") ->
    py_is_str (assoc_get "kind" d) "char" = false ->
    assoc_get "key" d = Some (PStr name) ->
    key_member H name = false \/ existsb (String.eqb name) suppress = true ->
    scaled_delay H speed (PDict d) = Ok t ->
    apply_event H speed suppress (PDict d)
    = ((if Qle_bool t 0 then [] else [Sleep t]), Ok tt).
Proof.
  intros speed suppress d name t Ht Hk Hn Hs Hd.
  assert (Hkey : key_of H suppress (PDict d) = Ok None).
  { unfold key_of. cbn. rewrite Hk, Hn.
    destruct Hs as [-> | ->]; [reflexivity | now rewrite andb_false_r]. }
  unfold apply_event. rewrite Hd, Hkey. cbn [py_get]. rewrite Ht.
  unfold lift, obind. cbn.
  destruct (Qle_bool t 0); reflexivity.
Qed.

End PlayerFurther.

(** The release of [f8], half a second after the event before, played at
    speed 1 with [f8] suppressed. *)
Lemma suppressed_key_only_waits_witness :
  Macro.apply_event example_host (PInt 1) ["f8"%string]
    (PDict [("t", PFloat (Dec 5 (-1))); ("type", PStr "key");
            ("action", PStr "release"); ("kind", PStr "special");
            ("key", PStr "f8")]%string)
  = ([Sleep (5 # 10)], Ok tt).
Proof.
  exact (suppressed_key_only_waits example_host (PInt 1) ["f8"%string]
           [("t", PFloat (Dec 5 (-1))); ("type", PStr "key");
            ("action", PStr "release"); ("kind", PStr "special");
            ("key", PStr "f8")]%string "f8" (5 # 10)
           eq_refl eq_refl eq_refl (or_intror eq_refl) eq_refl).
Defined.

(** ** Due triggers *)

Section DueTriggers.
Import Scheduler.
Context (H : host).

Lemma assoc_get_dict_del_ne (k k' : string) (d : list (string * pyval)) :
  k <> k' -> assoc_get k (dict_del k' d) = assoc_get k d.
Proof.
  intros Hne. induction d as [|[k0 v0] d IH]; cbn; [reflexivity|].
  destruct (String.eqb_spec k' k0) as [-> | Hn0]; cbn.
  - destruct (String.eqb_spec k k0); [contradiction | reflexivity].
  - now rewrite IH.
Qed.

Lemma assoc_get_none (k : string) (d : list (string * pyval)) :
  assoc_get k d = None <-> ~ List.In k (map fst d).
Proof.
  induction d as [|[k0 v0] d IH]; cbn; [tauto|].
  destruct (String.eqb_spec k k0) as [-> | Hn0].
  - split; [discriminate | intros Hn; exfalso; apply Hn; now left].
  - rewrite IH. split; [intros Hn [He | Hi]; [congruence | tauto] | tauto].
Qed.

Lemma dict_del_keys (k k' : string) (d : list (string * pyval)) :
  List.In k (map fst (dict_del k' d)) -> List.In k (map fst d).
Proof.
  induction d as [|[k0 v0] d IH]; cbn; [tauto|].
  destruct (String.eqb_spec k' k0) as [-> | Hn0]; cbn; tauto.
Qed.

Lemma assoc_get_dict_del_none (k k' : string) (d : list (string * pyval)) :
  assoc_get k d = None -> assoc_get k (dict_del k' d) = None.
Proof.
  rewrite !assoc_get_none. intros Hn Hi. apply Hn. now apply dict_del_keys in Hi.
Qed.

Lemma dict_del_NoDup (k : string) (d : list (string * pyval)) :
  List.NoDup (map fst d) -> List.NoDup (map fst (dict_del k d)).
Proof.
  induction d as [|[k0 v0] d IH]; cbn; [auto|].
  intros Hd. inversion Hd as [|? ? Hn Hd']; subst.
  destruct (String.eqb_spec k k0) as [-> | Hn0]; cbn; [exact Hd'|].
  constructor; [|auto]. intros Hi. apply Hn. now apply dict_del_keys in Hi.
Qed.

Lemma assoc_get_dict_del_eq (k : string) (d : list (string * pyval)) :
  List.NoDup (map fst d) -> assoc_get k (dict_del k d) = None.
Proof.
  induction d as [|[k0 v0] d IH]; cbn; [auto|].
  intros Hd. inversion Hd as [|? ? Hn Hd']; subst.
  destruct (String.eqb_spec k k0) as [-> | Hn0]; cbn.
  - now apply assoc_get_none.
  - destruct (String.eqb_spec k k0); [contradiction | auto].
Qed.

Lemma assoc_get_In (k : string) (e : pyval) (d : list (string * pyval)) :
  List.NoDup (map fst d) -> List.In (k, e) d -> assoc_get k d = Some e.
Proof.
  induction d as [|[k0 v0] d IH]; cbn; [tauto|].
  intros Hd. inversion Hd as [|? ? Hn Hd']; subst.
  intros [[= -> ->] | Hi].
  - now rewrite String.eqb_refl.
  - destruct (String.eqb_spec k k0) as [-> | Hn0]; [|auto].
    exfalso. apply Hn. now apply (List.in_map fst) in Hi.
Qed.

Lemma scan_spec (now : datetime) (items : list (string * pyval)) :
  forall (tbl tbl' : list (string * pyval)) (due : list pyval),
    scan H now items tbl = (tbl', Ok due) ->
    (forall k, assoc_get k tbl = None -> assoc_get k tbl' = None) /\
    (List.NoDup (map fst tbl) ->
     forall k e, List.In (k, e) items -> is_due H now e = Ok true ->
                 assoc_get k tbl' = None /\ List.In e due) /\
    (forall k, (forall e, List.In (k, e) items -> is_due H now e = Ok false) ->
               assoc_get k tbl' = assoc_get k tbl) /\
    (forall e, List.In e due ->
               exists k, List.In (k, e) items /\ is_due H now e = Ok true).
Proof.
  induction items as [|[k0 e0] r IH]; intros tbl tbl' due Hs; cbn in Hs.
  - injection Hs as <- <-. repeat split; auto; try (intros; contradiction).
  - destruct (is_due H now e0) as [[|]|x] eqn:Ew; [| |discriminate].
    + destruct (scan H now r (dict_del k0 tbl)) as [tbl1 [due1|x]] eqn:Es;
        [|discriminate].
      injection Hs as <- <-.
      destruct (IH _ _ _ Es) as (Hm & Hd & Hk & Hi).
      split; [|split; [|split]].
      * intros k Hn. apply Hm. now apply assoc_get_dict_del_none.
      * intros Hnd k e [[= -> ->] | Hin] Hw.
        -- split; [|now left]. apply Hm. now apply assoc_get_dict_del_eq.
        -- destruct (Hd (dict_del_NoDup _ _ Hnd) k e Hin Hw).
           split; [auto|now right].
      * intros k Hall. rewrite Hk.
        -- apply assoc_get_dict_del_ne. intros ->.
           specialize (Hall e0 (or_introl eq_refl)). congruence.
        -- intros e Hin. apply Hall. now right.
      * intros e [<- | Hin].
        -- exists k0. split; auto. now left.
        -- destruct (Hi e Hin) as (k & ? & ?). exists k.
           split; auto. now right.
    + destruct (IH _ _ _ Hs) as (Hm & Hd & Hk & Hi).
      split; [exact Hm|split; [|split]].
      * intros Hnd k e [[= -> ->] | Hin] Hw; [congruence|].
        now apply (Hd Hnd k e).
      * intros k Hall. apply Hk. intros e Hin. apply Hall. now right.
      * intros e Hin. destruct (Hi e Hin) as (k & ? & ?). exists k.
        split; auto. now right.
Qed.

Lemma scan_total (now : datetime) (items : list (string * pyval)) :
  forall tbl : list (string * pyval),
    (forall k e, List.In (k, e) items -> exists b, is_due H now e = Ok b) ->
    exists tbl' due, scan H now items tbl = (tbl', Ok due).
Proof.
  induction items as [|[k0 e0] r IH]; intros tbl Hw; cbn; [eauto|].
  destruct (Hw k0 e0 (or_introl eq_refl)) as [b0 ->].
  assert (Hr : forall k e, List.In (k, e) r -> exists b, is_due H now e = Ok b).
  { intros k e Hin. apply (Hw k e). now right. }
  destruct b0.
  - destruct (IH (dict_del k0 tbl) Hr) as (tbl' & due & ->). eauto.
  - apply IH, Hr.
Qed.

(** The date read from a trigger is the one the loop compares. *)
Lemma fires_at_when_of (e : pyval) (w : datetime) :
  fires_at H e w -> when_of H e = Ok w.
Proof.
  intros (k & (d & -> & Ek) & Ef). unfold when_of, py_index, bind.
  now rewrite Ek, Ef.
Qed.

Lemma when_of_fires_at (e : pyval) (w : datetime) :
  when_of H e = Ok w -> fires_at H e w.
Proof.
  unfold when_of, py_index, bind. destruct e as [| | | | | |d]; try discriminate.
  destruct (assoc_get "when" d) as [[| | | |k| |]|] eqn:Ek; try discriminate.
  destruct (fromisoformat H k) as [w'|] eqn:Ef; [|discriminate].
  intros [= <-]. exists k. split; [|exact Ef]. now exists d.
Qed.

(** Between naive dates the test of the scan is the order of the
    fields. *)
Lemma is_due_naive (now : datetime) (e : pyval) (w : datetime) :
  naive now -> fires_at H e w -> naive w ->
  is_due H now e = Ok (dt_leb w now).
Proof.
  intros Hn Hf Hw. unfold is_due, bind. rewrite (fires_at_when_of _ _ Hf).
  unfold dt_le. now rewrite Hw, Hn.
Qed.

Lemma fires_at_fun (e : pyval) (w w' : datetime) :
  fires_at H e w -> fires_at H e w' -> w = w'.
Proof.
  intros F F'. apply fires_at_when_of in F, F'. congruence.
Qed.

(** A turn of the loop, the clock and every fire time of the table being
    naive dates, ends well; it takes out of the table every trigger that
    is due, and fires it; a trigger that is not due stays under its id
    and is not fired; nothing else is fired. *)
Theorem due_triggers_removed_and_fired :
  forall (now : datetime) (s : t) (fs : gmap string Fs.node)
         (d : list (string * pyval)),
    _events s = PDict d ->
    List.NoDup (map fst d) ->
    naive now ->
    (forall k e, List.In (k, e) d -> exists w, fires_at H e w /\ naive w) ->
    exists tbl due fs',
      cycle H now s fs
      = (set_events (PDict tbl) s, fs',
         (Sleep (1 # 2) :: fst (fire_all H fs' due), Ok tt)) /\
      (forall k e w, List.In (k, e) d -> fires_at H e w ->
         if dt_leb w now
         then assoc_get k tbl = None /\ List.In e due
         else assoc_get k tbl = Some e /\ ~ List.In e due) /\
      (forall e, List.In e due -> exists k, List.In (k, e) d).
Proof.
  intros now s fs d He Hnd Hnow Hw.
  assert (Hdue : forall k e w, List.In (k, e) d -> fires_at H e w ->
                               is_due H now e = Ok (dt_leb w now)).
  { intros k e w Hin Hf. destruct (Hw k e Hin) as (w' & Hf' & Hn').
    rewrite (fires_at_fun _ _ _ Hf Hf'). now apply is_due_naive. }
  assert (Hb : forall k e, List.In (k, e) d -> exists b, is_due H now e = Ok b).
  { intros k e Hin. destruct (Hw k e Hin) as (w & Hf & _).
    rewrite (Hdue k e w Hin Hf). eauto. }
  destruct (scan_total now d d Hb) as (tbl & due & Hs).
  destruct (scan_spec now d d tbl due Hs) as (_ & Hd & Hk & Hi).
  exists tbl, due. unfold cycle. rewrite He, Hs.
  set (fs1 := match due with [] => fs | _ => _ end).
  exists fs1. split; [|split].
  - unfold obind. destruct (fire_all H fs1 due) as [tr r] eqn:E.
    rewrite (fire_all_spec H) in E. now injection E as <- <-.
  - intros k e w Hin Hwe. pose proof (Hdue k e w Hin Hwe) as Ed.
    destruct (dt_leb w now) eqn:El.
    + now apply (Hd Hnd k e).
    + split.
      * rewrite Hk; [now apply assoc_get_In|].
        intros e' Hin'.
        assert (e' = e) as ->
            by (apply (assoc_get_In _ _ _ Hnd) in Hin, Hin'; congruence).
        exact Ed.
      * intros Hdue'. destruct (Hi e Hdue') as (k' & _ & Hl').
        congruence.
  - intros e Hdue'. destruct (Hi e Hdue') as (k & Hin & _). eauto.
Qed.

End DueTriggers.

(** At noon on May first the triggers [a], [b] and [d] of the table are
    due and [c], set for 2030, is not. *)
Lemma due_triggers_removed_and_fired_witness :
  let s := Scheduler.Mk (PDict example_table) "sched.json" in
  exists tbl due fs',
    Scheduler.cycle example_host (DateTime 2024 5 1 12 0 0 0 None) s example_files
    = (Scheduler.set_events (PDict tbl) s, fs',
       (Sleep (1 # 2) :: fst (Scheduler.fire_all example_host fs' due), Ok tt)) /\
    (forall k e w, List.In (k, e) example_table ->
       Scheduler.fires_at example_host e w ->
       if dt_leb w (DateTime 2024 5 1 12 0 0 0 None)
       then assoc_get k tbl = None /\ List.In e due
       else assoc_get k tbl = Some e /\ ~ List.In e due) /\
    (forall e, List.In e due -> exists k, List.In (k, e) example_table).
Proof.
  intros s.
  refine (due_triggers_removed_and_fired example_host
            (DateTime 2024 5 1 12 0 0 0 None) s example_files example_table
            eq_refl _ eq_refl _).
  - cbn. repeat constructor; cbn; intuition discriminate.
  - intros k e [[= <- <-] | [[= <- <-] | [[= <- <-] | [[= <- <-] | []]]]];
      (eexists; split; [eexists; split; [eexists; split; reflexivity|]|];
       vm_compute; reflexivity).
Defined.

(** ** The indented text read back *)

Section JsonIndent.
Import Json.

Lemma dumps_indent_list (level : nat) (x : pyval) (l : list pyval) :
  dumps_indent level (PList (x :: l))
  = String "[" (newline (S level) +:+ indent_items (S level) (x :: l)
                  +:+ newline level +:+ "]").
Proof. reflexivity. Qed.

Lemma dumps_indent_dict (level : nat) (kv : string * pyval)
  (d : list (string * pyval)) :
  dumps_indent level (PDict (kv :: d))
  = String "{" (newline (S level) +:+ indent_members (S level) (kv :: d)
                  +:+ newline level +:+ "}").
Proof. destruct kv. reflexivity. Qed.

Lemma dumps_indent_head (level : nat) (v : pyval) (rest : string) :
  exists c r, dumps_indent level v +:+ rest = String c r /\ opens c.
Proof.
  destruct v as [|b|z|d|s|[|x l]|[|kv d]];
    try exact (dumps_head _ rest);
    try (cbn; eexists _, _; split; [reflexivity|]; repeat split; discriminate).
Qed.

Lemma skip_ws_newline (level : nat) (s : string) :
  skip_ws (newline level +:+ s) = skip_ws s.
Proof.
  revert s. induction level as [|k IH]; intros s; [reflexivity|].
  cbn [newline]. rewrite append_assoc. rewrite IH. reflexivity.
Qed.

Lemma newline_head (level : nat) (s : string) :
  exists r, newline level +:+ s = String "010" r.
Proof.
  revert s. induction level as [|k IH]; intros s; [cbn; eauto|].
  cbn [newline]. rewrite append_assoc. apply IH.
Qed.

Lemma number_end_newline (level : nat) (s : string) :
  number_end (newline level +:+ s).
Proof.
  destruct (newline_head level s) as [r ->]. cbn. repeat split; discriminate.
Qed.

Lemma indent_items_cons (level : nat) (x : pyval) (l : list pyval) :
  indent_items level (x :: l)
  = dumps_indent level x +:+
    match l with
    | [] => EmptyString
    | _ => String "," (newline level +:+ indent_items level l)
    end.
Proof. destruct l; reflexivity. Qed.

Lemma indent_members_cons (level : nat) (k : string) (x : pyval)
  (d : list (string * pyval)) :
  indent_members level ((k, x) :: d)
  = String quote (escape k +:+ String quote (String ":" (String " "
      (dumps_indent level x +:+
       match d with
       | [] => EmptyString
       | _ => String "," (newline level +:+ indent_members level d)
       end)))).
Proof.
  destruct d; cbn [indent_members]; unfold str_repr; cbn [String.append];
    rewrite !append_assoc; reflexivity.
Qed.

Lemma skip_ws_indent_items (level : nat) (l : list pyval) (rest : string) :
  l <> [] ->
  skip_ws (indent_items level l +:+ rest) = indent_items level l +:+ rest /\
  eat "]" (indent_items level l +:+ rest) = None.
Proof.
  destruct l as [|x l]; [contradiction|]. intros _.
  rewrite indent_items_cons, append_assoc.
  destruct (dumps_indent_head level x
              (match l with
               | [] => EmptyString
               | _ => String "," (newline level +:+ indent_items level l)
               end +:+ rest)) as (c & r & -> & Hws & Hb & _).
  split; [now apply skip_ws_head | now apply eat_other].
Qed.

Lemma skip_ws_indent_members (level : nat) (d : list (string * pyval))
  (rest : string) :
  d <> [] ->
  skip_ws (indent_members level d +:+ rest) = indent_members level d +:+ rest /\
  eat "}" (indent_members level d +:+ rest) = None.
Proof.
  destruct d as [|[k x] d]; [contradiction|]. intros _.
  rewrite indent_members_cons. split; reflexivity.
Qed.

Lemma skip_ws_indent_value (level : nat) (v : pyval) (rest : string) :
  skip_ws (dumps_indent level v +:+ rest) = dumps_indent level v +:+ rest.
Proof.
  destruct (dumps_indent_head level v rest) as (c & r & -> & Hws & _).
  now apply skip_ws_head.
Qed.

(** Reading back what [dumps_indent] wrote. *)
Lemma parse_indent_fuel (fuel : nat) :
  (forall v level rest, wf_pyval v -> (size v <= fuel)%nat -> number_end rest ->
     parse_value fuel (dumps_indent level v +:+ rest) = Some (v, rest)) /\
  (forall l level k rest, l <> [] -> Forall wf_pyval l ->
     (size_items l <= fuel)%nat ->
     parse_elems fuel (indent_items level l +:+ newline k +:+ String "]" rest)
     = Some (l, rest)) /\
  (forall d level k rest, d <> [] -> Forall (fun kv => wf_pyval (snd kv)) d ->
     (size_members d <= fuel)%nat ->
     parse_members fuel (indent_members level d +:+ newline k +:+ String "}" rest)
     = Some (d, rest)).
Proof.
  induction fuel as [|f (IHv & IHl & IHd)].
  { split; [|split].
    - intros v level rest _ Hs. pose proof (size_pos v). lia.
    - intros [|x l] level k rest Hl _ Hs; [contradiction | cbn in Hs; lia].
    - intros [|x l] level k rest Hl _ Hs; [contradiction | cbn in Hs; lia]. }
  split; [|split].
  - intros v level rest Hwf Hs Hc. destruct v as [|[]|z|d|s|l|d]; try reflexivity.
    + destruct (int_repr_head z rest) as (c & r & E & H).
      cbn [dumps_indent dumps]. rewrite E, parse_value_numeric by assumption.
      rewrite <- E. now apply parse_int_repr.
    + pose proof (parse_float_repr d rest Hc) as Hp.
      cbn [dumps_indent dumps]. unfold float_repr in *. rewrite append_assoc in *.
      destruct (int_repr_head (mant d) (String "e" (int_repr (expo d)) +:+ rest))
        as (c & r & E & H).
      rewrite E in *. now rewrite parse_value_numeric.
    + cbn [dumps_indent dumps]. unfold str_repr.
      change (String quote (escape s +:+ String quote EmptyString) +:+ rest)
        with (String quote ((escape s +:+ String quote EmptyString) +:+ rest)).
      rewrite append_assoc.
      change (String quote EmptyString +:+ rest) with (String quote rest).
      cbn [parse_value]. rewrite Ascii.eqb_refl.
      now rewrite parse_str_repr.
    + rewrite size_list in Hs. apply wf_list in Hwf.
      destruct l as [|x l]; [reflexivity|].
      rewrite dumps_indent_list.
      change (String "[" ?a +:+ rest) with (String "[" (a +:+ rest)).
      rewrite !append_assoc.
      change ("]" +:+ rest) with (String "]" rest).
      assert (Hne : x :: l <> []) by discriminate.
      destruct (skip_ws_indent_items (S level) (x :: l)
                  (newline level +:+ String "]" rest) Hne) as [Hsk Heat].
      cbn [parse_value]. change (Ascii.eqb "[" quote) with false.
      change (Ascii.eqb "[" "{") with false. change (Ascii.eqb "[" "[") with true.
      cbv iota. rewrite skip_ws_newline, Hsk, Heat, IHl by (auto; lia).
      reflexivity.
    + rewrite size_dict in Hs. apply wf_dict in Hwf as [Hnd Hwf].
      destruct d as [|kv d]; [reflexivity|].
      rewrite dumps_indent_dict.
      change (String "{" ?a +:+ rest) with (String "{" (a +:+ rest)).
      rewrite !append_assoc.
      change ("}" +:+ rest) with (String "}" rest).
      assert (Hne : kv :: d <> []) by discriminate.
      destruct (skip_ws_indent_members (S level) (kv :: d)
                  (newline level +:+ String "}" rest) Hne) as [Hsk Heat].
      cbn [parse_value]. change (Ascii.eqb "{" quote) with false.
      change (Ascii.eqb "{" "{") with true.
      cbv iota. rewrite skip_ws_newline, Hsk, Heat, IHd by (auto; lia).
      now rewrite py_dict_nodup.
  - intros [|x l] level k rest Hne Hwf Hs; [contradiction|].
    apply Forall_cons in Hwf as [Hx Hl]. cbn [size_items] in Hs.
    rewrite indent_items_cons. cbn [parse_elems]. rewrite append_assoc.
    destruct l as [|y l].
    + change (EmptyString +:+ ?a) with a.
      rewrite IHv by (auto using number_end_newline; lia).
      rewrite skip_ws_newline. reflexivity.
    + change (String "," ?a +:+ ?b) with (String "," (a +:+ b)).
      rewrite IHv by (auto; cbn; repeat split; (discriminate || lia)).
      assert (Hne' : y :: l <> []) by discriminate.
      rewrite append_assoc.
      destruct (skip_ws_indent_items level (y :: l)
                  (newline k +:+ String "]" rest) Hne') as [Hsk _].
      cbn [skip_ws is_ws Ascii.eqb Bool.eqb orb eat]. cbv iota.
      rewrite skip_ws_newline, Hsk, IHl by (auto; lia). reflexivity.
  - intros [|[key x] d] level k rest Hne Hwf Hs; [contradiction|].
    apply Forall_cons in Hwf as [Hx Hd]. cbn [size_members snd] in Hs.
    rewrite indent_members_cons. cbn [parse_members].
    change (String quote ?a +:+ ?b) with (String quote (a +:+ b)).
    cbn [eat]. rewrite Ascii.eqb_refl.
    rewrite append_assoc.
    change (String quote ?a +:+ ?b) with (String quote (a +:+ b)).
    rewrite parse_str_repr.
    change (String ":" (String " " ?a) +:+ ?b)
      with (String ":" (String " " (a +:+ b))).
    cbn [skip_ws is_ws Ascii.eqb Bool.eqb orb eat]. cbv iota.
    rewrite append_assoc, skip_ws_indent_value.
    destruct d as [|kv d].
    + change (EmptyString +:+ ?a) with a.
      rewrite IHv by (auto using number_end_newline; lia).
      rewrite skip_ws_newline. reflexivity.
    + change (String "," ?a +:+ ?b) with (String "," (a +:+ b)).
      rewrite IHv by (auto; cbn; repeat split; (discriminate || lia)).
      assert (Hne' : kv :: d <> []) by discriminate.
      rewrite append_assoc.
      destruct (skip_ws_indent_members level (kv :: d)
                  (newline k +:+ String "}" rest) Hne') as [Hsk _].
      cbn [skip_ws is_ws Ascii.eqb Bool.eqb orb eat]. cbv iota.
      rewrite skip_ws_newline, Hsk, IHd by (auto; lia). reflexivity.
Qed.

(** [json.loads(json.dumps(v, indent=2)) == v] *)
Lemma loads_dumps_indent (v : pyval) :
  wf_pyval v -> loads (dumps_indent 0 v) = Some v.
Proof.
  intros Hwf.
  apply (loads_fuel_enough _ (size v) v EmptyString); [|reflexivity].
  pose proof (skip_ws_indent_value 0 v EmptyString) as Hsk.
  rewrite append_nil_r in Hsk. rewrite Hsk.
  pose proof (proj1 (parse_indent_fuel (size v)) v 0%nat EmptyString Hwf
                (le_n _) I) as Hp.
  now rewrite append_nil_r in Hp.
Qed.

(** *** The pieces of the indented text *)

Lemma pieces_indent_list (level : nat) (x : pyval) (l : list pyval) :
  pieces_indent level (PList (x :: l))
  = pieces_indent_items level ("[" +:+ newline (S level)) (x :: l).
Proof. reflexivity. Qed.

Lemma pieces_indent_dict (level : nat) (kv : string * pyval)
  (d : list (string * pyval)) :
  pieces_indent level (PDict (kv :: d))
  = "{"%string :: newline (S level) :: pieces_indent_members level [] (kv :: d).
Proof. reflexivity. Qed.

Lemma dumps_indent_scalar (level : nat) (x : pyval) :
  match x with PList _ | PDict _ => False | _ => True end ->
  dumps_indent level x = dumps x.
Proof. destruct x; cbn; tauto. Qed.

Lemma joined_cons (p : string) (l : list string) :
  joined (p :: l) = p +:+ joined l.
Proof. reflexivity. Qed.

Lemma joined_pieces_indent_items (level : nat) (l : list pyval) :
  Forall (fun x => joined (pieces_indent (S level) x)
                   = dumps_indent (S level) x) l ->
  forall buf, l <> [] ->
    joined (pieces_indent_items level buf l)
    = buf +:+ indent_items (S level) l +:+ newline level +:+ "]".
Proof.
  induction 1 as [|x l Hx Hl IH]; intros buf Hne; [contradiction|].
  assert (Hr : joined (pieces_indent_items level ("," +:+ newline (S level)) l)
               = match l with
                 | [] => EmptyString
                 | _ => String "," (newline (S level) +:+ indent_items (S level) l)
                 end +:+ newline level +:+ "]").
  { destruct l as [|y l']; [reflexivity|]. rewrite IH by discriminate.
    cbn [String.append]. now rewrite !append_assoc. }
  rewrite indent_items_cons, !append_assoc.
  destruct x; cbn [pieces_indent_items]; rewrite joined_cons;
    rewrite ?joined_app, ?Hx, ?Hr, ?append_assoc; reflexivity.
Qed.

Lemma joined_pieces_indent_members (level : nat) (d : list (string * pyval)) :
  Forall (fun kv => joined (pieces_indent (S level) (snd kv))
                    = dumps_indent (S level) (snd kv)) d ->
  forall sep, d <> [] ->
    joined (pieces_indent_members level sep d)
    = joined sep +:+ indent_members (S level) d +:+ newline level +:+ "}".
Proof.
  induction 1 as [|[k x] d Hx Hd IH]; intros sep Hne; [contradiction|].
  assert (Hr : joined (pieces_indent_members level ["," +:+ newline (S level)] d)
               = match d with
                 | [] => EmptyString
                 | _ => String "," (newline (S level) +:+ indent_members (S level) d)
                 end +:+ newline level +:+ "}").
  { destruct d as [|y d']; [reflexivity|]. rewrite IH by discriminate.
    cbn [joined fold_right String.append]. now rewrite append_nil_r, !append_assoc. }
  cbn [pieces_indent_members snd] in *.
  rewrite joined_app, !joined_cons, joined_app, Hx, Hr.
  rewrite indent_members_cons. unfold str_repr.
  cbn [String.append]. rewrite !append_assoc. cbn [String.append].
  rewrite !append_assoc. reflexivity.
Qed.

(** The pieces written for [indent=2] are the text of [dumps_indent]. *)
Lemma joined_pieces_indent (v : pyval) :
  forall level, joined (pieces_indent level v) = dumps_indent level v.
Proof.
  induction v as [|b|z|d|s|l IH|d IH] using pyval_induction; intros level;
    try reflexivity; try (cbn; now rewrite append_nil_r).
  - destruct l as [|x l]; [reflexivity|].
    rewrite pieces_indent_list, dumps_indent_list.
    rewrite joined_pieces_indent_items.
    + cbn [String.append]. now rewrite ?append_assoc.
    + eapply Forall_impl; [exact IH|]. cbn. auto.
    + discriminate.
  - destruct d as [|kv d]; [reflexivity|].
    rewrite pieces_indent_dict, dumps_indent_dict, !joined_cons.
    rewrite joined_pieces_indent_members.
    + cbn [joined fold_right String.append]. now rewrite ?append_assoc.
    + eapply Forall_impl; [exact IH|]. cbn. auto.
    + discriminate.
Qed.


End JsonIndent.

(** ** The table of the scheduler *)

Section SchedulerTable.
Import Scheduler.

(** [save] never raises: whatever the write did is passed over. *)
Lemma save_cases (s : t) (fs : gmap string Fs.node) :
  save s fs = Ok (fst (write_table s fs)).
Proof.
  unfold save. destruct (write_table s fs) as [fs' [[]|e]]; reflexivity.
Qed.

(** A write that went through left the text of the table in the file. *)
Lemma write_table_inv (s : t) (fs fs' : gmap string Fs.node) :
  write_table s fs = (fs', Ok tt) ->
  fs' = <[_persist_path s := Fs.Regular (Json.dumps_indent 0 (_events s))]> fs.
Proof.
  unfold write_table, Fs.write_pieces.
  destruct (Fs.writable fs (_persist_path s)); [|discriminate].
  destruct (Fs.accepted _) as [w [|]] eqn:E; [|discriminate].
  intros [= <-]. apply accepted_ok in E. now rewrite E, joined_pieces_indent.
Qed.

Lemma dict_del_In (k k' : string) (e : pyval) (d : list (string * pyval)) :
  List.In (k, e) (dict_del k' d) -> List.In (k, e) d.
Proof.
  induction d as [|[k0 v0] d IH]; cbn; [tauto|].
  destruct (String.eqb_spec k' k0) as [-> | Hn0]; cbn; tauto.
Qed.

Lemma dict_del_absent (k : string) (d : list (string * pyval)) :
  assoc_get k d = None -> dict_del k d = d.
Proof.
  induction d as [|[k0 v0] d IH]; cbn; [reflexivity|].
  destruct (String.eqb_spec k k0) as [-> | Hn0]; [discriminate|].
  intros Hn. now rewrite IH.
Qed.

Lemma dict_del_dict_set (k : string) (v : pyval) (d : list (string * pyval)) :
  assoc_get k d = None -> dict_del k (dict_set k v d) = d.
Proof.
  induction d as [|[k0 v0] d IH]; cbn.
  - now rewrite String.eqb_refl.
  - destruct (String.eqb_spec k k0) as [-> | Hn0]; [discriminate|].
    intros Hn. cbn. destruct (String.eqb_spec k k0); [contradiction|].
    now rewrite IH.
Qed.

Lemma assoc_get_dict_set_ne (k k' : string) (v : pyval)
  (d : list (string * pyval)) :
  k <> k' -> assoc_get k (dict_set k' v d) = assoc_get k d.
Proof.
  intros Hne. induction d as [|[k0 v0] d IH]; cbn.
  - destruct (String.eqb_spec k k'); [contradiction | reflexivity].
  - destruct (String.eqb_spec k' k0) as [-> | Hn0]; cbn.
    + destruct (String.eqb_spec k k0); [contradiction|].
      destruct (String.eqb_spec k k0); [contradiction | reflexivity].
    + now rewrite IH.
Qed.

Lemma dict_set_keys (k k' : string) (v : pyval) (d : list (string * pyval)) :
  List.In k (map fst (dict_set k' v d)) -> k = k' \/ List.In k (map fst d).
Proof.
  induction d as [|[k0 v0] d IH]; cbn.
  - intros [<- | []]. now left.
  - destruct (String.eqb_spec k' k0) as [-> | Hn0]; cbn; [tauto|].
    intros [<- | Hin]; [tauto|]. destruct (IH Hin); tauto.
Qed.

Lemma dict_set_NoDup (k : string) (v : pyval) (d : list (string * pyval)) :
  List.NoDup (map fst d) -> List.NoDup (map fst (dict_set k v d)).
Proof.
  induction d as [|[k0 v0] d IH]; cbn.
  - intros _. constructor; [tauto | constructor].
  - intros Hd. inversion Hd as [|? ? Hn Hd']; subst.
    destruct (String.eqb_spec k k0) as [-> | Hn0]; cbn.
    + now constructor.
    + constructor; [|auto]. intros Hin.
      destruct (dict_set_keys _ _ _ _ Hin) as [-> | Hin']; tauto.
Qed.

(** [remove] on a table of triggers never raises.  It takes the id out of
    the table and leaves every other id as it was; when the id is there
    the table is saved, and when it is not, nothing changes and nothing is
    written. *)
Theorem remove_deletes_only_that_id :
  forall (uid : string) (s : t) (fs : gmap string Fs.node)
         (d : list (string * pyval)),
    _events s = PDict d ->
    List.NoDup (map fst d) ->
    exists s' fs' d',
      remove uid s fs = Ok (s', fs') /\ _events s' = PDict d' /\
      (forall k, assoc_get k d'
                 = if String.eqb k uid then None else assoc_get k d) /\
      (assoc_get uid d = None -> s' = s /\ fs' = fs) /\
      (assoc_get uid d <> None -> save s' fs = Ok fs').
Proof.
  intros uid s fs d He Hnd. unfold remove, contains, bind. rewrite He.
  destruct (assoc_get uid d) as [e|] eqn:Eu.
  - rewrite save_cases. eexists _, _, _. split; [reflexivity|].
    split; [reflexivity|]. split; [|split; [discriminate|]].
    + intros k. destruct (String.eqb_spec k uid) as [-> | Hne].
      * now apply assoc_get_dict_del_eq.
      * now apply assoc_get_dict_del_ne.
    + intros _. now rewrite save_cases.
  - exists s, fs, d. split; [reflexivity|]. split; [exact He|].
    split; [|split; [auto | congruence]].
    intros k. destruct (String.eqb_spec k uid) as [-> | Hne]; auto.
Qed.

(** After [add] under an id that was not in the table, [remove] of that
    id gives back the table as it was before, in the same order. *)
Theorem add_then_remove_restores :
  forall (H : host) (title : pyval) (when_dt : datetime)
         (macro_path speed loops : pyval) (uid : string) (fresh : string)
         (s s1 : t) (fs fs1 : gmap string Fs.node) (id : string)
         (d : list (string * pyval)),
    _events s = PDict d ->
    assoc_get uid d = None ->
    add H title when_dt macro_path speed loops (Some uid) fresh s fs
    = Ok (s1, fs1, id) ->
    id = uid /\
    exists fs2, remove id s1 fs1 = Ok (s, fs2) /\ save s fs1 = Ok fs2.
Proof.
  intros H title when_dt macro_path speed loops uid fresh s s1 fs fs1 id d
    He Hn.
  unfold add, bind. rewrite He.
  destruct (py_float H speed) as [sp|]; [|discriminate].
  destruct (py_int H loops) as [lp|]; [|discriminate].
  rewrite save_cases. intros [= <- <- <-]. split; [reflexivity|].
  unfold remove, contains, bind. cbn [_events set_events].
  rewrite assoc_get_dict_set, dict_del_dict_set by exact Hn.
  rewrite !save_cases. cbn [_persist_path set_events _events].
  destruct s as [ev path]. cbn in *. subst ev.
  eexists. split; reflexivity.
Qed.

Lemma restart_after_write (s : t) (fs fs' : gmap string Fs.node) :
  wf_pyval (_events s) ->
  write_table s fs = (fs', Ok tt) ->
  __init__ (_persist_path s) fs' = Ok s.
Proof.
  intros Hwf Hw. rewrite (write_table_inv _ _ _ Hw).
  unfold __init__, load, try_except, bind, Fs.read_text. cbn [_persist_path].
  rewrite lookup_insert_eq, loads_dumps_indent by exact Hwf.
  destruct s; reflexivity.
Qed.

(** What [save] wrote is what a new scheduler on the same file starts
    with: when the write of the table went through, the table survives a
    restart. *)
Theorem saved_table_survives_restart :
  forall (s : t) (fs fs' : gmap string Fs.node),
    wf_pyval (_events s) ->
    write_table s fs = (fs', Ok tt) ->
    save s fs = Ok fs' /\
    exists s', __init__ (_persist_path s) fs' = Ok s' /\
               _events s' = _events s /\ _persist_path s' = _persist_path s.
Proof.
  intros s fs fs' Hwf Hw. split.
  - rewrite save_cases. now rewrite Hw.
  - exists s. split; [now apply (restart_after_write s fs) | split; reflexivity].
Qed.

Lemma dict_set_Forall (P : string * pyval -> Prop) (k : string) (v : pyval)
  (d : list (string * pyval)) :
  P (k, v) -> Forall P d -> Forall P (dict_set k v d).
Proof.
  intros Hv. induction d as [|[k0 v0] d IH]; cbn; intros Hd.
  - repeat constructor. exact Hv.
  - apply Forall_cons in Hd as [H0 Hd].
    destruct (String.eqb k k0); constructor; auto.
Qed.

Lemma dict_del_Forall (P : string * pyval -> Prop) (k : string)
  (d : list (string * pyval)) :
  Forall P d -> Forall P (dict_del k d).
Proof.
  induction d as [|[k0 v0] d IH]; cbn; intros Hd; [constructor|].
  apply Forall_cons in Hd as [H0 Hd].
  destruct (String.eqb k k0); [exact Hd | constructor; auto].
Qed.

(** Every change of the table is on file: after an [add], and after a
    [remove] of an id that was there, a new scheduler on the same file
    starts with the table the call left, provided the write that the call
    made went through. *)
Theorem mutations_survive_restart :
  forall (H : host) (s : t) (fs : gmap string Fs.node)
         (d : list (string * pyval)),
    _events s = PDict d ->
    wf_pyval (PDict d) ->
    (forall title when_dt macro_path speed loops uid fresh s1 fs1 id,
        wf_pyval title -> wf_pyval macro_path ->
        add H title when_dt macro_path speed loops uid fresh s fs
        = Ok (s1, fs1, id) ->
        snd (write_table s1 fs) = Ok tt ->
        __init__ (_persist_path s) fs1 = Ok s1) /\
    (forall uid s1 fs1,
        assoc_get uid d <> None ->
        remove uid s fs = Ok (s1, fs1) ->
        snd (write_table s1 fs) = Ok tt ->
        __init__ (_persist_path s) fs1 = Ok s1).
Proof.
  intros H s fs d He Hwf.
  apply wf_dict in Hwf as [Hnd Hall]. split.
  - intros title when_dt macro_path speed loops uid fresh s1 fs1 id Ht Hm.
    unfold add, bind. rewrite He.
    destruct (py_float H speed) as [sp|]; [|discriminate].
    destruct (py_int H loops) as [lp|]; [|discriminate].
    rewrite save_cases. intros [= <- <- <-] Hw.
    destruct (write_table _ fs) as [fs1 r] eqn:Ew. cbn [fst snd] in *. subst r.
    apply restart_after_write in Ew; auto; cbn [_events set_events].
    apply wf_dict. split.
    + apply NoDup_ListNoDup, dict_set_NoDup, NoDup_ListNoDup, Hnd.
    + apply dict_set_Forall; [|exact Hall]. cbn [snd wf_pyval].
      repeat split; auto.
      apply NoDup_ListNoDup.
      repeat (constructor; [cbn; intuition discriminate|]). constructor.
  - intros uid s1 fs1 Hin. unfold remove, contains, bind.
    rewrite He.
    destruct (assoc_get uid d); [|congruence].
    rewrite save_cases. intros [= <- <-] Hw.
    destruct (write_table _ fs) as [fs1 r] eqn:Ew. cbn [fst snd] in *. subst r.
    apply restart_after_write in Ew; auto; cbn [_events set_events].
    apply wf_dict. split.
    + apply NoDup_ListNoDup, dict_del_NoDup, NoDup_ListNoDup, Hnd.
    + now apply dict_del_Forall.
Qed.

End SchedulerTable.

Section SchedulerLoop.
Import Scheduler.
Context (H : host).

Lemma scan_sub (now : datetime) (items : list (string * pyval)) :
  forall (tbl tbl' : list (string * pyval)) (r : result (list pyval)),
    scan H now items tbl = (tbl', r) ->
    (forall k e, List.In (k, e) tbl' -> List.In (k, e) tbl) /\
    (List.NoDup (map fst tbl) -> List.NoDup (map fst tbl')).
Proof.
  induction items as [|[k0 e0] rest IH]; intros tbl tbl' r Hs; cbn in Hs.
  - injection Hs as <- <-. auto.
  - destruct (is_due H now e0) as [[|]|x]; [| |injection Hs as <- <-; auto].
    + destruct (scan H now rest (dict_del k0 tbl)) as [tbl1 [due1|x]] eqn:Es;
        injection Hs as <- <-; destruct (IH _ _ _ Es) as [Hin Hnd];
        (split; [intros k e Hi; eapply dict_del_In; eauto
                | intros Hd; apply Hnd; now apply dict_del_NoDup]).
    + exact (IH _ _ _ Hs).
Qed.

Lemma assoc_get_Some_In (k : string) (e : pyval) (d : list (string * pyval)) :
  assoc_get k d = Some e -> List.In (k, e) d.
Proof.
  induction d as [|[k0 v0] d IH]; [discriminate|]. cbn.
  destruct (String.eqb_spec k k0) as [-> | _];
    [intros [= ->]; now left | right; auto].
Qed.

(** The loop over a table whose fire times are all naive dates, like the
    instants of the clock, never raises, whatever the macros do.  When it
    has run through the given instants, the table holds exactly the
    triggers that were due at none of them; nothing is ever added. *)
Theorem loop_keeps_only_future_triggers :
  forall (ticks : list datetime) (s : t) (fs : gmap string Fs.node)
         (d : list (string * pyval)),
    _events s = PDict d ->
    List.NoDup (map fst d) ->
    Forall naive ticks ->
    (forall k e, List.In (k, e) d -> exists w, fires_at H e w /\ naive w) ->
    exists tbl fs' tr,
      _loop H ticks s fs = (set_events (PDict tbl) s, fs', (tr, Ok tt)) /\
      (forall k e, List.In (k, e) tbl -> List.In (k, e) d) /\
      (forall k e w, List.In (k, e) d -> fires_at H e w ->
         assoc_get k tbl
         = if existsb (dt_leb w) ticks then None else Some e).
Proof.
  induction ticks as [|now ticks IH]; intros s fs d He Hnd Hticks Hw.
  - exists d, fs, []. cbn [_loop existsb]. split; [|split; [auto|]].
    + destruct s as [ev p]. cbn in He. now subst ev.
    + intros k e w Hin _. now apply assoc_get_In.
  - apply Forall_cons in Hticks as [Hnow Hticks].
    assert (Hdue : forall k e w, List.In (k, e) d -> fires_at H e w ->
                                 is_due H now e = Ok (dt_leb w now)).
    { intros k e w Hin Hf. destruct (Hw k e Hin) as (w' & Hf' & Hn').
      rewrite (fires_at_fun H _ _ _ Hf Hf'). now apply is_due_naive. }
    assert (Hb : forall k e, List.In (k, e) d ->
                             exists b, is_due H now e = Ok b).
    { intros k e Hin. destruct (Hw k e Hin) as (w & Hf & _).
      rewrite (Hdue k e w Hin Hf). eauto. }
    destruct (scan_total H now d d Hb) as (tbl1 & due & Hs).
    destruct (scan_spec H now d d tbl1 due Hs) as (_ & Hd & Hk & _).
    destruct (scan_sub now d d tbl1 _ Hs) as [Hsub Hnd1].
    specialize (Hnd1 Hnd).
    cbn [_loop]. unfold cycle. rewrite He, Hs.
    set (s1 := set_events (PDict tbl1) s).
    set (fs1 := match due with [] => fs | _ => _ end).
    unfold obind. rewrite (fire_all_spec H).
    destruct (IH s1 fs1 tbl1 eq_refl Hnd1 Hticks)
      as (tbl & fs' & tr & Hl & Hin & Hget).
    { intros k e Hi. apply (Hw k e), Hsub, Hi. }
    rewrite Hl. eexists tbl, fs', _. split; [reflexivity|]. split.
    + intros k e Hi. apply Hsub, Hin, Hi.
    + intros k e w Hi Hwe. cbn [existsb].
      pose proof (Hdue k e w Hi Hwe) as Ed.
      destruct (dt_leb w now) eqn:El.
      * cbn [orb]. destruct (Hd Hnd k e Hi Ed) as [Hnone _].
        destruct (assoc_get k tbl) as [e'|] eqn:Eg; [|reflexivity].
        assert (Hi' : List.In (k, e') tbl1)
          by now apply Hin, assoc_get_Some_In.
        rewrite (assoc_get_In _ _ _ Hnd1 Hi') in Hnone. discriminate.
      * cbn [orb]. apply Hget; [|exact Hwe].
        apply assoc_get_Some_In.
        rewrite Hk; [now apply assoc_get_In|].
        intros e' Hi'.
        assert (e' = e) as ->
            by (apply (assoc_get_In _ _ _ Hnd) in Hi, Hi'; congruence).
        exact Ed.
Qed.

End SchedulerLoop.

(** ** A recording replayed *)

Section RecordThenPlay.
Import Macro.
Context (H : host).

Lemma inputs_app (a b : list action) : inputs (a ++ b) = inputs a ++ inputs b.
Proof.
  unfold inputs. induction a as [|x a IH]; cbn; [reflexivity|].
  destruct (negb (is_sleep x)); cbn; now rewrite IH.
Qed.

Lemma inputs_replayed (suppress : list string) (c : call) :
  inputs (replayed H suppress c) = replayed H suppress c.
Proof.
  destruct c; cbn; try reflexivity.
  - destruct pressed; reflexivity.
  - destruct (replayed_key H suppress key); reflexivity.
  - destruct (replayed_key H suppress key); reflexivity.
Qed.

Lemma pause_spec (s now last : dec) : inputs (pause s now last) = [].
Proof.
  unfold pause. cbn zeta.
  destruct (Qle_bool (dec_to_Q (dec_sub now last) / dec_to_Q (clamp_speed s)) 0);
    reflexivity.
Qed.

Lemma dec_pos_truthy (d : dec) : (0 < dec_to_Q d)%Q -> dec_truthy d = true.
Proof.
  unfold dec_truthy, dec_to_Q. destruct (Z.eqb_spec (mant d) 0) as [E|]; auto.
  rewrite E. intros Hlt. rewrite Qmult_0_l in Hlt. discriminate.
Qed.

(** One notification, recorded and then replayed. *)
Lemma record_play_step (speed : pyval) (s : dec) (suppress : list string)
  (c : call) (now last : dec) (m : t) (l : list pyval) :
  recording m = true -> paused m = false -> events m = PList l ->
  _last_ts m = Some last -> dec_truthy last = true ->
  is_notification c = true -> filtered c m = false ->
  known_button H c = true -> clock_of c = Some now ->
  (forall a, rejects H a = false) ->
  py_float H speed = Ok s ->
  exists item,
    step c m = Ok (set_events (PList (l ++ [item])) (set_last_ts (Some now) m)) /\
    apply_event H speed suppress item
    = (pause s now last ++ replayed H suppress c, Ok tt) /\
    (forall rest, first_xy_in H (item :: rest)
                  = match pos_of c with
                    | Some p => Ok (Some p)
                    | None => first_xy_in H rest
                    end).
Proof.
  intros Hr Hp He Hl Ht Hn Hf Hb Hc Hrej Hs. unfold pause.
  destruct c; try discriminate Hn; cbn in Hc, Hf, Hb; injection Hc as ->; cbn;
    unfold _on_move, _on_click, _on_scroll, _on_press, _on_release, on_key;
    rewrite ?Hf; try destruct key as [[ch|]|n]; cbn [key_fields];
    unfold _dt, _rec; cbn [fst snd set_last_ts recording paused events];
    rewrite Hr, Hp, He, Hl, Ht; cbn [negb orb];
    (eexists; split; [reflexivity|]); (split; [|reflexivity]);
    unfold apply_event, scaled_delay, set_position, int_field, button_of,
      int_field_default, key_of, py_get_default, lift, obind, bind, emit;
    cbn [py_get assoc_get String.eqb Ascii.eqb Bool.eqb py_float py_index
           py_is_str py_int py_truthy replayed replayed_key];
    rewrite ?Hs, ?Hb, ?Hrej; cbn zeta;
    destruct (Qle_bool (dec_to_Q (dec_sub now last) / dec_to_Q (clamp_speed s)) 0);
    cbn; rewrite ?Hrej; try reflexivity;
    try (destruct pressed; reflexivity);
    destruct (key_member H n && negb (existsb (String.eqb n) suppress));
    cbn; rewrite ?Hrej; reflexivity.
Qed.

Lemma filtered_same (c : call) (m m' : t) :
  _control_keys m' = _control_keys m -> filtered c m' = filtered c m.
Proof.
  intros E. destruct c; try reflexivity; cbn; unfold in_control_keys; now rewrite E.
Qed.

Lemma record_play_run (speed : pyval) (s : dec) (suppress : list string) :
  (forall a, rejects H a = false) ->
  py_float H speed = Ok s ->
  forall (cs : list call) (m : t) (l : list pyval) (last : dec),
    recording m = true -> paused m = false -> events m = PList l ->
    _last_ts m = Some last -> (0 < dec_to_Q last)%Q ->
    clock_from (dec_to_Q last) cs ->
    Forall (fun c => is_notification c = true /\ filtered c m = false /\
                     known_button H c = true) cs ->
    exists m1 items tr,
      run cs m = Ok m1 /\ events m1 = PList (l ++ items) /\
      length items = length cs /\
      first_xy_in H items = Ok (first_pos cs) /\
      one_pass H speed suppress items = (tr, Ok tt) /\
      inputs tr = concat (map (replayed H suppress) cs).
Proof.
  intros Hrej Hs. induction cs as [|c cs IH]; intros m l last Hr Hp He Hl Hpos Hck Hall.
  - exists m, [], []. rewrite app_nil_r. cbn. repeat split; auto.
  - apply Forall_cons in Hall as [(Hn & Hf & Hb) Hall].
    destruct (clock_of c) as [now|] eqn:Hc; [|destruct c; discriminate].
    cbn [clock_from] in Hck. rewrite Hc in Hck. destruct Hck as [Hle Hck].
    destruct (record_play_step speed s suppress c now last m l Hr Hp He Hl
                (dec_pos_truthy _ Hpos) Hn Hf Hb Hc Hrej Hs)
      as (item & Hstep & Happ & Hxy).
    set (m' := set_events (PList (l ++ [item])) (set_last_ts (Some now) m)) in *.
    destruct (IH m' (l ++ [item]) now) as (m1 & items & tr & Hrun & Hev & Hlen & Hfx & Hone & Hin);
      try reflexivity; auto.
    { eapply Qlt_le_trans; eauto. }
    exists m1, (item :: items), (pause s now last ++ replayed H suppress c ++ tr).
    pose proof (pause_spec s now last) as Hpi.
    pose proof (inputs_replayed suppress c) as Hri.
    repeat split.
    + cbn [run]. unfold bind. now rewrite Hstep.
    + rewrite Hev, <- app_assoc. reflexivity.
    + cbn [length]. now rewrite Hlen.
    + rewrite Hxy. cbn [first_pos]. destruct (pos_of c); auto.
    + cbn [one_pass]. unfold obind. rewrite Happ, Hone. now rewrite <- app_assoc.
    + rewrite !inputs_app, Hpi, Hri, Hin. reflexivity.
Qed.

(** A recording replayed: from an idle macro, a recording started at
    [t0] and fed notifications under a clock that never runs backwards
    stores one event for each of them; one pass over these events never
    raises and makes exactly the controller calls of the notifications,
    in their order, with nothing but sleeps between them; a playback
    that is not aborted moves the pointer to the first position recorded
    and makes that pass [max(1, loops)] times. *)
Theorem record_then_play :
  forall (speed : pyval) (s : dec) (suppress : list string) (t0 : dec)
         (cs : list call) (m : t),
    recording m = false ->
    (0 < dec_to_Q t0)%Q ->
    clock_from (dec_to_Q t0) cs ->
    Forall (fun c => is_notification c = true /\ filtered c m = false /\
                     known_button H c = true) cs ->
    (forall a, rejects H a = false) ->
    py_float H speed = Ok s ->
    exists m1 items tr,
      run (CStart t0 :: cs) m = Ok m1 /\ events m1 = PList items /\
      length items = length cs /\
      _first_xy H m1 = Ok (first_pos cs) /\
      one_pass H speed suppress items = (tr, Ok tt) /\
      inputs tr = concat (map (replayed H suppress) cs) /\
      (forall abort loops n,
          cs <> [] -> quiet abort -> py_int H loops = Ok n ->
          play H abort speed loops suppress m1
          = (set_stop_flag false m1,
             (first_move (first_pos cs)
                ++ repeat_trace (Z.to_nat (Z.max 1 n)) tr, Ok tt))).
Proof.
  intros speed s suppress t0 cs m Hidle Hpos Hck Hall Hrej Hs.
  destruct (record_play_run speed s suppress Hrej Hs cs (start_recording t0 m)
              [] t0) as (m1 & items & tr & Hrun & Hev & Hlen & Hfx & Hone & Hin);
    unfold start_recording; rewrite ?Hidle; try reflexivity; auto.
  exists m1, items, tr. cbn [run step]. unfold bind.
  unfold start_recording in *. rewrite Hidle in *.
  assert (Hfirst : _first_xy H m1 = Ok (first_pos cs)).
  { unfold _first_xy, bind. rewrite Hev. cbn [py_iter app]. exact Hfx. }
  repeat split; auto.
  intros abort loops n Hne Hq Hn.
  apply (play_quiet H abort speed loops suppress m1 items (first_pos cs) n tr);
    auto.
  - rewrite Hev. cbn [app]. destruct items; [|reflexivity].
    destruct cs; [contradiction | discriminate].
  - rewrite Hev. reflexivity.
  - destruct (first_pos cs) as [[x y]|]; cbn; repeat constructor. apply Hrej.
Qed.

End RecordThenPlay.

(** ** Keys a playback never touches *)

Section SuppressedKeys.
Import Macro.
Context (H : host).

Lemma emit_Forall (P : action -> Prop) (a : action) :
  P a -> Forall P (fst (emit H a)).
Proof.
  intros Ha. unfold emit. destruct (rejects H a); cbn; repeat constructor; auto.
Qed.

Lemma obind_Forall {A B} (P : action -> Prop) (m : out A) (k : A -> out B) :
  Forall P (fst m) ->
  (forall a, snd m = Ok a -> Forall P (fst (k a))) ->
  Forall P (fst (obind m k)).
Proof.
  intros Hm Hk. destruct m as [tr [a|e]]; cbn in *; [|exact Hm].
  specialize (Hk a eq_refl). destruct (k a) as [tr' r]. cbn in *.
  apply Forall_app. split; assumption.
Qed.

Lemma set_position_Forall (P : action -> Prop) (ev : pyval) :
  (forall x y, P (SetPosition x y)) -> Forall P (fst (set_position H ev)).
Proof.
  intros HP. unfold set_position.
  apply obind_Forall; [constructor|]. intros x _.
  apply obind_Forall; [constructor|]. intros y _.
  now apply emit_Forall.
Qed.

(** The key an event acts on is never a suppressed member of
    [keyboard.Key]. *)
Lemma key_of_not_suppressed (suppress : list string) (ev : pyval) (n : string) :
  existsb (String.eqb n) suppress = true ->
  key_of H suppress ev <> Ok (Some (KSpecial n)).
Proof.
  intros Hn. unfold key_of, bind.
  destruct (py_get ev "key") as [k|]; [|discriminate].
  destruct (py_get ev "kind") as [kind|]; [|discriminate].
  destruct (py_is_str kind "char"); [discriminate|].
  destruct k as [[| | | |name| |]|]; try discriminate.
  destruct (key_member H name && negb (existsb (String.eqb name) suppress)) eqn:E;
    [|discriminate].
  intros [= ->]. apply andb_true_iff in E as [_ E]. rewrite Hn in E. discriminate.
Qed.

Lemma apply_event_spares (speed : pyval) (suppress : list string) (ev : pyval)
  (n : string) :
  existsb (String.eqb n) suppress = true ->
  Forall (fun a => hits_key n a = false) (fst (apply_event H speed suppress ev)).
Proof.
  intros Hn. unfold apply_event.
  apply obind_Forall; [constructor|]. intros t _.
  apply obind_Forall.
  { destruct (Qle_bool t 0); repeat constructor. }
  intros _ _. apply obind_Forall; [constructor|]. intros typ _.
  destruct (py_is_str typ "move"); [now apply set_position_Forall|].
  destruct (py_is_str typ "click").
  { apply obind_Forall; [constructor|]. intros btn _.
    apply obind_Forall; [now apply set_position_Forall|]. intros _ _.
    apply obind_Forall; [constructor|]. intros pressed _.
    destruct (py_truthy pressed); now apply emit_Forall. }
  destruct (py_is_str typ "scroll").
  { apply obind_Forall; [now apply set_position_Forall|]. intros _ _.
    apply obind_Forall; [constructor|]. intros dx _.
    apply obind_Forall; [constructor|]. intros dy _.
    now apply emit_Forall. }
  destruct (py_is_str typ "key"); [|constructor].
  apply obind_Forall; [constructor|]. intros [keyobj|] Hk; [|constructor].
  cbn in Hk.
  assert (Hne : hits_key n (KeyPress keyobj) = false /\
                hits_key n (KeyRelease keyobj) = false).
  { destruct keyobj as [v|name]; [split; reflexivity|]. cbn.
    destruct (String.eqb_spec name n) as [-> | _]; [|split; reflexivity].
    exfalso. exact (key_of_not_suppressed suppress ev n Hn Hk). }
  apply obind_Forall; [constructor|]. intros action _.
  destruct (py_is_str action "press"); apply emit_Forall; tauto.
Qed.

Lemma play_events_spares (abort : nat -> bool) (speed : pyval)
  (suppress : list string) (n : string) (evs : list pyval) :
  existsb (String.eqb n) suppress = true ->
  forall (k : nat) (m : t),
    Forall (fun a => hits_key n a = false)
           (fst (snd (play_events H abort speed suppress evs k m))).
Proof.
  intros Hn. induction evs as [|ev evs IH]; intros k m; cbn [play_events].
  - constructor.
  - destruct (_stop_flag (interleave abort k m)); [constructor|].
    pose proof (apply_event_spares speed suppress ev n Hn) as Hq.
    destruct (apply_event H speed suppress ev) as [tr [[]|e]]; [|exact Hq].
    specialize (IH (S k) (interleave abort k m)).
    destruct (play_events H abort speed suppress evs (S k) (interleave abort k m))
      as [[m' k'] [tr' res]].
    cbn in *. apply Forall_app. split; assumption.
Qed.

Lemma play_loops_spares (abort : nat -> bool) (speed : pyval)
  (suppress : list string) (n : string) (loops : nat) :
  existsb (String.eqb n) suppress = true ->
  forall (k : nat) (m : t),
    Forall (fun a => hits_key n a = false)
           (fst (snd (play_loops H abort speed suppress loops k m))).
Proof.
  intros Hn. induction loops as [|loops IH]; intros k m; cbn [play_loops].
  - constructor.
  - destruct (_stop_flag (interleave abort k m)); [constructor|].
    destruct (py_iter (events (interleave abort k m))) as [evs|e]; [|constructor].
    pose proof (play_events_spares abort speed suppress n evs Hn (S k)
                  (interleave abort k m)) as Hq.
    destruct (play_events H abort speed suppress evs (S k) (interleave abort k m))
      as [[m' k'] [tr [[]|e]]]; [|exact Hq].
    specialize (IH k' m').
    destruct (play_loops H abort speed suppress loops k' m')
      as [[m'' k''] [tr' res]].
    cbn in *. apply Forall_app. split; assumption.
Qed.

Lemma play_spares (abort : nat -> bool) (speed loops : pyval)
  (suppress : list string) (n : string) (m : t) :
  existsb (String.eqb n) suppress = true ->
  Forall (fun a => hits_key n a = false)
         (fst (snd (play H abort speed loops suppress m))).
Proof.
  intros Hn. unfold play.
  destruct (negb (py_truthy (events m))); [constructor|].
  destruct (_first_xy H (set_stop_flag false m)) as [first|e]; [|constructor].
  assert (Hrest : forall tr0, Forall (fun a => hits_key n a = false) tr0 ->
            Forall (fun a => hits_key n a = false)
              (fst (snd (match py_int H loops with
                         | Raise e => (set_stop_flag false m, (tr0, Raise e))
                         | Ok z =>
                             let '(m', _, (tr, res)) :=
                               play_loops H abort speed suppress
                                 (Z.to_nat (Z.max 1 z)) 0 (set_stop_flag false m) in
                             (m', (tr0 ++ tr, res))
                         end)))).
  { intros tr0 H0. destruct (py_int H loops) as [z|e]; [|exact H0].
    pose proof (play_loops_spares abort speed suppress n (Z.to_nat (Z.max 1 z)) Hn
                  0%nat (set_stop_flag false m)) as Hq.
    destruct (play_loops H abort speed suppress (Z.to_nat (Z.max 1 z)) 0
                (set_stop_flag false m)) as [[m' k'] [tr res]].
    cbn in *. apply Forall_app. split; assumption. }
  destruct first as [[x y]|]; cbn [lift].
  - unfold emit. destruct (rejects H (SetPosition x y)); [constructor|].
    apply Hrest. repeat constructor.
  - apply Hrest. constructor.
Qed.

(** A playback never presses or releases a suppressed member of
    [keyboard.Key], whatever the events are and however it ends; so
    neither a trigger fired by the scheduler nor a playback started from
    the window ever presses the keys F7 to F10. *)
Theorem playback_spares_suppressed_keys :
  forall (n : string),
    (forall abort speed loops suppress m,
        existsb (String.eqb n) suppress = true ->
        Forall (fun a => hits_key n a = false)
               (fst (snd (play H abort speed loops suppress m)))) /\
    (forall fs e,
        existsb (String.eqb n) Scheduler.control_keys = true ->
        Forall (fun a => hits_key n a = false)
               (fst (Scheduler._run_event H fs e))) /\
    (forall abort a,
        existsb (String.eqb n) App.hotkeys = true ->
        Forall (fun x => hits_key n x = false)
               (fst (snd (App._play_thread H abort a)))).
Proof.
  intros n. split; [|split].
  - intros abort speed loops suppress m Hn. now apply play_spares.
  - intros fs e Hn. unfold Scheduler._run_event.
    apply obind_Forall; [constructor|]. intros p _.
    destruct p as [| | | |path| |]; try constructor.
    destruct (Fs.isfile fs path); [|constructor].
    destruct (load path fs __init__) as [m [[]|x]]; [|constructor].
    apply obind_Forall; [constructor|]. intros speed _.
    apply obind_Forall; [constructor|]. intros loops _.
    now apply play_spares.
  - intros abort a Hn. unfold App._play_thread.
    pose proof (play_spares abort (App.speed a) (App.loops a) App.hotkeys n
                  (App.macro a) Hn) as Hq.
    destruct (play H abort (App.speed a) (App.loops a) App.hotkeys (App.macro a))
      as [m [tr [[]|e]]]; exact Hq.
Qed.

End SuppressedKeys.

(** ** The window *)

Section WindowActions.
Import App.

Lemma on_load_cases (path : string) (fs : gmap string Fs.node) (a : t) :
  path <> EmptyString ->
  on_load path fs a
  = match fs !! path with
    | Some (Fs.Regular text) =>
        match Json.loads text with
        | Some v =>
            match py_len v with
            | Ok n => (set_status (counted "Loaded" n)
                         (set_macro (Macro.set_events v (macro a)) a), [])
            | Raise e => (set_macro (Macro.set_events v (macro a)) a,
                          [ShowError "Load failed" e])
            end
        | None => (a, [ShowError "Load failed" JSONDecodeError])
        end
    | Some Fs.Undecodable => (a, [ShowError "Load failed" UnicodeDecodeError])
    | Some Fs.Denied | Some Fs.Directory | Some Fs.Unreachable | None =>
        (a, [ShowError "Load failed" OSError])
    end.
Proof.
  intros Hp. unfold on_load. rewrite load_cases.
  destruct path; [contradiction|].
  destruct (fs !! String a0 path) as [[text| | | |]|];
    [destruct (Json.loads text)|..]; destruct a; reflexivity.
Qed.

(** [on_load] shows at most one dialog and never raises.  When the load
    raises, the window is as it was and the dialog names the error.  When
    the file holds a list or an object, its value becomes the events and
    the status counts them.  When it holds JSON of another kind that has
    no length, the events are replaced all the same, while the status
    stays and the dialog says the load failed. *)
Theorem on_load_reports :
  forall (path : string) (fs : gmap string Fs.node) (a : t),
    path <> EmptyString ->
    (forall e, snd (Macro.load path fs (macro a)) = Raise e ->
               on_load path fs a = (a, [ShowError "Load failed" e])) /\
    (forall text v n,
        fs !! path = Some (Fs.Regular text) -> Json.loads text = Some v ->
        py_len v = Ok n ->
        on_load path fs a
        = (set_status (counted "Loaded" n)
             (set_macro (Macro.set_events v (macro a)) a), [])) /\
    (forall text v e,
        fs !! path = Some (Fs.Regular text) -> Json.loads text = Some v ->
        py_len v = Raise e ->
        on_load path fs a
        = (set_macro (Macro.set_events v (macro a)) a,
           [ShowError "Load failed" e]) /\ e = TypeError).
Proof.
  intros path fs a Hp. rewrite (on_load_cases path fs a Hp), load_cases.
  split; [|split].
  - intros e.
    destruct (fs !! path) as [[text| | | |]|];
      [destruct (Json.loads text)|..]; cbn [snd]; intros [= <-]; reflexivity.
  - intros text v n -> -> Hn. now rewrite Hn.
  - intros text v e -> -> He. rewrite He. split; [reflexivity|].
    destruct v; cbn in He; congruence.
Qed.

(** What [on_save] wrote, [on_load] reads back.  Once the save of a list
    of events has gone through, the status says so and a load from that
    path, into any window, stores the same events and reports their
    number, without a dialog.  When the save raises, the status stays and
    the dialog names the error. *)
Theorem on_save_then_on_load :
  forall (path : string) (fs : gmap string Fs.node) (a b : t) (l : list pyval),
    path <> EmptyString ->
    Macro.events (macro a) = PList l ->
    wf_pyval (PList l) ->
    (forall fs', Macro.save path fs (macro a) = (fs', Ok tt) ->
       on_save path fs a = (set_status "Saved" a, fs', []) /\
       on_load path fs' b
       = (set_status (counted "Loaded" (length l))
            (set_macro (Macro.set_events (PList l) (macro b)) b), [])) /\
    (forall fs' e, Macro.save path fs (macro a) = (fs', Raise e) ->
       on_save path fs a = (a, fs', [ShowError "Save failed" e])).
Proof.
  intros path fs a b l Hp He Hwf. split.
  - intros fs' Hs. split.
    + unfold on_save. rewrite Hs. destruct path; [contradiction | reflexivity].
    + apply macro_save_inv in Hs. subst fs'. rewrite He.
      rewrite (on_load_cases path _ b Hp), lookup_insert_eq.
      now rewrite loads_dumps.
  - intros fs' e Hs. unfold on_save. rewrite Hs.
    destruct path; [contradiction | reflexivity].
Qed.

(** A macro that holds a surrogate in one of its strings cannot be
    saved: on a path that can be written, [on_save] leaves the status as
    it was and shows the error, and the file, emptied when it was opened,
    holds only a first part of the text of the events. *)
Theorem surrogate_events_not_saved :
  forall (path : string) (fs : gmap string Fs.node) (a : t),
    path <> EmptyString ->
    Fs.writable fs path = true ->
    Json.encodable_value (Macro.events (macro a)) = false ->
    exists w rest e,
      on_save path fs a
      = (a, <[path := Fs.Regular w]> fs, [ShowError "Save failed" e]) /\
      w +:+ rest = Json.dumps (Macro.events (macro a)) /\
      rest <> EmptyString.
Proof.
  intros path fs a Hp Hw He.
  destruct (macro_save_torn path fs (macro a) Hw He) as (w & rest & Hs & E & Hne).
  exists w, rest, UnicodeEncodeError. split; [|auto].
  unfold on_save. rewrite Hs. destruct path; [contradiction | reflexivity].
Qed.

End WindowActions.

Section WindowRecorder.
Import App.

(** The hot key F8 starts a recording when none runs and stops the one
    that runs: each press flips the recording flag.  A start empties the
    events; a stop keeps them and puts their number in the status. *)
Theorem hotkey_toggles_recording :
  forall (now : dec) (a : t) (l : list pyval),
    Macro.events (macro a) = PList l ->
    snd (_hk_record_stop now a) = Ok tt /\
    Macro.recording (macro (fst (_hk_record_stop now a)))
    = negb (Macro.recording (macro a)) /\
    (if Macro.recording (macro a)
     then Macro.events (macro (fst (_hk_record_stop now a))) = PList l /\
          status (fst (_hk_record_stop now a)) = counted "Recorded" (length l)
     else Macro.events (macro (fst (_hk_record_stop now a))) = PList [] /\
          status (fst (_hk_record_stop now a)) = "Recording…"%string).
Proof.
  intros now a l He. unfold _hk_record_stop, on_stop, on_record.
  destruct (Macro.recording (macro a)) eqn:Er.
  - unfold Macro.stop_recording. rewrite Er. cbn. rewrite He. cbn. auto.
  - unfold Macro.start_recording. cbn. rewrite Er. cbn. auto.
Qed.

(** While nothing is recorded the pause button changes nothing in the
    macro, and yet the status reads Recording (or Paused, when the last
    recording was stopped while paused). *)
Theorem pause_while_idle_misreports :
  forall (now : dec) (a : t),
    Macro.recording (macro a) = false ->
    macro (on_pause now a) = macro a /\
    Macro.recording (macro (on_pause now a)) = false /\
    status (on_pause now a)
    = (if Macro.paused (macro a) then "Paused" else "Recording…")%string.
Proof.
  intros now a Hr. unfold on_pause, Macro.pause_toggle. rewrite Hr. cbn.
  rewrite Hr. auto.
Qed.

End WindowRecorder.

Section ControlKeys.
Import Macro.

Lemma step_control_keys (c : call) (m m' : t) :
  step c m = Ok m' -> _control_keys m' = _control_keys m.
Proof.
  destruct c; cbn;
    unfold start_recording, stop_recording, pause_toggle, _on_move, _on_click,
      _on_scroll, _on_press, _on_release, on_key, _dt, _rec;
    try destruct (in_control_keys key m); try destruct (key_fields key);
    cbn [fst snd set_last_ts recording paused events];
    try destruct (negb (recording m) || paused m);
    try destruct (recording m); cbn;
    try (intros [= <-]; reflexivity);
    destruct (events m); intros [= <-]; reflexivity.
Qed.

Lemma rawkey_eqb_neq (n n' : string) (ks : list rawkey) :
  existsb (rawkey_eqb (Key n)) ks = true ->
  existsb (rawkey_eqb (Key n')) ks = false ->
  String.eqb n' n = false.
Proof.
  intros H1 H2. destruct (String.eqb_spec n' n) as [-> | _]; [|reflexivity].
  congruence.
Qed.

Lemma step_spares_control_key (n : string) (c : call) (m m' : t)
  (l : list pyval) :
  in_control_keys (Key n) m = true ->
  events m = PList l -> Forall (fun it => names_special n it = false) l ->
  step c m = Ok m' ->
  exists l', events m' = PList l' /\
             Forall (fun it => names_special n it = false) l'.
Proof.
  intros Hn He Hl.
  assert (Hadd : forall item m0, events m0 = PList l ->
            names_special n item = false -> forall m1,
            _rec item m0 = Ok m1 ->
            exists l', events m1 = PList l' /\
                       Forall (fun it => names_special n it = false) l').
  { intros item m0 He0 Hi m1. unfold _rec.
    destruct (negb (recording m0) || paused m0).
    - intros [= <-]. eauto.
    - rewrite He0. intros [= <-]. cbn. eexists. split; [reflexivity|].
      apply Forall_app. split; [exact Hl | repeat constructor; exact Hi]. }
  destruct c; cbn.
  - intros [= <-]. unfold start_recording.
    destruct (recording m); cbn; eauto.
  - intros [= <-]. unfold stop_recording.
    destruct (negb (recording m)); cbn; eauto.
  - intros [= <-]. unfold pause_toggle. destruct (recording m); cbn; eauto.
  - unfold _on_move, _dt. apply Hadd; [exact He | reflexivity].
  - unfold _on_click, _dt. apply Hadd; [exact He | reflexivity].
  - unfold _on_scroll, _dt. apply Hadd; [exact He | reflexivity].
  - unfold _on_press, on_key. destruct (in_control_keys key m) eqn:Ek.
    + intros [= <-]. eauto.
    + destruct key as [[ch|]|n']; cbn [key_fields]; unfold _dt;
        (apply Hadd; [exact He|]); try reflexivity.
      cbn. exact (rawkey_eqb_neq n n' _ Hn Ek).
  - unfold _on_release, on_key. destruct (in_control_keys key m) eqn:Ek.
    + intros [= <-]. eauto.
    + destruct key as [[ch|]|n']; cbn [key_fields]; unfold _dt;
        (apply Hadd; [exact He|]); try reflexivity.
      cbn. exact (rawkey_eqb_neq n n' _ Hn Ek).
Qed.

(** A control key never gets into a recording: whatever calls reach a
    macro, its events hold no event of a key that is among its control
    keys, if they held none before; so the macro of the window never
    records the keys F7 to F10. *)
Theorem recording_never_holds_control_keys :
  forall (n : string),
    (forall (cs : list call) (m m' : t) (l : list pyval),
        in_control_keys (Key n) m = true ->
        events m = PList l ->
        Forall (fun it => names_special n it = false) l ->
        run cs m = Ok m' ->
        exists l', events m' = PList l' /\
                   Forall (fun it => names_special n it = false) l') /\
    (forall (cs : list call) (m' : t),
        existsb (String.eqb n) App.hotkeys = true ->
        run cs (Mk (PList []) false false None false (map Key App.hotkeys))
        = Ok m' ->
        exists l', events m' = PList l' /\
                   Forall (fun it => names_special n it = false) l').
Proof.
  intros n.
  assert (Hgen : forall (cs : list call) (m m' : t) (l : list pyval),
             in_control_keys (Key n) m = true ->
             events m = PList l ->
             Forall (fun it => names_special n it = false) l ->
             run cs m = Ok m' ->
             exists l', events m' = PList l' /\
                        Forall (fun it => names_special n it = false) l').
  { induction cs as [|c cs IH]; intros m m' l Hn He Hl; cbn [run].
    - intros [= <-]. eauto.
    - unfold bind. destruct (step c m) as [m1|] eqn:Es; [|discriminate].
      destruct (step_spares_control_key n c m m1 l Hn He Hl Es) as (l1 & He1 & Hl1).
      apply (IH m1 m' l1); auto.
      unfold in_control_keys in *. now rewrite (step_control_keys c m m1 Es). }
  split; [exact Hgen|].
  intros cs m' Hn. apply (Hgen cs _ m' []); [|reflexivity|constructor].
  unfold in_control_keys. cbn in *.
  destruct (String.eqb_spec n "f8") as [-> | _]; [reflexivity|].
  destruct (String.eqb_spec n "f7") as [-> | _]; [reflexivity|].
  destruct (String.eqb_spec n "f9") as [-> | _]; [reflexivity|].
  destruct (String.eqb_spec n "f10") as [-> | _]; [reflexivity|].
  discriminate.
Qed.

End ControlKeys.

Section WindowStart.
Import App.

(** The window cannot be built: [App(root)] raises [AttributeError],
    whatever the date, the files and the drawing of the calendar, because
    the Remove button takes its command from a method
    [_remove_selected_event] that the class does not define. *)
Theorem window_cannot_start :
  forall (draw : t -> t * result unit) (now : datetime) (path : string)
         (fs : gmap string Fs.node),
    __init__ draw now path fs = Raise AttributeError /\
    bound_method "_remove_selected_event" = Raise AttributeError /\
    _build_macro_ui = Ok tt /\
    (forall a, _build_sched_ui draw a = Raise AttributeError).
Proof.
  intros draw now path fs.
  split; [|split; [reflexivity | split; [reflexivity | intros a; reflexivity]]].
  unfold __init__, Scheduler.__init__, Scheduler.load, Scheduler.try_except,
    Fs.read_text, bind.
  cbn [Scheduler._persist_path].
  change (bound_method "_hk_record_stop") with (Ok tt).
  change (bound_method "on_pause") with (Ok tt).
  change (bound_method "on_play") with (Ok tt).
  change (bound_method "on_abort") with (Ok tt).
  change _build_macro_ui with (Ok tt). cbv iota beta.
  destruct (fs !! path) as [[text| | | |]|];
    [destruct (Json.loads text)|..]; reflexivity.
Qed.

End WindowStart.

(** ** The months of the calendar *)

Section Navigation.
Import Dates.

Lemma In_zrange (n : nat) :
  forall lo x, lo <= x < lo + Z.of_nat n -> List.In x (zrange lo n).
Proof.
  induction n as [|n IH]; intros lo x Hx; [lia|].
  cbn [zrange]. destruct (Z.eq_dec x lo) as [-> | Hne]; [now left|].
  right. apply IH. lia.
Qed.

(** Every month of the years 1 to 400 passes the check. *)
Lemma shift_checked_period :
  forallb (fun y => forallb (shift_checked y) (zrange 1 12)) (zrange 1 400)
  = true.
Proof. vm_compute. reflexivity. Qed.

Lemma shift_checked_all (y m : Z) :
  1 <= y <= 400 -> 1 <= m <= 12 -> shift_checked y m = true.
Proof.
  intros Hy Hm. pose proof shift_checked_period as Hall.
  rewrite forallb_forall in Hall.
  specialize (Hall y (In_zrange 400 1 y ltac:(lia))).
  rewrite forallb_forall in Hall.
  exact (Hall m (In_zrange 12 1 m ltac:(lia))).
Qed.

Lemma is_leap_period (y k : Z) : is_leap (y + 400 * k) = is_leap y.
Proof.
  unfold is_leap.
  replace ((y + 400 * k) mod 4) with (y mod 4)
    by (replace (y + 400 * k) with (y + 100 * k * 4) by ring;
        now rewrite Z.mod_add).
  replace ((y + 400 * k) mod 100) with (y mod 100)
    by (replace (y + 400 * k) with (y + 4 * k * 100) by ring;
        now rewrite Z.mod_add).
  replace ((y + 400 * k) mod 400) with (y mod 400)
    by (replace (y + 400 * k) with (y + k * 400) by ring;
        now rewrite Z.mod_add).
  reflexivity.
Qed.

Lemma days_before_year_period (y k : Z) :
  days_before_year (y + 400 * k) = days_before_year y + 146097 * k.
Proof.
  unfold days_before_year. cbv zeta.
  replace ((y + 400 * k - 1) / 4) with ((y - 1) / 4 + 100 * k)
    by (replace (y + 400 * k - 1) with (y - 1 + 100 * k * 4) by ring;
        now rewrite Z.div_add).
  replace ((y + 400 * k - 1) / 100) with ((y - 1) / 100 + 4 * k)
    by (replace (y + 400 * k - 1) with (y - 1 + 4 * k * 100) by ring;
        now rewrite Z.div_add).
  replace ((y + 400 * k - 1) / 400) with ((y - 1) / 400 + k)
    by (replace (y + 400 * k - 1) with (y - 1 + k * 400) by ring;
        now rewrite Z.div_add).
  ring.
Qed.

Lemma toordinal_period (y m d k : Z) :
  toordinal (y + 400 * k) m d = toordinal y m d + 146097 * k.
Proof.
  unfold toordinal, days_before_month.
  rewrite days_before_year_period, is_leap_period. ring.
Qed.

Lemma days_in_month_period (y m k : Z) :
  days_in_month (y + 400 * k) m = days_in_month y m.
Proof. unfold days_in_month. now rewrite is_leap_period. Qed.

Lemma fromordinal_period (n k : Z) :
  fromordinal (n + 146097 * k)
  = let '(y, m, d) := fromordinal n in (y + 400 * k, m, d).
Proof.
  unfold fromordinal. cbv zeta.
  replace (n + 146097 * k - 1) with (n - 1 + k * 146097) by ring.
  rewrite Z.div_add, Z.mod_add by lia.
  set (r := (n - 1) mod 146097).
  destruct ((r mod 36524 mod 1461 / 365 =? 4) || (r / 36524 =? 4));
    [f_equal; f_equal; ring|].
  match goal with
  | |- (if ?c then _ else _) = _ => destruct c
  end; f_equal; f_equal; ring.
Qed.

Lemma month_of_shift_period (d y m k : Z) :
  month_of_shift d (y + 400 * k) m
  = (fst (month_of_shift d y m) + 400 * k, snd (month_of_shift d y m)).
Proof.
  unfold month_of_shift. rewrite toordinal_period.
  replace (toordinal y m 15 + 146097 * k + d)
    with (toordinal y m 15 + d + 146097 * k) by ring.
  rewrite fromordinal_period.
  destruct (fromordinal (toordinal y m 15 + d)) as [[y' m'] d']. reflexivity.
Qed.

(** A year of the calendar, brought back into the first 400 years. *)
Lemma year_period (y : Z) :
  1 <= y <= 9999 ->
  exists y0 k, y = y0 + 400 * k /\ 1 <= y0 <= 400 /\ 0 <= k <= 24 /\
               (k = 24 -> y0 <= 399).
Proof.
  intros Hy. exists ((y - 1) mod 400 + 1), ((y - 1) / 400).
  pose proof (Z.div_mod (y - 1) 400 ltac:(lia)) as Hd.
  pose proof (Z.mod_pos_bound (y - 1) 400 ltac:(lia)) as Hm.
  assert (0 <= (y - 1) / 400 <= 24).
  { split; [apply Z.div_pos; lia|].
    assert ((y - 1) / 400 < 25) by (apply Z.div_lt_upper_bound; lia). lia. }
  repeat split; try lia.
Qed.

(** The month 31 days after the 15th is the next month, and the month 31
    days before it the previous one, for every month of the calendar; the
    day falls out of the calendar after December 9999 and before January
    of the year 1 only. *)
Lemma shift_from_15th (y m : Z) :
  1 <= y <= 9999 -> 1 <= m <= 12 ->
  date y m 15 = Some (y, m, 15) /\
  (exists d, add_days (y, m, 15) 31
             = if (y =? 9999) && (m =? 12) then None
               else Some (fst (month_after y m), snd (month_after y m), d)) /\
  (exists d, add_days (y, m, 15) (-31)
             = if (y =? 1) && (m =? 1) then None
               else Some (fst (month_before y m), snd (month_before y m), d)).
Proof.
  intros Hy Hm.
  destruct (year_period y Hy) as (y0 & k & -> & Hy0 & Hk & Hk24).
  pose proof (shift_checked_all y0 m Hy0 Hm) as Hc.
  unfold shift_checked in Hc. cbv zeta in Hc.
  repeat (apply andb_true_iff in Hc as [Hc ?]).
  rename H into Hup, H0 into Hlow24, H1 into Hlow, H2 into Hge, H3 into Hle,
    H4 into Hprev, H5 into Hnext.
  apply Z.leb_le in Hc, Hle, Hge.
  unfold same_month in Hprev, Hnext.
  apply andb_true_iff in Hprev as [Hp1 Hp2], Hnext as [Hn1 Hn2].
  apply Z.eqb_eq in Hp1, Hp2, Hn1, Hn2.
  pose proof (month_of_shift_period 31 y0 m k) as Hs31.
  pose proof (month_of_shift_period (-31) y0 m k) as Hs31'.
  unfold month_of_shift in Hs31, Hs31', Hn1, Hn2, Hp1, Hp2.
  split; [|split].
  - unfold date. rewrite days_in_month_period.
    replace ((1 <=? y0 + 400 * k) && (y0 + 400 * k <=? 9999) && (1 <=? m) &&
             (m <=? 12) && (1 <=? 15) && (15 <=? days_in_month y0 m))
      with true; [reflexivity|].
    symmetry. repeat (apply andb_true_iff; split); apply Z.leb_le; lia.
  - unfold add_days. rewrite toordinal_period in *. unfold max_ordinal in *.
    set (n := toordinal y0 m 15) in *.
    destruct (fromordinal (n + 146097 * k + 31)) as [[y' m'] d'] eqn:Ef.
    exists d'.
    destruct ((y0 + 400 * k =? 9999) && (m =? 12)) eqn:Eb.
    + apply andb_true_iff in Eb as [Ey Em]. apply Z.eqb_eq in Ey, Em. subst m.
      assert (y0 = 399 /\ k = 24) as [-> ->] by lia.
      cbn [Z.eqb andb] in Hup. apply Z.ltb_lt in Hup.
      replace ((1 <=? n + 146097 * 24 + 31) && (n + 146097 * 24 + 31 <=? 3652059))
        with false; [reflexivity|].
      symmetry. apply andb_false_iff. right. apply Z.leb_gt. lia.
    + replace ((1 <=? n + 146097 * k + 31) && (n + 146097 * k + 31 <=? 3652059))
        with true.
      * f_equal. injection Hs31 as -> ->. rewrite Hn2.
        rewrite Hn1. unfold month_after.
        destruct (m =? 12); cbn [fst snd]; do 2 f_equal; ring.
      * symmetry. apply andb_true_iff. split; apply Z.leb_le; [lia|].
        destruct (Z.eq_dec k 24) as [-> | Hne]; [|lia].
        specialize (Hk24 eq_refl).
        destruct ((y0 =? 399) && (m =? 12)) eqn:E399.
        -- apply andb_true_iff in E399 as [E1 E2].
           apply Z.eqb_eq in E1, E2. subst. cbn in Eb. discriminate.
        -- replace (y0 <? 400) with true in Hup by (symmetry; apply Z.ltb_lt; lia).
           apply Z.leb_le in Hup. lia.
  - unfold add_days. rewrite toordinal_period in *. unfold max_ordinal in *.
    set (n := toordinal y0 m 15) in *.
    destruct (fromordinal (n + 146097 * k + -31)) as [[y' m'] d'] eqn:Ef.
    exists d'.
    destruct ((y0 + 400 * k =? 1) && (m =? 1)) eqn:Eb.
    + apply andb_true_iff in Eb as [Ey Em]. apply Z.eqb_eq in Ey, Em. subst m.
      assert (y0 = 1 /\ k = 0) as [-> ->] by lia.
      cbn [Z.eqb andb] in Hlow. apply Z.ltb_lt in Hlow.
      replace ((1 <=? n + 146097 * 0 + -31) && (n + 146097 * 0 + -31 <=? 3652059))
        with false; [reflexivity|].
      symmetry. apply andb_false_iff. left. apply Z.leb_gt. lia.
    + replace ((1 <=? n + 146097 * k + -31) && (n + 146097 * k + -31 <=? 3652059))
        with true.
      * f_equal. injection Hs31' as -> ->. rewrite Hp2.
        rewrite Hp1. unfold month_before.
        destruct (m =? 1); cbn [fst snd]; do 2 f_equal; ring.
      * symmetry. apply andb_true_iff. split; apply Z.leb_le.
        -- destruct ((y0 =? 1) && (m =? 1)) eqn:E1.
           ++ apply andb_true_iff in E1 as [E1 E2].
              apply Z.eqb_eq in E1, E2. subst.
              assert (k <> 0) by (intros ->; cbn in Eb; discriminate). lia.
           ++ apply Z.leb_le in Hlow. lia.
        -- destruct (Z.eq_dec k 24) as [-> | Hne]; [|lia].
           specialize (Hk24 eq_refl).
           replace (y0 <? 400) with true in Hlow24
             by (symmetry; apply Z.ltb_lt; lia).
           apply Z.leb_le in Hlow24. lia.
Qed.

End Navigation.

Section MonthButtons.
Import App.

(** The buttons of the calendar move it by exactly one month, whatever
    the month shown: [_next_month] shows the month after and
    [_prev_month] the month before, and the calendar and the list are
    then drawn for that month.  Past December 9999 and before January of
    the year 1 the call raises [OverflowError] and the month shown
    stays. *)
Theorem month_buttons_move_one_month :
  forall (draw : t -> t * result unit) (a : t),
    let y := cur_year (_sched_state a) in
    let m := cur_month (_sched_state a) in
    1 <= y <= 9999 -> 1 <= m <= 12 ->
    _next_month draw a
    = (if (y =? 9999) && (m =? 12) then (a, RaisesOverflowError)
       else drawn (draw (set_month (fst (Dates.month_after y m))
                                   (snd (Dates.month_after y m)) a))) /\
    _prev_month draw a
    = (if (y =? 1) && (m =? 1) then (a, RaisesOverflowError)
       else drawn (draw (set_month (fst (Dates.month_before y m))
                                   (snd (Dates.month_before y m)) a))).
Proof.
  intros draw a y m Hy Hm.
  destruct (shift_from_15th y m Hy Hm) as (Hd & [d1 Hn] & [d2 Hp]).
  unfold _next_month, _prev_month, shift_month. fold y m.
  rewrite Hd, Hn, Hp.
  split; [destruct ((y =? 9999) && (m =? 12)) | destruct ((y =? 1) && (m =? 1))];
    reflexivity.
Qed.

End MonthButtons.

(** ** The days of the calendar *)

Section DayCount.
Import App.
Context (H : host).

Lemma texts_checked_true : texts_checked = true.
Proof. vm_compute. reflexivity. Qed.

Lemma format_pad (n : Z) :
  (0 <= n <= 9999 -> format_0d 4 n = pad 4 n) /\
  (1000 <= n <= 9999 -> format_0d 1 n = pad 4 n) /\
  (0 <= n <= 99 -> format_0d 2 n = pad 2 n).
Proof.
  pose proof texts_checked_true as Hc. unfold texts_checked in Hc.
  apply andb_true_iff in Hc as [Hc H2]. apply andb_true_iff in Hc as [H4 H1].
  rewrite forallb_forall in H4, H1, H2.
  split; [|split]; intros Hn; apply String.eqb_eq;
    [apply H4 | apply H1 | apply H2]; apply In_zrange; lia.
Qed.

Lemma string_compare_refl (s : string) : String.compare s s = Eq.
Proof.
  induction s as [|c s IH]; [reflexivity | now rewrite compare_cons_same].
Qed.

Lemma eqb_compare (s t : string) :
  String.eqb s t = match String.compare s t with Eq => true | _ => false end.
Proof.
  destruct (String.eqb_spec s t) as [-> | Hne].
  - now rewrite string_compare_refl.
  - destruct (String.compare s t) eqn:E; try reflexivity.
    apply String.compare_eq_iff in E. contradiction.
Qed.

(** The text of a date is the text of the day exactly when the date
    falls on the day. *)
Lemma day_text_eqb (padded : bool) (dt : datetime) (y m d : Z) :
  dt_valid dt -> (padded = false -> 1000 <= year dt) ->
  1 <= y <= 9999 -> 1 <= m <= 12 -> 1 <= d <= 31 ->
  String.eqb (strftime_Ymd padded dt) (day_text y m d)
  = (year dt =? y) && (month dt =? m) && (day dt =? d).
Proof.
  intros (Hy & Hm & Hd & _) Hpad Hy' Hm' Hd'.
  unfold strftime_Ymd, day_text.
  assert (Ey : format_0d (if padded then 4 else 1)%nat (year dt) = pad 4 (year dt)).
  { destruct padded; [apply format_pad; lia|].
    specialize (Hpad eq_refl). apply format_pad; lia. }
  rewrite Ey.
  rewrite (proj1 (format_pad y)) by lia.
  rewrite !(proj2 (proj2 (format_pad _))) by lia.
  rewrite eqb_compare.
  rewrite pad_compare, compare_cons_same by (cbn; lia).
  rewrite pad_compare, compare_cons_same by (cbn; lia).
  rewrite <- (append_nil_r (pad 2 (day dt))), <- (append_nil_r (pad 2 d)).
  rewrite pad_compare by (cbn; lia).
  cbn [String.compare]. rewrite lex_Eq_r.
  destruct (Z.compare_spec (year dt) y) as [-> | Hlt | Hgt]; cbn [lex].
  - rewrite Z.eqb_refl. cbn [andb].
    destruct (Z.compare_spec (month dt) m) as [-> | Hlt | Hgt]; cbn [lex].
    + rewrite Z.eqb_refl. cbn [andb].
      destruct (Z.compare_spec (day dt) d) as [-> | Hlt | Hgt].
      * now rewrite Z.eqb_refl.
      * symmetry. apply Z.eqb_neq. lia.
      * symmetry. apply Z.eqb_neq. lia.
    + replace (month dt =? m) with false by (symmetry; apply Z.eqb_neq; lia).
      reflexivity.
    + replace (month dt =? m) with false by (symmetry; apply Z.eqb_neq; lia).
      reflexivity.
  - replace (year dt =? y) with false by (symmetry; apply Z.eqb_neq; lia).
    reflexivity.
  - replace (year dt =? y) with false by (symmetry; apply Z.eqb_neq; lia).
    reflexivity.
Qed.

Lemma count_on_day_spec (padded : bool) (y m d : Z) (items : list pyval) :
  1 <= y <= 9999 -> 1 <= m <= 12 -> 1 <= d <= 31 ->
  (forall e, List.In e items ->
     exists dt, Scheduler.when_of H e = Ok dt /\ dt_valid dt /\
                (padded = false -> 1000 <= year dt)) ->
  count_on_day H padded (day_text y m d) items
  = Ok (length (List.filter (on_day H y m d) items)).
Proof.
  intros Hy Hm Hd. induction items as [|e r IH]; intros Hall; [reflexivity|].
  destruct (Hall e (or_introl eq_refl)) as (dt & Hw & Hv & Hp).
  cbn [count_on_day List.filter]. unfold bind, on_day at 1. rewrite Hw.
  rewrite IH by (intros e' He'; apply Hall; now right).
  rewrite (day_text_eqb padded dt y m d Hv Hp Hy Hm Hd).
  destruct ((year dt =? y) && (month dt =? m) && (day dt =? d)); reflexivity.
Qed.

Lemma filter_length_perm (f : pyval -> bool) (l l' : list pyval) :
  Permutation l l' ->
  length (List.filter f l) = length (List.filter f l').
Proof.
  induction 1 as [|x l l' _ IH|x y l|l l' l'' _ IH1 _ IH2]; cbn [List.filter].
  - reflexivity.
  - destruct (f x); cbn [length]; now rewrite IH.
  - destruct (f x), (f y); reflexivity.
  - now rewrite IH1.
Qed.

Lemma when_of_key (e : pyval) (dt : datetime) :
  Scheduler.when_of H e = Ok dt -> exists k, Scheduler.when_text e k.
Proof.
  intros Hw. destruct (when_of_fires_at H e dt Hw) as (k & Hk & _). eauto.
Qed.

(** The number a day of the calendar shows is the number of triggers of
    the table that fire on that day, whatever their order and their
    times of day (on a platform that does not pad the year, for triggers
    from the year 1000 on). *)
Theorem day_badge_counts_triggers :
  forall (padded : bool) (a : t) (y m d : Z) (tbl : list (string * pyval)),
    Scheduler._events (scheduler a) = PDict tbl ->
    1 <= y <= 9999 -> 1 <= m <= 12 -> 1 <= d <= 31 ->
    (forall e, List.In e (map snd tbl) ->
       exists dt, Scheduler.when_of H e = Ok dt /\ dt_valid dt /\
                  (padded = false -> 1000 <= year dt)) ->
    _count_events_for_date H padded a y m d
    = Ok (length (List.filter (on_day H y m d) (map snd tbl))).
Proof.
  intros padded a y m d tbl He Hy Hm Hd Hall.
  unfold _count_events_for_date, Scheduler.list_all. rewrite He.
  destruct (keyed_ok (map snd tbl)) as (kv & -> & Hmap & _).
  { intros e Hin. destruct (Hall e Hin) as (dt & Hw & _).
    exact (when_of_key e dt Hw). }
  cbn [bind].
  assert (Hperm : Permutation (map snd (Scheduler.sort_keyed kv)) (map snd tbl)).
  { rewrite <- Hmap. apply Permutation_map, sort_keyed_perm. }
  rewrite count_on_day_spec; auto.
  - f_equal. now apply filter_length_perm.
  - intros e Hin. apply Hall.
    exact (Permutation_in _ Hperm Hin).
Qed.

End DayCount.

(** ** What the scheduler leaves alone; what a playback refuses *)

Section SchedulerFrame.
Import Scheduler.
Context (H : host).

Lemma save_frame (s : t) (fs fs' : gmap string Fs.node) (p : string) :
  p <> _persist_path s -> save s fs = Ok fs' -> fs' !! p = fs !! p.
Proof.
  intros Hp. rewrite save_cases. intros [= <-].
  unfold write_table, Fs.write_pieces.
  destruct (Fs.writable fs (_persist_path s)); [|reflexivity].
  destruct (Fs.accepted _) as [w ok]. now apply lookup_insert_ne.
Qed.

Lemma cycle_frame (now : datetime) (s : t) (fs : gmap string Fs.node)
  (p : string) :
  p <> _persist_path s ->
  snd (fst (cycle H now s fs)) !! p = fs !! p /\
  _persist_path (fst (fst (cycle H now s fs))) = _persist_path s.
Proof.
  intros Hp. unfold cycle.
  destruct (_events s) as [| | | | | |d]; try (split; reflexivity).
  destruct (scan H now d d) as [tbl [due|x]]; [|split; reflexivity].
  cbn [fst snd]. split; [|reflexivity].
  destruct due as [|e due]; [reflexivity|].
  destruct (save (set_events (PDict tbl) s) fs) as [fs'|] eqn:Es; [|reflexivity].
  now apply (save_frame (set_events (PDict tbl) s)).
Qed.

(** The scheduler writes no file but its own: [save], [add], [remove] and
    the loop, however long it runs and whatever it fires, leave every
    other path of the file system as it was. *)
Theorem scheduler_writes_only_its_file :
  forall (s : t) (fs : gmap string Fs.node) (p : string),
    p <> _persist_path s ->
    (forall fs', save s fs = Ok fs' -> fs' !! p = fs !! p) /\
    (forall title when_dt macro_path speed loops uid fresh s1 fs1 id,
        add H title when_dt macro_path speed loops uid fresh s fs
        = Ok (s1, fs1, id) -> fs1 !! p = fs !! p) /\
    (forall uid s1 fs1,
        remove uid s fs = Ok (s1, fs1) -> fs1 !! p = fs !! p) /\
    (forall ticks, snd (fst (_loop H ticks s fs)) !! p = fs !! p).
Proof.
  intros s fs p Hp. split; [|split; [|split]].
  - intros fs'. now apply save_frame.
  - intros title when_dt macro_path speed loops uid fresh s1 fs1 id.
    unfold add, bind.
    destruct (py_float H speed); [|discriminate].
    destruct (py_int H loops); [|discriminate].
    destruct (_events s); try discriminate.
    destruct (save _ fs) as [fs2|] eqn:Es; [|discriminate].
    intros [= <- <- <-]. exact (save_frame (set_events _ s) _ _ _ Hp Es).
  - intros uid s1 fs1. unfold remove, bind.
    destruct (contains (_events s) uid) as [[|]|]; try discriminate.
    + destruct (_events s); try discriminate.
      destruct (save _ fs) as [fs2|] eqn:Es; [|discriminate].
      intros [= <- <-]. exact (save_frame (set_events _ s) _ _ _ Hp Es).
    + now intros [= <- <-].
  - intros ticks. revert s fs Hp.
    induction ticks as [|now ticks IH]; intros s fs Hp; cbn [_loop];
      [reflexivity|].
    destruct (cycle_frame now s fs p Hp) as [Hf Hpath].
    destruct (cycle H now s fs) as [[s1 fs1] [tr [[]|x]]]; cbn [fst snd] in *;
      [|exact Hf].
    specialize (IH s1 fs1). rewrite Hpath in IH. specialize (IH Hp).
    destruct (_loop H ticks s1 fs1) as [[s2 fs2] [tr' res]]. cbn [fst snd] in *.
    congruence.
Qed.

(** [add] touches one id: every other id of the table keeps its
    trigger; an id that was there keeps its place in the table, a new one
    comes last. *)
Theorem add_keeps_other_triggers :
  forall (title : pyval) (when_dt : datetime) (macro_path speed loops : pyval)
         (uid : option string) (fresh : string) (s s1 : t)
         (fs fs1 : gmap string Fs.node) (id : string)
         (d : list (string * pyval)),
    _events s = PDict d ->
    add H title when_dt macro_path speed loops uid fresh s fs
    = Ok (s1, fs1, id) ->
    exists d1, _events s1 = PDict d1 /\
      (forall k, k <> id -> assoc_get k d1 = assoc_get k d) /\
      map fst d1 = match assoc_get id d with
                   | Some _ => map fst d
                   | None => map fst d ++ [id]
                   end.
Proof.
  intros title when_dt macro_path speed loops uid fresh s s1 fs fs1 id d He.
  unfold add, bind. rewrite He.
  destruct (py_float H speed) as [sp|]; [|discriminate].
  destruct (py_int H loops) as [lp|]; [|discriminate].
  destruct (save _ fs) as [fs2|]; [|discriminate].
  intros [= <- <- <-]. cbn [_events set_events].
  eexists. split; [reflexivity|]. split.
  - intros k Hk. now apply assoc_get_dict_set_ne.
  - generalize (PDict [("id", PStr match uid with
                                   | Some u => u
                                   | None => fresh
                                   end); ("title", title);
                       ("when", PStr (isoformat when_dt));
                       ("macro", macro_path); ("speed", PFloat sp);
                       ("loops", PInt lp)]%string).
    generalize (match uid with Some u => u | None => fresh end).
    intros k v. clear. induction d as [|[k0 v0] d IH]; cbn.
    + reflexivity.
    + destruct (String.eqb_spec k k0) as [-> | Hne]; cbn; [reflexivity|].
      rewrite IH. destruct (assoc_get k d); reflexivity.
Qed.

End SchedulerFrame.

Section PlayErrors.
Import Macro.
Context (H : host).

(** What [load] accepted without a check fails when it is played, before
    anything is sent to a controller: a list with an element that is not
    an object, met before any positional event, ends the playback with
    [AttributeError], and a value that cannot be iterated with
    [TypeError]; the stop flag has been cleared by then. *)
Theorem play_rejects_malformed_events :
  forall (abort : nat -> bool) (speed loops : pyval) (suppress : list string)
         (m : t),
    (forall pre x post,
        events m = PList (pre ++ x :: post) ->
        Forall (fun e => non_positional e = true) pre ->
        (forall d, x <> PDict d) ->
        play H abort speed loops suppress m
        = (set_stop_flag false m, ([], Raise AttributeError))) /\
    (py_truthy (events m) = true ->
     py_iter (events m) = Raise TypeError ->
     play H abort speed loops suppress m
     = (set_stop_flag false m, ([], Raise TypeError))).
Proof.
  intros abort speed loops suppress m. split.
  - intros pre x post He Hpre Hx. unfold play.
    assert (Ht : py_truthy (events m) = true)
      by (rewrite He; destruct pre; reflexivity).
    rewrite Ht. cbn [negb].
    replace (_first_xy H (set_stop_flag false m))
      with (first_xy_in H (pre ++ x :: post))
      by (unfold _first_xy, bind; cbn [events set_stop_flag]; now rewrite He).
    assert (Hf : first_xy_in H (pre ++ x :: post) = Raise AttributeError).
    { clear He Ht. induction Hpre as [|e pre He _ IH].
      - cbn [app first_xy_in]. unfold bind.
        destruct x; try reflexivity. exfalso. now apply (Hx d).
      - cbn [app first_xy_in]. destruct e as [| | | | | |d]; try discriminate He.
        cbn in He. apply negb_true_iff in He.
        unfold bind. cbn [py_get]. rewrite He. exact IH. }
    now rewrite Hf.
  - intros Ht Hi. unfold play. rewrite Ht. cbn [negb].
    unfold _first_xy, bind. cbn [events set_stop_flag]. now rewrite Hi.
Qed.

End PlayErrors.

(** ** A turn with nothing due *)

Section IdleTurn.
Import Scheduler.
Context (H : host).

Lemma scan_none_due (now : datetime) (items : list (string * pyval)) :
  forall tbl : list (string * pyval),
    (forall k e, List.In (k, e) items ->
       exists w, when_of H e = Ok w /\ dt_le w now = Ok false) ->
    scan H now items tbl = (tbl, Ok []).
Proof.
  induction items as [|[k0 e0] r IH]; intros tbl Hall; [reflexivity|].
  destruct (Hall k0 e0 (or_introl eq_refl)) as (w & Hw & Hl).
  cbn [scan]. unfold is_due, bind. rewrite Hw, Hl. apply IH.
  intros k e Hin. apply (Hall k e). now right.
Qed.

(** A turn of the loop at which no trigger is due changes nothing: the
    table stays as it is, no file is written, nothing is fired; the turn
    only sleeps its half second.  So a loop that finds nothing due never
    touches the disk, however long it runs. *)
Theorem idle_turn_changes_nothing :
  forall (s : t) (fs : gmap string Fs.node) (d : list (string * pyval)),
    _events s = PDict d ->
    (forall now,
        (forall k e, List.In (k, e) d ->
           exists w, when_of H e = Ok w /\ dt_le w now = Ok false) ->
        cycle H now s fs = (s, fs, ([Sleep (1 # 2)], Ok tt))) /\
    (forall ticks,
        (forall now k e, List.In now ticks -> List.In (k, e) d ->
           exists w, when_of H e = Ok w /\ dt_le w now = Ok false) ->
        _loop H ticks s fs
        = (s, fs, (map (fun _ => Sleep (1 # 2)) ticks, Ok tt))).
Proof.
  intros s fs d He.
  assert (Hc : forall now,
             (forall k e, List.In (k, e) d ->
                exists w, when_of H e = Ok w /\ dt_le w now = Ok false) ->
             cycle H now s fs = (s, fs, ([Sleep (1 # 2)], Ok tt))).
  { intros now Hall. unfold cycle. rewrite He, (scan_none_due now d d Hall).
    destruct s as [ev p]. cbn in He. subst ev. reflexivity. }
  split; [exact Hc|].
  induction ticks as [|now ticks IH]; intros Hall; [reflexivity|].
  cbn [_loop map]. rewrite Hc by (intros k e; apply Hall; now left).
  rewrite IH by (intros now' k e Hn; apply Hall; now right).
  reflexivity.
Qed.

End IdleTurn.

(** ** A trigger that cannot be read *)

Section UnreadableTrigger.
Import Scheduler.
Context (H : host).

Lemma unreadable_is_due (now : datetime) (e : pyval) (x : exn) :
  naive now -> unreadable H e x -> is_due H now e = Raise x.
Proof.
  intros Hn [(d & -> & Ew & ->) | [(k & (d & -> & Ek) & Ef & ->)
                                  | (w & off & Hf & Ho & ->)]].
  - unfold is_due, when_of, py_index, bind. now rewrite Ew.
  - unfold is_due, when_of, py_index, bind. now rewrite Ek, Ef.
  - unfold is_due, bind. rewrite (fires_at_when_of H _ _ Hf).
    unfold dt_le. now rewrite Ho, Hn.
Qed.

Lemma scan_app_raise (now : datetime) (k : string) (e : pyval) (x : exn)
  (post : list (string * pyval)) :
  is_due H now e = Raise x ->
  forall (pre tbl tbl' : list (string * pyval)) (due : list pyval),
    scan H now pre tbl = (tbl', Ok due) ->
    scan H now (pre ++ (k, e) :: post) tbl = (tbl', Raise x).
Proof.
  intros Hx. induction pre as [|[k0 e0] pre IH]; intros tbl tbl' due Hs.
  - cbn in Hs. injection Hs as <- <-. cbn. now rewrite Hx.
  - cbn [app scan] in *. destruct (is_due H now e0) as [[|]|y]; [| |discriminate].
    + destruct (scan H now pre (dict_del k0 tbl)) as [tbl1 [due1|y]] eqn:Es;
        [|discriminate].
      injection Hs as <- <-. now rewrite (IH _ _ _ Es).
    + now apply (IH _ _ due).
Qed.

(** A trigger the scan cannot handle ends the loop.  When the triggers
    before it in the table are naive dates, like the clock, the turn
    raises the error of that trigger before anything is saved or fired,
    and no later turn takes place; the triggers before it that were due
    are gone from the table in memory, the others are still there. *)
Theorem unreadable_trigger_ends_loop :
  forall (now : datetime) (ticks : list datetime) (s : t)
         (fs : gmap string Fs.node) (pre post : list (string * pyval))
         (k : string) (e : pyval) (x : exn),
    _events s = PDict (pre ++ (k, e) :: post) ->
    List.NoDup (map fst (pre ++ (k, e) :: post)) ->
    naive now ->
    (forall k' e', List.In (k', e') pre ->
                   exists w, fires_at H e' w /\ naive w) ->
    unreadable H e x ->
    exists tbl,
      _loop H (now :: ticks) s fs
      = (set_events (PDict tbl) s, fs, ([Sleep (1 # 2)], Raise x)) /\
      (forall k' e' w, List.In (k', e') pre -> fires_at H e' w ->
         assoc_get k' tbl = if dt_leb w now then None else Some e') /\
      assoc_get k tbl = Some e /\
      (forall k' e', List.In (k', e') post -> assoc_get k' tbl = Some e').
Proof.
  intros now ticks s fs pre post k e x He Hnd Hnow Hpre Hbad.
  set (d := pre ++ (k, e) :: post) in *.
  assert (Hdue : forall k' e' w, List.In (k', e') pre -> fires_at H e' w ->
                                 is_due H now e' = Ok (dt_leb w now)).
  { intros k' e' w Hin Hf. destruct (Hpre k' e' Hin) as (w' & Hf' & Hn').
    rewrite (fires_at_fun H _ _ _ Hf Hf'). now apply is_due_naive. }
  assert (Hb : forall k' e', List.In (k', e') pre ->
                             exists b, is_due H now e' = Ok b).
  { intros k' e' Hin. destruct (Hpre k' e' Hin) as (w & Hf & _).
    rewrite (Hdue k' e' w Hin Hf). eauto. }
  destruct (scan_total H now pre d Hb) as (tbl & due & Hs).
  destruct (scan_spec H now pre d tbl due Hs) as (_ & Hd & Hk & _).
  pose proof (scan_app_raise now k e x post
                (unreadable_is_due now e x Hnow Hbad) pre d tbl due Hs) as Hr.
  fold d in Hr.
  assert (Hsub : forall k' e', List.In (k', e') pre -> List.In (k', e') d).
  { intros k' e' Hin. apply in_or_app. now left. }
  assert (Hout : forall k' e', List.In (k', e') ((k, e) :: post) ->
                               assoc_get k' tbl = Some e').
  { intros k' e' Hin. rewrite Hk.
    - apply assoc_get_In; [exact Hnd|]. apply in_or_app. now right.
    - intros e0 Hin0. exfalso.
      unfold d in Hnd. rewrite map_app in Hnd.
      apply NoDup_ListNoDup, NoDup_app in Hnd as (_ & Hdis & _).
      apply (Hdis k').
      + apply list_elem_of_In. now apply (List.in_map fst) in Hin0.
      + apply list_elem_of_In. now apply (List.in_map fst) in Hin. }
  exists tbl. cbn [_loop]. unfold cycle. rewrite He, Hr.
  split; [reflexivity|]. split; [|split].
  - intros k' e' w Hin Hf. pose proof (Hdue k' e' w Hin Hf) as Ed.
    destruct (dt_leb w now).
    + now apply (Hd Hnd k' e').
    + rewrite Hk; [apply assoc_get_In; auto|].
      intros e0 Hin0.
      assert (e0 = e') as ->.
      { apply Hsub in Hin, Hin0.
        apply (assoc_get_In _ _ _ Hnd) in Hin, Hin0. congruence. }
      exact Ed.
  - apply Hout. now left.
  - intros k' e' Hin. apply Hout. now right.
Qed.

End UnreadableTrigger.

(** ** A trigger added for the past *)

Section PastTrigger.
Import Scheduler.
Context (H : host).

Lemma dict_set_In (k k' : string) (v e : pyval) (d : list (string * pyval)) :
  List.In (k, e) (dict_set k' v d) -> (k, e) = (k', v) \/ List.In (k, e) d.
Proof.
  induction d as [|[k0 v0] d IH]; cbn.
  - intros [[= <- <-] | []]. now left.
  - destruct (String.eqb_spec k' k0) as [-> | Hn0]; cbn.
    + intros [[= <- <-] | Hin]; [now left | right; now right].
    + intros [Heq | Hin]; [right; now left|].
      destruct (IH Hin); [now left | right; now right].
Qed.

Lemma dict_set_In_new (k : string) (v : pyval) (d : list (string * pyval)) :
  List.In (k, v) (dict_set k v d).
Proof.
  induction d as [|[k0 v0] d IH]; cbn; [now left|].
  destruct (String.eqb_spec k k0); [now left | now right].
Qed.

(** A trigger added with a fire time that is not in the future is fired
    by the very next turn of the loop and leaves the table with it: the
    turn ends well, the trigger is among those fired and its id is no
    longer in the table.  The date added, the clock and the fire times
    of the table are naive dates. *)
Theorem past_trigger_fires_next_turn :
  forall (title : pyval) (when_dt now : datetime)
         (macro_path speed loops : pyval) (uid : option string)
         (fresh : string) (s s1 : t) (fs fs1 : gmap string Fs.node)
         (id : string) (d : list (string * pyval)),
    _events s = PDict d ->
    List.NoDup (map fst d) ->
    naive now -> naive when_dt ->
    (forall k e, List.In (k, e) d -> exists w, fires_at H e w /\ naive w) ->
    fromisoformat H (isoformat when_dt) = Some when_dt ->
    dt_leb when_dt now = true ->
    add H title when_dt macro_path speed loops uid fresh s fs
    = Ok (s1, fs1, id) ->
    exists d1 e tbl due fs2,
      _events s1 = PDict d1 /\ assoc_get id d1 = Some e /\
      cycle H now s1 fs1
      = (set_events (PDict tbl) s1, fs2,
         (Sleep (1 # 2) :: fst (fire_all H fs2 due), Ok tt)) /\
      List.In e due /\ assoc_get id tbl = None.
Proof.
  intros title when_dt now macro_path speed loops uid fresh s s1 fs fs1 id d
    He Hnd Hnow Hnaive Hall Hiso Hdue.
  unfold add, bind. rewrite He.
  destruct (py_float H speed) as [sp|]; [|discriminate].
  destruct (py_int H loops) as [lp|]; [|discriminate].
  destruct (save _ fs) as [fs'|]; [|discriminate].
  intros [= <- <- <-].
  set (k := match uid with Some u => u | None => fresh end).
  set (entry := PDict [("id", PStr k); ("title", title);
                       ("when", PStr (isoformat when_dt));
                       ("macro", macro_path); ("speed", PFloat sp);
                       ("loops", PInt lp)]%string).
  set (d1 := dict_set k entry d).
  assert (Hf : fires_at H entry when_dt).
  { exists (isoformat when_dt). split; [|exact Hiso].
    eexists. split; reflexivity. }
  assert (Hw : is_due H now entry = Ok true).
  { rewrite (is_due_naive H now entry when_dt Hnow Hf Hnaive). now f_equal. }
  assert (Hnd1 : List.NoDup (map fst d1)) by now apply dict_set_NoDup.
  assert (Hall1 : forall k0 e, List.In (k0, e) d1 ->
                               exists b, is_due H now e = Ok b).
  { intros k0 e Hin. destruct (dict_set_In _ _ _ _ _ Hin) as [[= -> ->] | Hin'];
      [eauto|].
    destruct (Hall _ _ Hin') as (w & Hfw & Hnw).
    rewrite (is_due_naive H now e w Hnow Hfw Hnw). eauto. }
  destruct (scan_total H now d1 d1 Hall1) as (tbl & due & Hs).
  destruct (scan_spec H now d1 d1 tbl due Hs) as (_ & Hd & _ & _).
  destruct (Hd Hnd1 k entry (dict_set_In_new k entry d) Hw)
    as [Hnone Hin].
  exists d1, entry, tbl, due. cbn [_events set_events].
  unfold cycle. cbn [_events set_events]. fold d1. rewrite Hs.
  set (fs2 := match due with [] => fs' | _ => _ end).
  exists fs2. split; [reflexivity|]. split; [apply assoc_get_dict_set|].
  split; [|auto].
  unfold obind. destruct (fire_all H fs2 due) as [tr r] eqn:E.
  rewrite (fire_all_spec H) in E. now injection E as <- <-.
Qed.

End PastTrigger.

(** ** Instances of the properties above *)

(** The trigger [b] taken out of the table of the examples. *)
Lemma remove_deletes_only_that_id_witness :
  let s := Scheduler.Mk (PDict example_table) "sched.json" in
  exists s' fs' d',
    Scheduler.remove "b" s ∅ = Ok (s', fs') /\
    Scheduler._events s' = PDict d' /\
    (forall k, assoc_get k d'
               = if String.eqb k "b" then None else assoc_get k example_table) /\
    (assoc_get "b" example_table = None -> s' = s /\ fs' = ∅) /\
    (assoc_get "b" example_table <> None -> Scheduler.save s' ∅ = Ok fs').
Proof.
  intros s.
  apply (remove_deletes_only_that_id "b" s ∅ example_table eq_refl).
  cbn. repeat constructor; cbn; intuition discriminate.
Defined.

(** A trigger added under the new id [u1] and removed again. *)
Lemma add_then_remove_restores_witness :
  let s := Scheduler.Mk (PDict example_table) "sched.json" in
  exists s1 fs1,
    Scheduler.add example_host (PStr "Macro") (DateTime 2024 5 1 10 0 0 0 None)
      (PStr "good.json") (PInt 1) (PInt 1) (Some "u1"%string) "fresh" s ∅
    = Ok (s1, fs1, "u1"%string) /\
    exists fs2, Scheduler.remove "u1" s1 fs1 = Ok (s, fs2) /\
                Scheduler.save s fs1 = Ok fs2.
Proof.
  intros s. eexists _, _. split; [reflexivity|].
  refine (proj2 (add_then_remove_restores example_host (PStr "Macro")
                   (DateTime 2024 5 1 10 0 0 0 None) (PStr "good.json") (PInt 1)
                   (PInt 1) "u1" "fresh" s _ ∅ _ "u1" example_table
                   eq_refl eq_refl eq_refl)).
Defined.

(** The table of the examples, saved and read by a new scheduler. *)
Lemma saved_table_survives_restart_witness :
  let s := Scheduler.Mk (PDict example_table) "sched.json" in
  let fs' : gmap string Fs.node :=
    <["sched.json"%string
      := Fs.Regular (Json.dumps_indent 0 (PDict example_table))]> ∅ in
  exists s',
    Scheduler.__init__ (Scheduler._persist_path s) fs' = Ok s' /\
    Scheduler._events s' = Scheduler._events s /\
    Scheduler._persist_path s' = Scheduler._persist_path s.
Proof.
  intros s fs'.
  apply (saved_table_survives_restart s ∅ fs'); [|reflexivity].
  cbn. repeat split; apply (bool_decide_unpack _); vm_compute; reflexivity.
Defined.

(** On the table of the examples, an [add] and a [remove] are on file. *)
Lemma mutations_survive_restart_witness :
  let s := Scheduler.Mk (PDict example_table) "sched.json" in
  (forall title when_dt macro_path speed loops uid fresh s1 fs1 id,
      wf_pyval title -> wf_pyval macro_path ->
      Scheduler.add example_host title when_dt macro_path speed loops uid
        fresh s ∅ = Ok (s1, fs1, id) ->
      snd (Scheduler.write_table s1 ∅) = Ok tt ->
      Scheduler.__init__ "sched.json" fs1 = Ok s1) /\
  (forall uid s1 fs1,
      assoc_get uid example_table <> None ->
      Scheduler.remove uid s ∅ = Ok (s1, fs1) ->
      snd (Scheduler.write_table s1 ∅) = Ok tt ->
      Scheduler.__init__ "sched.json" fs1 = Ok s1).
Proof.
  intros s.
  apply (mutations_survive_restart example_host s ∅ example_table eq_refl).
  cbn. repeat split; apply (bool_decide_unpack _); vm_compute; reflexivity.
Defined.

(** The table of the examples after a run at noon on May first 2024 and
    a run a second later: the trigger for 2030 is the only one left. *)
Lemma loop_keeps_only_future_triggers_witness :
  let s := Scheduler.Mk (PDict example_table) "sched.json" in
  let ticks := [DateTime 2024 5 1 12 0 0 0 None; DateTime 2024 5 1 12 0 1 0 None] in
  exists tbl fs' tr,
    Scheduler._loop example_host ticks s example_files
    = (Scheduler.set_events (PDict tbl) s, fs', (tr, Ok tt)) /\
    (forall k e, List.In (k, e) tbl -> List.In (k, e) example_table) /\
    (forall k e w, List.In (k, e) example_table ->
       Scheduler.fires_at example_host e w ->
       assoc_get k tbl = if existsb (dt_leb w) ticks then None else Some e).
Proof.
  intros s ticks.
  apply (loop_keeps_only_future_triggers example_host ticks s example_files
           example_table eq_refl).
  - cbn. repeat constructor; cbn; intuition discriminate.
  - repeat constructor.
  - intros k e [[= <- <-] | [[= <- <-] | [[= <- <-] | [[= <- <-] | []]]]];
      (eexists; split; [eexists; split; [eexists; split; reflexivity|]|];
       vm_compute; reflexivity).
Defined.

(** A move one second after the start and a click a second and a half
    later, replayed at speed 2. *)
Lemma record_then_play_witness :
  let cs := [Macro.CMove (Dec 11 0) 3 4;
             Macro.CClick (Dec 125 (-1)) 3 4 "left" true] in
  exists m1 items tr,
    Macro.run (Macro.CStart (Dec 10 0) :: cs) Macro.__init__ = Ok m1 /\
    Macro.events m1 = PList items /\
    length items = length cs /\
    Macro._first_xy example_host m1 = Ok (Macro.first_pos cs) /\
    Macro.one_pass example_host (PInt 2) [] items = (tr, Ok tt) /\
    Macro.inputs tr = concat (map (Macro.replayed example_host []) cs) /\
    (forall abort loops n,
        cs <> [] -> Macro.quiet abort -> py_int example_host loops = Ok n ->
        Macro.play example_host abort (PInt 2) loops [] m1
        = (Macro.set_stop_flag false m1,
           (Macro.first_move (Macro.first_pos cs)
              ++ Macro.repeat_trace (Z.to_nat (Z.max 1 n)) tr, Ok tt))).
Proof.
  intros cs.
  apply (record_then_play example_host (PInt 2) (Dec 2 0) [] (Dec 10 0) cs
           Macro.__init__ eq_refl).
  - reflexivity.
  - cbn. unfold Qle. cbn. lia.
  - repeat constructor.
  - intros a. reflexivity.
  - reflexivity.
Defined.

(** A file that holds a number: the events are replaced, the status
    stays, and the dialog says that the load failed. *)
Lemma on_load_reports_witness :
  let fs : gmap string Fs.node := {[ "n.json"%string := Fs.Regular "7" ]} in
  let a := App.Mk Macro.__init__ (PInt 1) (PInt 1) "Ready"
             (App.SchedState 2024 5 None) (Scheduler.Mk (PDict []) "s.json") in
  App.on_load "n.json" fs a
  = (App.set_macro (Macro.set_events (PInt 7) (App.macro a)) a,
     [App.ShowError "Load failed" TypeError]).
Proof.
  intros fs a.
  exact (proj1 (proj2 (proj2 (on_load_reports "n.json" fs a
                                ltac:(discriminate)))
                  "7"%string (PInt 7) TypeError eq_refl eq_refl eq_refl)).
Defined.

(** One recorded move, saved from one window and loaded into another. *)
Lemma on_save_then_on_load_witness :
  let l := [PDict [("t", PInt 0); ("type", PStr "move");
                   ("x", PInt 1); ("y", PInt 2)]%string] in
  let a := App.Mk (Macro.set_events (PList l) Macro.__init__) (PInt 1) (PInt 1)
             "Ready" (App.SchedState 2024 5 None)
             (Scheduler.Mk (PDict []) "s.json") in
  let b := App.set_macro Macro.__init__ a in
  exists fs',
    App.on_save "m.json" ∅ a = (App.set_status "Saved" a, fs', []) /\
    App.on_load "m.json" fs' b
    = (App.set_status (App.counted "Loaded" 1)
         (App.set_macro (Macro.set_events (PList l) (App.macro b)) b), []).
Proof.
  intros l a b.
  assert (Hwf : wf_pyval (PList l)).
  { cbn. repeat split; apply (bool_decide_unpack _); vm_compute; reflexivity. }
  eexists.
  exact (proj1 (on_save_then_on_load "m.json" ∅ a b l ltac:(discriminate)
                  eq_refl Hwf) _ eq_refl).
Defined.

(** F8 pressed in a window that records two events. *)
Lemma hotkey_toggles_recording_witness :
  let l := [PStr "a"; PStr "b"] in
  let a := App.Mk (Macro.Mk (PList l) true false None false []) (PInt 1)
             (PInt 1) "Recording…" (App.SchedState 2024 5 None)
             (Scheduler.Mk (PDict []) "s.json") in
  Macro.recording (App.macro (fst (App._hk_record_stop (Dec 1 0) a))) = false /\
  App.status (fst (App._hk_record_stop (Dec 1 0) a))
  = "Recorded 2 events"%string.
Proof.
  intros l a.
  destruct (hotkey_toggles_recording (Dec 1 0) a l eq_refl) as (_ & Hr & _ & Hs).
  split; [exact Hr | exact Hs].
Defined.

(** F7 pressed in a window that has just been built. *)
Lemma pause_while_idle_misreports_witness :
  let a := App.Mk Macro.__init__ (PInt 1) (PInt 1) "Ready"
             (App.SchedState 2024 5 None) (Scheduler.Mk (PDict []) "s.json") in
  Macro.recording (App.macro (App.on_pause (Dec 1 0) a)) = false /\
  App.status (App.on_pause (Dec 1 0) a) = "Recording…"%string.
Proof.
  intros a.
  exact (proj2 (pause_while_idle_misreports (Dec 1 0) a eq_refl)).
Defined.

(** From December 2024 the next month is January 2025 and the previous
    one November 2024. *)
Lemma month_buttons_move_one_month_witness :
  let draw := fun a : App.t => (a, Ok tt) in
  let a := App.Mk Macro.__init__ (PInt 1) (PInt 1) "Ready"
             (App.SchedState 2024 12 None) (Scheduler.Mk (PDict []) "s.json") in
  App._next_month draw a = (App.set_month 2025 1 a, App.Returns) /\
  App._prev_month draw a = (App.set_month 2024 11 a, App.Returns).
Proof.
  intros draw a.
  exact (month_buttons_move_one_month draw a ltac:(cbn; lia) ltac:(cbn; lia)).
Defined.

(** The first of May 2024 in the table of the examples: two triggers. *)
Lemma day_badge_counts_triggers_witness :
  let a := App.Mk Macro.__init__ (PInt 1) (PInt 1) "Ready"
             (App.SchedState 2024 5 None)
             (Scheduler.Mk (PDict example_table) "s.json") in
  App._count_events_for_date example_host true a 2024 5 1 = Ok 2%nat.
Proof.
  intros a.
  refine (day_badge_counts_triggers example_host true a 2024 5 1 example_table
            eq_refl _ _ _ _); try lia.
  intros e [<- | [<- | [<- | [<- | []]]]];
    (eexists; split; [vm_compute; reflexivity|]);
    (split; [unfold dt_valid; cbn; lia | discriminate]).
Defined.

(** A run of the loop over the table of the examples leaves the macro
    file as it was. *)
Lemma scheduler_writes_only_its_file_witness :
  let s := Scheduler.Mk (PDict example_table) "sched.json" in
  snd (fst (Scheduler._loop example_host [DateTime 2024 5 1 12 0 0 0 None] s
              example_files)) !! "good.json"%string
  = example_files !! "good.json"%string.
Proof.
  intros s.
  exact (proj2 (proj2 (proj2 (scheduler_writes_only_its_file example_host s
                                example_files "good.json"
                                ltac:(discriminate))))
           [DateTime 2024 5 1 12 0 0 0 None]).
Defined.

(** A trigger added under the id [b], which the table of the examples
    holds already: the ids keep their order. *)
Lemma add_keeps_other_triggers_witness :
  let s := Scheduler.Mk (PDict example_table) "sched.json" in
  exists s1 fs1,
    Scheduler.add example_host (PStr "Again") (DateTime 2031 1 1 0 0 0 0 None)
      (PStr "good.json") (PInt 1) (PInt 1) (Some "b"%string) "fresh" s ∅
    = Ok (s1, fs1, "b"%string) /\
    exists d1, Scheduler._events s1 = PDict d1 /\
      (forall k, k <> "b"%string -> assoc_get k d1 = assoc_get k example_table) /\
      map fst d1 = ["a"; "b"; "c"; "d"]%string.
Proof.
  intros s. eexists _, _. split; [reflexivity|].
  exact (add_keeps_other_triggers example_host (PStr "Again")
           (DateTime 2031 1 1 0 0 0 0 None) (PStr "good.json") (PInt 1) (PInt 1)
           (Some "b"%string) "fresh" s _ ∅ _ "b" example_table eq_refl eq_refl).
Defined.

(** The trigger for 2030 alone in the table, polled twice in 2024. *)
Lemma idle_turn_changes_nothing_witness :
  let d := [("c", example_trigger "c" "2030-01-01T00:00:00" "good.json")]%string in
  let s := Scheduler.Mk (PDict d) "sched.json" in
  let ticks := [DateTime 2024 5 1 12 0 0 0 None; DateTime 2024 5 1 12 0 1 0 None] in
  Scheduler._loop example_host ticks s example_files
  = (s, example_files, ([Sleep (1 # 2); Sleep (1 # 2)], Ok tt)).
Proof.
  intros d s ticks.
  refine (proj2 (idle_turn_changes_nothing example_host s example_files d
                   eq_refl) ticks _).
  intros now k e [<- | [<- | []]] [[= <- <-] | []];
    eexists; split; vm_compute; reflexivity.
Defined.

(** A trigger added at noon for ten o'clock of the same day. *)
Lemma past_trigger_fires_next_turn_witness :
  let s := Scheduler.Mk (PDict example_table) "sched.json" in
  let now := DateTime 2024 5 1 12 0 0 0 None in
  exists s1 fs1,
    Scheduler.add example_host (PStr "Late") (DateTime 2024 5 1 10 0 0 0 None)
      (PStr "good.json") (PInt 1) (PInt 1) (Some "u1"%string) "fresh" s
      example_files
    = Ok (s1, fs1, "u1"%string) /\
    exists d1 e tbl due fs2,
      Scheduler._events s1 = PDict d1 /\ assoc_get "u1" d1 = Some e /\
      Scheduler.cycle example_host now s1 fs1
      = (Scheduler.set_events (PDict tbl) s1, fs2,
         (Sleep (1 # 2) :: fst (Scheduler.fire_all example_host fs2 due),
          Ok tt)) /\
      List.In e due /\ assoc_get "u1" tbl = None.
Proof.
  intros s now. eexists _, _. split; [reflexivity|].
  refine (past_trigger_fires_next_turn example_host (PStr "Late")
            (DateTime 2024 5 1 10 0 0 0 None) now (PStr "good.json") (PInt 1)
            (PInt 1) (Some "u1"%string) "fresh" s _ example_files _ "u1"
            example_table eq_refl _ eq_refl eq_refl _ eq_refl eq_refl eq_refl).
  - cbn. repeat constructor; cbn; intuition discriminate.
  - intros k e [[= <- <-] | [[= <- <-] | [[= <- <-] | [[= <- <-] | []]]]];
      (eexists; split; [eexists; split; [eexists; split; reflexivity|]|];
       vm_compute; reflexivity).
Defined.

(** A due trigger, then one whose date has an offset, then one for
    2030: the turn raises [TypeError]; the first is gone from the table
    without having been fired. *)
Lemma unreadable_trigger_ends_loop_witness :
  let due := example_trigger "d" "2024-04-30T23:59:59.500000" "good.json" in
  let bad := example_trigger "z" "2024-05-01T10:00:00+02:00" "good.json" in
  let later := example_trigger "c" "2030-01-01T00:00:00" "good.json" in
  let s := Scheduler.Mk
             (PDict ([("d"%string, due)]
                       ++ ("z"%string, bad) :: [("c"%string, later)]))
             "sched.json" in
  let now := DateTime 2024 5 1 12 0 0 0 None in
  exists tbl,
    Scheduler._loop example_host [now; now] s example_files
    = (Scheduler.set_events (PDict tbl) s, example_files,
       ([Sleep (1 # 2)], Raise TypeError)) /\
    assoc_get "d" tbl = None /\ assoc_get "z" tbl = Some bad.
Proof.
  intros due bad later s now.
  destruct (unreadable_trigger_ends_loop example_host now [now] s example_files
              [("d", due)]%string [("c", later)]%string "z" bad TypeError
              eq_refl) as (tbl & Hl & Hpre & Hbad & _).
  - cbn. repeat constructor; cbn; intuition discriminate.
  - reflexivity.
  - intros k' e' [[= <- <-] | []].
    eexists. split; [eexists; split; [eexists; split; reflexivity|]|];
      vm_compute; reflexivity.
  - right. right. exists (DateTime 2024 5 1 10 0 0 0 (Some 7200000000)), 7200000000.
    split; [|split; reflexivity].
    eexists. split; [eexists; split; reflexivity|]. vm_compute. reflexivity.
  - exists tbl. split; [exact Hl|]. split; [|exact Hbad].
    apply (Hpre "d"%string due (DateTime 2024 4 30 23 59 59 500000 None));
      [now left|].
    eexists. split; [eexists; split; reflexivity|]. vm_compute. reflexivity.
Defined.

(** A file that names a surrogate by its escape is loaded; the events
    cannot be saved again, and the file they were to go to is left
    empty: the bracket and the string are one piece. *)
Lemma surrogate_events_not_saved_witness :
  let text := String "[" (String Json.quote
                (String Json.backslash ("ud800" +:+
                   String Json.quote "]"))) in
  let fs : gmap string Fs.node := {[ "in.json"%string := Fs.Regular text ]} in
  let a0 := App.Mk Macro.__init__ (PInt 1) (PInt 1) "Ready"
              (App.SchedState 2024 5 None) (Scheduler.Mk (PDict []) "s.json") in
  let a := fst (App.on_load "in.json" fs a0) in
  App.status a = "Loaded 1 events"%string /\
  exists w rest e,
    App.on_save "out.json" fs a
    = (a, <["out.json"%string := Fs.Regular w]> fs,
       [App.ShowError "Save failed" e]) /\
    w +:+ rest = Json.dumps (Macro.events (App.macro a)) /\
    rest <> EmptyString.
Proof.
  intros text fs a0 a. split; [reflexivity|].
  apply (surrogate_events_not_saved "out.json" fs a);
    [discriminate | reflexivity | reflexivity].
Defined.

